(** * WCAG contrast verification: a model of [contrast_verification.py]

    The script computes WCAG 2.x contrast ratios between hexadecimal
    colours.  This development embeds its four core functions,
    [hex_to_rgb], [luminance], [contrast_ratio] and [check_compliance],
    and proves the properties stated about them.

    Conventions of the embedding:
    - a Python [str] is a [string]; its characters are read as the code
      points U+0000 to U+00FF;
    - a Python [int] is a [Z];
    - a Python [float] is a primitive [float], the IEEE 754 binary64
      numbers with round-to-nearest-even, the arithmetic CPython
      inherits from the C [double];
    - a raised exception ([ValueError] from [int]) is [None];
    - the C library's [pow], which CPython calls for [**] on floats, is a
      parameter of the model. *)

From Stdlib Require Import ZArith QArith Qpower List Bool Ascii String Lia Lqa.
From Stdlib Require Import Floats.
From Stdlib Require Uint63.
Import ListNotations.

#[local] Set Warnings "-inexact-float".

Open Scope Z_scope.

(** ** Python built-ins used by [hex_to_rgb] *)

Module Py.

(** [s.lstrip(chars)] for a one-character [chars]: every leading
    occurrence of the character is removed. *)
Fixpoint lstrip (ch : ascii) (s : string) : string :=
  match s with
  | EmptyString => EmptyString
  | String c s' => if Ascii.eqb c ch then lstrip ch s' else s
  end.

Fixpoint drop (n : nat) (s : string) : string :=
  match n, s with
  | O, _ => s
  | S _, EmptyString => EmptyString
  | S n', String _ s' => drop n' s'
  end.

Fixpoint take (n : nat) (s : string) : string :=
  match n, s with
  | O, _ => EmptyString
  | S _, EmptyString => EmptyString
  | S n', String c s' => String c (take n' s')
  end.

(** [s[i:j]] for non-negative [i] and [j]: both bounds are clamped to
    the length of [s], so a slice never raises. *)
Definition slice (i j : nat) (s : string) : string :=
  take (j - i) (drop i s).

(** The value of a digit in bases up to 36 ([_PyLong_DigitValue]),
    restricted to the digits below 16. *)
Definition hex_digit (c : ascii) : option Z :=
  let n := Z.of_N (N_of_ascii c) in
  if (48 <=? n) && (n <=? 57) then Some (n - 48)
  else if (65 <=? n) && (n <=? 70) then Some (n - 55)
  else if (97 <=? n) && (n <=? 102) then Some (n - 87)
  else None.

(** White space as [int] sees it in a [str]: the ASCII characters
    space, TAB, LF, VT, FF and CR ([Py_ISSPACE]), and the two Unicode
    white-space characters of the range, U+0085 and U+00A0, which the
    conversion to ASCII turns into a space.  U+001C to U+001F are white
    space for [str.isspace] but not here. *)
Definition is_space (c : ascii) : bool :=
  let n := Z.of_N (N_of_ascii c) in
  ((9 <=? n) && (n <=? 13)) || (n =? 32) || (n =? 133) || (n =? 160).

Fixpoint skip_space (s : string) : string :=
  match s with
  | String c s' => if is_space c then skip_space s' else s
  | EmptyString => s
  end.

Definition is_underscore (c : ascii) : bool := Ascii.eqb c "_"%char.

(** The digit loop of [PyLong_FromString]: digits and single
    underscores between them are consumed; [prev_us] records that the
    previous character was an underscore.  The result is the value read
    and the unread rest, or [None] for a doubled or a trailing
    underscore. *)
Fixpoint scan_digits (prev_us : bool) (acc : Z) (s : string)
  : option (Z * string) :=
  match s with
  | EmptyString => if prev_us then None else Some (acc, s)
  | String c s' =>
      if is_underscore c then
        if prev_us then None else scan_digits true acc s'
      else
        match hex_digit c with
        | Some d => scan_digits false (16 * acc + d) s'
        | None => if prev_us then None else Some (acc, s)
        end
  end.

Definition starts_with_digit_or_us (s : string) : bool :=
  match s with
  | String c _ =>
      match hex_digit c with Some _ => true | None => is_underscore c end
  | EmptyString => false
  end.

(** The optional [0x] or [0X] prefix of base 16, and the one underscore
    allowed after it. *)
Definition skip_prefix (s : string) : string :=
  match s with
  | String c0 (String c1 s') =>
      if Ascii.eqb c0 "0"%char
         && (Ascii.eqb c1 "x"%char || Ascii.eqb c1 "X"%char)
      then match s' with
           | String c2 s'' => if is_underscore c2 then s'' else s'
           | EmptyString => s'
           end
      else s
  | _ => s
  end.

(** [int(s, 16)]: leading white space, an optional sign, an optional
    prefix, at least one digit, trailing white space, nothing else. *)
Definition int16 (s : string) : option Z :=
  let s1 := skip_space s in
  let '(neg, s2) :=
    match s1 with
    | String c s' =>
        if Ascii.eqb c "+"%char then (false, s')
        else if Ascii.eqb c "-"%char then (true, s')
        else (false, s1)
    | EmptyString => (false, s1)
    end in
  let s3 := skip_prefix s2 in
  match s3 with
  | EmptyString => None
  | String c _ =>
      if is_underscore c then None
      else if negb (starts_with_digit_or_us s3) then None
      else
        match scan_digits false 0 s3 with
        | Some (v, rest) =>
            match skip_space rest with
            | EmptyString => Some (if neg then - v else v)
            | String _ _ => None
            end
        | None => None
        end
  end.

End Py.

(** ** [hex_to_rgb] *)

(** [hex_color.lstrip('#')], then [int(hex_color[i:i+2], 16)] for [i] in
    [(0, 2, 4)], collected in a tuple.  The generator is consumed from
    left to right and the first failing conversion aborts it. *)
Definition hex_to_rgb (hex_color : string) : option (Z * Z * Z) :=
  let hex_color := Py.lstrip "#"%char hex_color in
  match Py.int16 (Py.slice 0 2 hex_color) with
  | None => None
  | Some r =>
      match Py.int16 (Py.slice 2 4 hex_color) with
      | None => None
      | Some g =>
          match Py.int16 (Py.slice 4 6 hex_color) with
          | None => None
          | Some b => Some (r, g, b)
          end
      end
  end.

(** The input format of the specification: exactly six hexadecimal
    digits. *)
Definition is_hex_digit (c : ascii) : bool :=
  match Py.hex_digit c with Some _ => true | None => false end.

Fixpoint all_hex (s : string) : bool :=
  match s with
  | EmptyString => true
  | String c s' => is_hex_digit c && all_hex s'
  end.

Definition six_hex_digits (s : string) : bool :=
  (Nat.eqb (String.length s) 6) && all_hex s.

(** The specification's reading of the input: one optional leading [#]
    is removed. *)
Definition strip_optional_hash (s : string) : string :=
  match s with
  | String c s' => if Ascii.eqb c "#"%char then s' else s
  | EmptyString => s
  end.

(** ** Floating-point built-ins *)

Module PyFloat.

(** Conversion of an [int] to a [float], as true division by a float
    performs it.  It is exact up to [2^53] in absolute value, which
    covers every value [int(_, 16)] reads from a two-character slice;
    integers that CPython refuses as too large for a float are
    outside the model. *)
Definition of_int (n : Z) : float :=
  if (n <? 0)%Z then (- of_uint63 (Uint63.of_Z (- n)))%float
  else of_uint63 (Uint63.of_Z n).

(** [float.__pow__] on a positive finite base with a finite non-zero
    exponent: CPython answers [1.0] by itself when the base is [1.0]
    and hands every other such pair to the C library.  The cases of
    [float_pow] that come before (zero exponent, NaN, infinities, zero
    or negative base) are not reached from [luminance], whose base is
    positive and whose exponent is [2.4]; calls on which the C library
    reports a range error are outside the model. *)
Definition pow (libm_pow : float -> float -> float) (iv iw : float)
  : float :=
  if (iv =? 1)%float then 1%float else libm_pow iv iw.

(** [max(a, b)] and [min(a, b)] keep the first argument unless the
    second is strictly greater, respectively strictly smaller. *)
Definition max (a b : float) : float := if (a <? b)%float then b else a.
Definition min (a b : float) : float := if (b <? a)%float then b else a.

End PyFloat.

(** ** [luminance], [contrast_ratio] and [check_compliance] *)

Section Contrast.

(** The C library's [pow]. *)
Variable libm_pow : float -> float -> float.

#[local] Open Scope float_scope.

(** The nested function [transform] of [luminance]. *)
Definition transform (c : Z) : float :=
  let c := PyFloat.of_int c / 255.0 in
  if c <=? 0.03928 then c / 12.92
  else PyFloat.pow libm_pow ((c + 0.055) / 1.055) 2.4.

Definition luminance (rgb : Z * Z * Z) : float :=
  let '(r, g, b) := rgb in
  let r := transform r in
  let g := transform g in
  let b := transform b in
  0.2126 * r + 0.7152 * g + 0.0722 * b.

(** The ratio of two luminances, the last three lines of
    [contrast_ratio]. *)
Definition ratio_of (lum1 lum2 : float) : float :=
  let lighter := PyFloat.max lum1 lum2 in
  let darker := PyFloat.min lum1 lum2 in
  (lighter + 0.05) / (darker + 0.05).

Definition contrast_ratio (color1 color2 : string) : option float :=
  match hex_to_rgb color1 with
  | None => None
  | Some rgb1 =>
      let lum1 := luminance rgb1 in
      match hex_to_rgb color2 with
      | None => None
      | Some rgb2 =>
          let lum2 := luminance rgb2 in
          Some (ratio_of lum1 lum2)
      end
  end.

(** [check_compliance] returns [ratio >= min_ratio]; the line it
    prints is not part of the model. *)
Definition check_compliance (foreground background : string)
    (min_ratio : float) (description : string) : option bool :=
  match contrast_ratio foreground background with
  | None => None
  | Some ratio =>
      let compliant := min_ratio <=? ratio in
      Some compliant
  end.

(** The default of [min_ratio]. *)
Definition default_min_ratio : float := 4.5.

(** The luminance formula as the specification words it: each channel
    is normalised, passed through the piecewise transfer function, and
    the three results are combined with the WCAG coefficients. *)
Definition wcag_linear (c : Z) : float :=
  let c' := PyFloat.of_int c / 255.0 in
  if c' <=? 0.03928 then c' / 12.92
  else PyFloat.pow libm_pow ((c' + 0.055) / 1.055) 2.4.

Definition wcag_luminance (r g b : Z) : float :=
  0.2126 * wcag_linear r + 0.7152 * wcag_linear g + 0.0722 * wcag_linear b.

End Contrast.

(** ** [main] *)

Module PyDict.

(** [d[key]] for a dictionary written as the list of its items; the
    keys of the literal are distinct.  A [KeyError] is [None]. *)
Fixpoint getitem (d : list (string * string)) (key : string) : option string :=
  match d with
  | [] => None
  | (k, v) :: d' => if String.eqb k key then Some v else getitem d' key
  end.

End PyDict.

(** The dictionary [colors] of [main]. *)
Definition colors : list (string * string) :=
  [ ("Primary", "#1565C0"); ("Secondary", "#2E7D32");
    ("Background", "#FFFFFF"); ("Surface", "#FAFAFA");
    ("OnPrimary", "#FFFFFF"); ("OnSecondary", "#FFFFFF");
    ("OnBackground", "#212121"); ("OnSurface", "#212121");
    ("Error", "#D32F2F"); ("OnError", "#FFFFFF");
    ("FocusIndicator", "#FF6F00"); ("ButtonPressed", "#0277BD");
    ("Divider", "#BDBDBD"); ("Disabled", "#9E9E9E") ]%string.

(** Sequencing of statements that may raise. *)
Definition bind {A B : Type} (x : option A) (f : A -> option B) : option B :=
  match x with
  | Some a => f a
  | None => None
  end.

Section Main.

(** The C library's [pow]. *)
Variable libm_pow : float -> float -> float.

#[local] Notation "x <- e ;; k" := (bind e (fun x => k))
  (at level 61, e at next level, right associativity).

(** One statement
    [all_compliant &= check_compliance(colors[fg], colors[bg], min_ratio, description)]:
    the two subscriptions, the call, then [&] on the two booleans. *)
Definition check_step (all_compliant : bool) (fg bg : string)
    (min_ratio : float) (description : string) : option bool :=
  foreground <- PyDict.getitem colors fg ;;
  background <- PyDict.getitem colors bg ;;
  compliant <- check_compliance libm_pow foreground background min_ratio description ;;
  Some (all_compliant && compliant).

(** The value [main] returns; the lines it prints are not part of the
    model. *)
Definition main : option bool :=
  let all_compliant := true in
  all_compliant <- check_step all_compliant "Primary" "Background" 4.5
                     "Primary on Background" ;;
  all_compliant <- check_step all_compliant "OnPrimary" "Primary" 4.5
                     "OnPrimary on Primary" ;;
  all_compliant <- check_step all_compliant "Secondary" "Background" 4.5
                     "Secondary on Background" ;;
  all_compliant <- check_step all_compliant "OnSecondary" "Secondary" 4.5
                     "OnSecondary on Secondary" ;;
  all_compliant <- check_step all_compliant "OnBackground" "Background" 4.5
                     "OnBackground on Background" ;;
  all_compliant <- check_step all_compliant "OnSurface" "Surface" 4.5
                     "OnSurface on Surface" ;;
  all_compliant <- check_step all_compliant "Error" "Background" 4.5
                     "Error on Background" ;;
  all_compliant <- check_step all_compliant "OnError" "Error" 4.5
                     "OnError on Error" ;;
  all_compliant <- check_step all_compliant "FocusIndicator" "Background" 3.0
                     "Focus Indicator vs Background" ;;
  all_compliant <- check_step all_compliant "OnPrimary" "ButtonPressed" 4.5
                     "Text vs Pressed Button" ;;
  all_compliant <- check_step all_compliant "Divider" "Background" 3.0
                     "Divider vs Background" ;;
  all_compliant <- check_step all_compliant "Disabled" "Background" 4.5
                     "Disabled Text vs Background" ;;
  Some all_compliant.

End Main.

(** * Definitions of the statements and of the proofs *)

(** ** Strings and colours *)

(** The 256 characters. *)
Definition all_ascii : list ascii := map ascii_of_nat (seq 0 256).

(** The value of a hexadecimal digit, zero for another character. *)
Definition digit_value (c : ascii) : Z :=
  match Py.hex_digit c with Some d => d | None => 0 end.

(** The claim C1 as the specification states it: failure exactly on the
    inputs that are not six hexadecimal digits after one optional [#]. *)
Definition fails_exactly_on_malformed (s : string) : Prop :=
  hex_to_rgb s = None <-> six_hex_digits (strip_optional_hash s) = false.

(** The colours of the specification: six hexadecimal digits after an
    optional [#]. *)
Definition valid_colour (s : string) : Prop :=
  six_hex_digits (strip_optional_hash s) = true.

(** The 256 values of a channel. *)
Definition channels : list Z := map Z.of_nat (seq 0 256).

(** The parts of [transform]: the channel divided by [255.0], the test
    that selects the linear branch, and the base handed to [pow] on the
    other branch. *)
Definition normalized (c : Z) : float := (PyFloat.of_int c / 255.0)%float.
Definition is_linear (c : Z) : bool := (normalized c <=? 0.03928)%float.
Definition base (c : Z) : float := ((normalized c + 0.055) / 1.055)%float.

(** The last line of [luminance], on the three transformed channels. *)
Definition weighted_sum (r g b : float) : float :=
  (0.2126 * r + 0.7152 * g + 0.0722 * b)%float.

(** ** Rounding, on integers

    The kernel's specification of binary64 ([SpecFloat]) rounds a
    mantissa that was shifted right, and records what the shift lost in a
    location.  The invariants below tie such a pair to the exact
    quotient [N / D] it stands for. *)

(** The truncated mantissa [m] and the location [l] describe [N / D]:
    [m] is its integer part and [l] compares the rest with one half. *)
Definition loc_inv (m : Z) (l : location) (N D : Z) : Prop :=
  0 < D /\ 0 <= m /\
  match l with
  | loc_Exact => N = m * D
  | loc_Inexact c => m * D < N < (m + 1) * D /\ (2 * N ?= (2 * m + 1) * D) = c
  end.

(** The same for the record the shifts work on. *)
Definition rec_inv (mrs : shr_record) (N D : Z) : Prop :=
  loc_inv (shr_m mrs) (loc_of_shr_record mrs) N D.

(** Comparisons as hypotheses and as goals, turned into inequalities. *)
Ltac cmp_hyps :=
  repeat match goal with
         | H : _ /\ _ |- _ => destruct H
         | H : (?a ?= ?b) = Lt |- _ => change (a < b) in H
         | H : (?a ?= ?b) = Gt |- _ => change (a > b) in H
         | H : (?a ?= ?b) = Eq |- _ => apply Z.compare_eq in H
         end.

Ltac cmp_goal :=
  first [ apply Z.compare_lt_iff | apply Z.compare_gt_iff
        | apply Z.compare_eq_iff ].

(** [m] is an integer nearest to [N / D], the even one of the two when
    [N / D] is half-way between them. *)
Definition nearest_even (m N D : Z) : Prop :=
  (2 * m - 1) * D <= 2 * N <= (2 * m + 1) * D
  /\ (2 * N = (2 * m - 1) * D \/ 2 * N = (2 * m + 1) * D -> Z.even m = true).

(** The number that rounding returns for the rounded mantissa [m] at
    exponent [e]: a mantissa of [2^53] is renormalised. *)
Definition round_result (m e : Z) : spec_float :=
  if m =? 0 then S754_zero false
  else if m =? 2 ^ 53 then S754_finite false (Z.to_pos (2 ^ 52)) (e + 1)
  else S754_finite false (Z.to_pos m) e.

(** ** Rounding, on rationals *)

Section Values.

#[local] Open Scope Q_scope.

Definition pow2 (e : Z) : Q := 2 ^ e.

(** [m * 2^e] is the rounding to nearest, ties to even, of the
    non-negative rational [x]: [e] is the exponent binary64 gives to a
    number of the size of [x], not below that of the subnormal numbers,
    and [m] is nearest to [x / 2^e]. *)
Definition Rounds (x : Q) (m e : Z) : Prop :=
  (-1074 <= e)%Z
  /\ ((-1074 < e)%Z -> inject_Z (2 ^ 52) * pow2 e <= x)
  /\ x < inject_Z (2 ^ 53) * pow2 e
  /\ (2 * inject_Z m - 1) * pow2 e <= 2 * x
  /\ 2 * x <= (2 * inject_Z m + 1) * pow2 e
  /\ (2 * x == (2 * inject_Z m - 1) * pow2 e
      \/ 2 * x == (2 * inject_Z m + 1) * pow2 e -> Z.even m = true).

(** The value of a finite number; zero for the others. *)
Definition SF2Q (x : spec_float) : Q :=
  match x with
  | S754_finite s m e => inject_Z (cond_Zopp s (Zpos m)) * pow2 e
  | _ => 0
  end.

(** Non-negative and finite: a zero of either sign or a positive finite
    number. *)
Definition SFnnf (x : spec_float) : Prop :=
  match x with
  | S754_zero _ => True
  | S754_finite s _ _ => s = false
  | _ => False
  end.

(** Both notions on the primitive numbers. *)
Definition F2Q (x : float) : Q := SF2Q (Prim2SF x).
Definition nnf (x : float) : Prop := SFnnf (Prim2SF x).

(** The bound under which the arithmetic below cannot overflow. *)
Definition big : float := 0x1p100%float.

(** Not negative and at most [big]. *)
Definition moderate (x : float) : Prop :=
  (0 <=? x)%float = true /\ (x <=? big)%float = true.

(** The bound above which a divisor cannot make a moderate quotient
    overflow. *)
Definition small : float := 0x1p-100%float.

Definition between (lo hi x : float) : Prop :=
  (lo <=? x)%float = true /\ (x <=? hi)%float = true.

End Values.

(** The six parts of [Rounds] as six goals. *)
Ltac split_rounds :=
  unfold Rounds; split; [|split; [|split; [|split; [|split]]]].

(** ** Intervals of luminances

    The end points of an interval are usable: the lower one is not
    negative and the upper one is moderate. *)
Definition usable (lo hi : float) : bool :=
  ((0 <=? lo) && (0 <=? hi) && (hi <=? big))%float.

(** The end points met while the weighted sum of three intervals is
    computed are usable. *)
Definition weighted_sum_usable (lr hr lg hg lb hb : float) : bool :=
  usable lr hr && usable lg hg && usable lb hb
  && usable (0.2126 * lr) (0.2126 * hr)
  && usable (0.7152 * lg) (0.7152 * hg)
  && usable (0.0722 * lb) (0.0722 * hb)
  && usable (0.2126 * lr + 0.7152 * lg) (0.2126 * hr + 0.7152 * hg).

Definition unit_float (x : float) : Prop := between 0 1 x.

(** What [transform] needs of a channel, whatever [pow] is: on the
    linear branch the result is in the unit interval, on the other one
    the base is [1.0] or strictly between zero and one. *)
Definition channel_ok (c : Z) : bool :=
  if is_linear c
  then ((0 <=? normalized c / 12.92) && (normalized c / 12.92 <=? 1))%float
  else ((base c =? 1) || ((0 <? base c) && (base c <? 1)))%float.

(** ** What is assumed of the C library's [pow]

    The first assumption: at exponent [2.4], [pow] maps the open unit
    interval into the closed one. *)
Definition pow_in_unit_interval (libm_pow : float -> float -> float) : Prop :=
  forall x : float,
    (0 <? x)%float = true -> (x <? 1)%float = true ->
    (0 <=? libm_pow x 2.4)%float = true /\ (libm_pow x 2.4 <=? 1)%float = true.

(** The second assumption is an accuracy of [eps], which is [2^-20].
    [p] is within [eps] of [x] to the power [2.4], stated without roots:
    the fifth powers of [p - eps] and [p + eps] enclose the twelfth power
    of [x]. *)
Definition eps : Q := 1 # 1048576.

Definition close_to_power (x p : float) : Prop :=
  ((F2Q p - eps) ^ 5 <= F2Q x ^ 12 /\ F2Q x ^ 12 <= (F2Q p + eps) ^ 5)%Q.

Definition close_to_power_b (x p : float) : bool :=
  Qle_bool ((F2Q p - eps) ^ 5) (F2Q x ^ 12)
  && Qle_bool (F2Q x ^ 12) ((F2Q p + eps) ^ 5).

(** On the bases of the channels 11 to 254, those for which
    [luminance] calls the C library, the result of [pow] is in the unit
    interval and within [eps] of the power. *)
Definition pow_accurate (libm_pow : float -> float -> float) : Prop :=
  forall c : Z, 11 <= c <= 254 ->
    unit_float (libm_pow (base c) 2.4%float)
    /\ close_to_power (base c) (libm_pow (base c) 2.4%float).

(** A bracket [lo, hi] of the power of [x], with a margin of [eps]. *)
Definition bracket (x lo hi : float) : bool :=
  usable lo hi && (lo <=? big)%float
  && Qle_bool ((F2Q lo + eps) ^ 5) (F2Q x ^ 12)
  && Qle_bool (F2Q x ^ 12) ((F2Q hi - eps) ^ 5)
  && Qle_bool eps (F2Q hi).

(** ** A power function

    The assumptions on [pow] are satisfiable: [pow_12_5 x _] computes [x]
    to the power [12/5] as [x^2] times the fifth root of [x^2], the root
    by Newton's iteration, and answers zero should the result leave the
    unit interval. *)
Definition newton_fifth_root (t : float) : float :=
  Nat.iter 40 (fun y => ((4 * y + t / (y * y * y * y)) / 5)%float) 1%float.

Definition pow_12_5 (x y : float) : float :=
  let v := (x * x * newton_fifth_root (x * x))%float in
  if ((0 <=? v) && (v <=? 1))%float then v else 0%float.

(** ** Definitions of the further properties *)

(** A function applied to every character of a string. *)
Fixpoint map_string (f : ascii -> ascii) (s : string) : string :=
  match s with
  | EmptyString => EmptyString
  | String c s' => String (f c) (map_string f s')
  end.

(** The ASCII letters lowered, respectively raised; the other characters
    are kept. *)
Definition ascii_lower (c : ascii) : ascii :=
  let n := N_of_ascii c in
  if ((65 <=? n) && (n <=? 90))%N then ascii_of_N (n + 32) else c.

Definition ascii_upper (c : ascii) : ascii :=
  let n := N_of_ascii c in
  if ((97 <=? n) && (n <=? 122))%N then ascii_of_N (n - 32) else c.

(** The upper-case hexadecimal digit of a value below 16. *)
Definition hex_char (d : Z) : ascii :=
  if d <? 10 then ascii_of_N (Z.to_N (48 + d)) else ascii_of_N (Z.to_N (55 + d)).

(** ['%02X' % v] for a channel [v]. *)
Definition to_hex2 (v : Z) : string :=
  String (hex_char (v / 16)) (String (hex_char (v mod 16)) EmptyString).

(** ['#%02X%02X%02X' % rgb], the inverse of [hex_to_rgb] on channels. *)
Definition to_hex (rgb : Z * Z * Z) : string :=
  let '(r, g, b) := rgb in
  String "#"%char (to_hex2 r ++ to_hex2 g ++ to_hex2 b).

(** What [int(_, 16)] returns for a string is between -15 and 255. *)
Definition int16_in_range (t : string) : bool :=
  match Py.int16 t with
  | Some v => (-15 <=? v) && (v <=? 255)
  | None => true
  end.

(** Equality of two results of [int(_, 16)]. *)
Definition option_Z_eqb (a b : option Z) : bool :=
  match a, b with
  | Some x, Some y => x =? y
  | None, None => true
  | _, _ => false
  end.

(** *** Enclosures under the accuracy assumption

    A [pow] that is within [eps] of the power is within [2 * eps] of
    [pow_12_5], itself within [eps] of the power.  [margin] is [2^-18],
    twice [2 * eps]. *)
Definition margin : float := 0x1p-18%float.

(** A lower and an upper bound of [transform c], computed without the C
    library: the value itself where [pow] is not called. *)
Definition transform_lo (c : Z) : float :=
  if is_linear c then (normalized c / 12.92)%float
  else if (base c =? 1)%float then 1%float
  else let p := pow_12_5 (base c) 2.4 in
       if (p <? margin)%float then 0%float else (p - margin)%float.

Definition transform_hi (c : Z) : float :=
  if is_linear c then (normalized c / 12.92)%float
  else if (base c =? 1)%float then 1%float
  else (pow_12_5 (base c) 2.4 + margin)%float.

(** What makes the two bounds an enclosure, as a test. *)
Definition enclosure_ok (c : Z) : bool :=
  usable (transform_lo c) (transform_hi c) && (transform_lo c <=? big)%float
  && (transform_hi c <=? 2)%float
  && (is_linear c || (base c =? 1)%float
      || ((11 <=? c) && (c <=? 254)
          && Qle_bool (F2Q (transform_lo c))
               (F2Q (pow_12_5 (base c) 2.4) - 2 * eps)
          && Qle_bool (F2Q (pow_12_5 (base c) 2.4) + 2 * eps)
               (F2Q (transform_hi c)))).

(** The upper bound of a channel is below the lower bound of the next. *)
Definition step_ok (c : Z) : bool :=
  (c =? 255) || (transform_hi c <? transform_lo (c + 1))%float.

(** The bounds of the luminance of a colour. *)
Definition lum_lo (rgb : Z * Z * Z) : float :=
  let '(r, g, b) := rgb in
  weighted_sum (transform_lo r) (transform_lo g) (transform_lo b).

Definition lum_hi (rgb : Z * Z * Z) : float :=
  let '(r, g, b) := rgb in
  weighted_sum (transform_hi r) (transform_hi g) (transform_hi b).

Definition is_channel (c : Z) : bool := (0 <=? c) && (c <=? 255).

(** The side conditions of the enclosure of a luminance, as a test. *)
Definition lum_usable (rgb : Z * Z * Z) : bool :=
  let '(r, g, b) := rgb in
  is_channel r && is_channel g && is_channel b
  && weighted_sum_usable (transform_lo r) (transform_hi r)
       (transform_lo g) (transform_hi g) (transform_lo b) (transform_hi b)
  && (lum_hi rgb <=? 1)%float.

(** The bounds of the ratio of a darker colour [rgb1] and a lighter one
    [rgb2]. *)
Definition ratio_lo (rgb1 rgb2 : Z * Z * Z) : float :=
  ((lum_lo rgb2 + 0.05) / (lum_hi rgb1 + 0.05))%float.

Definition ratio_hi (rgb1 rgb2 : Z * Z * Z) : float :=
  ((lum_hi rgb2 + 0.05) / (lum_lo rgb1 + 0.05))%float.

(** The side conditions of the enclosure of a ratio, as a test. *)
Definition ratio_usable (rgb1 rgb2 : Z * Z * Z) : bool :=
  lum_usable rgb1 && lum_usable rgb2
  && (lum_hi rgb1 <=? lum_lo rgb2)%float
  && usable (lum_lo rgb1) (lum_hi rgb1) && usable (lum_lo rgb2) (lum_hi rgb2)
  && usable (lum_lo rgb1 + 0.05) (lum_hi rgb1 + 0.05)
  && usable (lum_lo rgb2 + 0.05) (lum_hi rgb2 + 0.05)
  && (small <=? lum_lo rgb1 + 0.05)%float
  && usable (ratio_lo rgb1 rgb2) (ratio_hi rgb1 rgb2)
  && (ratio_lo rgb1 rgb2 <=? big)%float.

(** The answer of [check_compliance] when the enclosure of the ratio
    decides it, [rgb1] being the darker colour. *)
Definition verdict (rgb1 rgb2 : Z * Z * Z) (t : float) : option bool :=
  if ratio_usable rgb1 rgb2 then
    if (t <=? ratio_lo rgb1 rgb2)%float then Some true
    else if (ratio_hi rgb1 rgb2 <? t)%float then Some false
    else None
  else None.

(** The same on two strings, in either order of luminance. *)
Definition verdict_of (fg bg : string) (t : float) : option bool :=
  match hex_to_rgb fg, hex_to_rgb bg with
  | Some a, Some b =>
      match verdict a b t with
      | Some v => Some v
      | None => verdict b a t
      end
  | _, _ => None
  end.

(** ** Enumeration of the characters *)

Lemma all_ascii_complete (c : ascii) : In c all_ascii.
Proof.
  unfold all_ascii. rewrite <- (ascii_nat_embedding c).
  apply in_map, in_seq. pose proof (nat_ascii_bounded c). lia.
Qed.

(** A boolean property checked on every character holds of each. *)
Lemma forall_ascii (P : ascii -> bool) :
  forallb P all_ascii = true -> forall c, P c = true.
Proof.
  intros H c. rewrite forallb_forall in H. apply H, all_ascii_complete.
Qed.

Lemma forall_ascii2 (P : ascii -> ascii -> bool) :
  forallb (fun a => forallb (P a) all_ascii) all_ascii = true ->
  forall a b, P a b = true.
Proof.
  intros H a b.
  apply (forall_ascii (P a)).
  apply (forall_ascii (fun a => forallb (P a) all_ascii) H).
Qed.

(** ** The built-ins on well-formed input *)

Lemma int16_two_digits (a b : ascii) :
  is_hex_digit a = true -> is_hex_digit b = true ->
  Py.int16 (String a (String b EmptyString))
  = Some (16 * digit_value a + digit_value b).
Proof.
  intros Ha Hb.
  pose proof (forall_ascii2
    (fun a b =>
       implb (is_hex_digit a && is_hex_digit b)
         match Py.int16 (String a (String b EmptyString)) with
         | Some v => Z.eqb v (16 * digit_value a + digit_value b)
         | None => false
         end)) as H.
  specialize (H ltac:(vm_compute; reflexivity) a b).
  cbv beta in H. rewrite Ha, Hb in H. cbn [andb implb] in H.
  destruct (Py.int16 _) as [v|]; [|discriminate].
  apply Z.eqb_eq in H. now subst.
Qed.

Lemma digit_value_range (c : ascii) : 0 <= digit_value c <= 15.
Proof.
  pose proof (forall_ascii
    (fun c => (0 <=? digit_value c) && (digit_value c <=? 15))
    ltac:(vm_compute; reflexivity) c) as H.
  cbv beta in H. apply andb_true_iff in H. lia.
Qed.

Lemma hex_digit_not_hash (c : ascii) :
  is_hex_digit c = true -> Ascii.eqb c "#"%char = false.
Proof.
  pose proof (forall_ascii
    (fun c => implb (is_hex_digit c) (negb (Ascii.eqb c "#"%char)))
    ltac:(vm_compute; reflexivity) c) as H.
  cbv beta in H. intros Hc. rewrite Hc in H. cbn in H.
  now apply negb_true_iff in H.
Qed.

(** ** [hex_to_rgb] on well-formed colours *)

Lemma lstrip_no_hash (s : string) :
  match s with
  | String c _ => Ascii.eqb c "#"%char = false
  | EmptyString => True
  end ->
  Py.lstrip "#"%char s = s.
Proof. destruct s as [|c s]; cbn; [reflexivity | now intros ->]. Qed.

(** A string of six hexadecimal digits, taken apart. *)
Lemma six_hex_digits_inv (s : string) :
  six_hex_digits s = true ->
  exists a b c d e f,
    s = String a (String b (String c (String d (String e (String f EmptyString)))))
    /\ is_hex_digit a = true /\ is_hex_digit b = true
    /\ is_hex_digit c = true /\ is_hex_digit d = true
    /\ is_hex_digit e = true /\ is_hex_digit f = true.
Proof.
  unfold six_hex_digits. intros H. apply andb_true_iff in H as [Hlen Hhex].
  apply Nat.eqb_eq in Hlen.
  do 6 (destruct s as [|? s]; [discriminate Hlen|]).
  destruct s; [|discriminate Hlen].
  cbn in Hhex. repeat (apply andb_true_iff in Hhex as [? Hhex]).
  repeat eexists; eauto.
Qed.

Lemma lstrip_six_hex_digits (s : string) :
  six_hex_digits (strip_optional_hash s) = true ->
  Py.lstrip "#"%char s = strip_optional_hash s.
Proof.
  intros H.
  assert (Hs : Py.lstrip "#"%char (strip_optional_hash s) = strip_optional_hash s).
  { apply six_hex_digits_inv in H as (a & b & c & d & e & f & -> & Ha & _).
    apply lstrip_no_hash. now apply hex_digit_not_hash. }
  destruct s as [|c s]; [reflexivity|].
  cbn in *. destruct (Ascii.eqb c "#"%char) eqn:E; [exact Hs | reflexivity].
Qed.

(** On six hexadecimal digits the three slices are the three pairs of
    digits and each pair is read in base 16. *)
Lemma hex_to_rgb_six_hex_digits (s : string) :
  six_hex_digits (strip_optional_hash s) = true ->
  exists a b c d e f,
    strip_optional_hash s
    = String a (String b (String c (String d (String e (String f EmptyString)))))
    /\ hex_to_rgb s
       = Some (16 * digit_value a + digit_value b,
               16 * digit_value c + digit_value d,
               16 * digit_value e + digit_value f).
Proof.
  intros H. pose proof (lstrip_six_hex_digits s H) as Hl.
  apply six_hex_digits_inv in H
    as (a & b & c & d & e & f & Hs & Ha & Hb & Hc & Hd & He & Hf).
  exists a, b, c, d, e, f. split; [exact Hs|].
  unfold hex_to_rgb. rewrite Hl, Hs. cbn [Py.slice Py.take Py.drop Nat.sub].
  now rewrite !int16_two_digits by assumption.
Qed.

Lemma hex_to_rgb_channels_in_range (s : string) (r g b : Z) :
  six_hex_digits (strip_optional_hash s) = true ->
  hex_to_rgb s = Some (r, g, b) ->
  0 <= r <= 255 /\ 0 <= g <= 255 /\ 0 <= b <= 255.
Proof.
  intros H E.
  destruct (hex_to_rgb_six_hex_digits s H) as (c1 & c2 & c3 & c4 & c5 & c6 & _ & E').
  rewrite E' in E.
  assert (r = 16 * digit_value c1 + digit_value c2
          /\ g = 16 * digit_value c3 + digit_value c4
          /\ b = 16 * digit_value c5 + digit_value c6) as (-> & -> & ->)
    by (repeat split; congruence).
  pose proof (digit_value_range c1). pose proof (digit_value_range c2).
  pose proof (digit_value_range c3). pose proof (digit_value_range c4).
  pose proof (digit_value_range c5). pose proof (digit_value_range c6).
  lia.
Qed.

(** The result only depends on the first six characters that follow
    the leading [#] characters. *)
Lemma slice_take (i j n : nat) (s : string) :
  (j <= n)%nat -> Py.slice i j (Py.take n s) = Py.slice i j s.
Proof.
  unfold Py.slice. revert j n s.
  induction i as [|i IH]; intros j n s Hj.
  - cbn. rewrite Nat.sub_0_r. revert n s Hj.
    induction j as [|j IHj]; intros n s Hj; [now destruct n, s|].
    destruct n as [|n]; [lia|]. destruct s as [|c s]; [reflexivity|].
    cbn. f_equal. apply IHj. lia.
  - destruct n as [|n].
    + assert (j - S i = 0)%nat as -> by lia. now destruct s.
    + destruct s as [|c s]; [reflexivity|].
      destruct j as [|j]; [now destruct (Py.take n s), s|].
      cbn [Py.take Py.drop]. replace (S j - S i)%nat with (j - i)%nat by lia.
      apply IH. lia.
Qed.

Lemma lstrip_idempotent (ch : ascii) (s : string) :
  Py.lstrip ch (Py.lstrip ch s) = Py.lstrip ch s.
Proof.
  induction s as [|c s IH]; [reflexivity|].
  cbn. destruct (Ascii.eqb c ch) eqn:E; [exact IH|]. cbn. now rewrite E.
Qed.

Lemma lstrip_take (ch : ascii) (n : nat) (s : string) :
  Py.lstrip ch (Py.take n (Py.lstrip ch s)) = Py.take n (Py.lstrip ch s).
Proof.
  induction s as [|c s IH]; [now destruct n|].
  cbn. destruct (Ascii.eqb c ch) eqn:E; [exact IH|].
  destruct n as [|n]; [reflexivity|]. cbn. now rewrite E.
Qed.

Lemma hex_to_rgb_first_six (s : string) :
  hex_to_rgb s = hex_to_rgb (Py.take 6 (Py.lstrip "#"%char s)).
Proof.
  unfold hex_to_rgb. rewrite lstrip_take.
  now rewrite !slice_take by lia.
Qed.

(** * The claims about [hex_to_rgb] *)

(** C1, as stated, is false: ["#12345"] has five digits and is not
    rejected, the last slice being the single digit ["5"]. *)
Lemma hex_to_rgb_accepts_five_digits :
  hex_to_rgb "#12345" = Some (18, 52, 5)
  /\ ~ fails_exactly_on_malformed "#12345".
Proof.
  split; [vm_compute; reflexivity|].
  intros [_ H]. specialize (H ltac:(vm_compute; reflexivity)).
  vm_compute in H. discriminate H.
Qed.

(** C1, amended.  [hex_to_rgb] fails exactly when [int(_, 16)] rejects
    one of the slices [0:2], [2:4], [4:6] of the input stripped of its
    leading [#] characters.  So it fails only on inputs that are not six
    hexadecimal digits after an optional [#], and a well-formed input
    yields three channels in [0, 255]; it fails on ["#GGGGGG"] and on the
    empty string.  The function reads its argument and nothing else: it
    is a function of the input string. *)
Theorem hex_to_rgb_failure (s : string) :
  hex_to_rgb s = None ->
  (exists i, In i [0; 2; 4]%nat
             /\ Py.int16 (Py.slice i (i + 2) (Py.lstrip "#"%char s)) = None)
  /\ six_hex_digits (strip_optional_hash s) = false
  /\ (forall t, six_hex_digits (strip_optional_hash t) = true ->
       exists r g b, hex_to_rgb t = Some (r, g, b)
                     /\ 0 <= r <= 255 /\ 0 <= g <= 255 /\ 0 <= b <= 255)
  /\ (forall t i, In i [0; 2; 4]%nat ->
       Py.int16 (Py.slice i (i + 2) (Py.lstrip "#"%char t)) = None ->
       hex_to_rgb t = None)
  /\ hex_to_rgb "#GGGGGG" = None
  /\ hex_to_rgb "" = None.
Proof.
  intros Hs. repeat split.
  - unfold hex_to_rgb in Hs.
    destruct (Py.int16 (Py.slice 0 2 _)) eqn:E0;
      [|exists 0%nat; split; [cbn; tauto | exact E0]].
    destruct (Py.int16 (Py.slice 2 4 _)) eqn:E2;
      [|exists 2%nat; split; [cbn; tauto | exact E2]].
    destruct (Py.int16 (Py.slice 4 6 _)) eqn:E4;
      [discriminate Hs|exists 4%nat; split; [cbn; tauto | exact E4]].
  - destruct (six_hex_digits (strip_optional_hash s)) eqn:E; [|reflexivity].
    destruct (hex_to_rgb_six_hex_digits s E) as (? & ? & ? & ? & ? & ? & _ & E').
    congruence.
  - intros t Ht.
    destruct (hex_to_rgb_six_hex_digits t Ht)
      as (c1 & c2 & c3 & c4 & c5 & c6 & _ & E').
    do 3 eexists. split; [exact E'|].
    exact (hex_to_rgb_channels_in_range t _ _ _ Ht E').
  - intros t i Hi E. unfold hex_to_rgb.
    cbn in Hi. destruct Hi as [<-|[<-|[<-|[]]]]; cbn [Nat.add] in E.
    + now rewrite E.
    + rewrite E. now destruct (Py.int16 (Py.slice 0 2 _)).
    + rewrite E. destruct (Py.int16 (Py.slice 0 2 _)); [|reflexivity].
      now destruct (Py.int16 (Py.slice 2 4 _)).
Qed.

Lemma hex_to_rgb_failure_witness :
  six_hex_digits (strip_optional_hash "#GGGGGG") = false.
Proof.
  exact (proj1 (proj2 (hex_to_rgb_failure "#GGGGGG" eq_refl))).
Defined.

(** C8.  ["#1565C0"] is split into ["15"], ["65"] and ["C0"], the slices
    at offsets 0, 2 and 4 of the string without its [#], and each is read
    in base 16: the result is [(21, 101, 192)]. *)
Theorem hex_to_rgb_1565C0 :
  hex_to_rgb "#1565C0" = Some (21, 101, 192)
  /\ (21, 101, 192) = (0x15, 0x65, 0xC0)
  /\ map (fun i => Py.slice i (i + 2) (Py.lstrip "#"%char "#1565C0"))
       [0; 2; 4]%nat
     = ["15"; "65"; "C0"]%string
  /\ map Py.int16 ["15"; "65"; "C0"]%string = [Some 21; Some 101; Some 192].
Proof. repeat split; vm_compute; reflexivity. Qed.

(** C10.  [hex_to_rgb] accepts inputs outside the six-digit format.  Its
    result is that of the first six characters after all the leading [#]
    characters: every leading [#] is stripped, and what follows the sixth
    character is ignored.  A shorter string is accepted when its slices
    are numbers: ["12345"] gives [(18, 52, 5)], the last slice being one
    digit, although it is not six hexadecimal digits. *)
Theorem hex_to_rgb_lenient :
  (forall s, hex_to_rgb s = hex_to_rgb (Py.take 6 (Py.lstrip "#"%char s)))
  /\ (forall s, hex_to_rgb (String "#"%char s) = hex_to_rgb s)
  /\ hex_to_rgb "###1565C0" = Some (21, 101, 192)
  /\ hex_to_rgb "1565C0FF" = Some (21, 101, 192)
  /\ hex_to_rgb "1565C0 and more" = Some (21, 101, 192)
  /\ hex_to_rgb "12345" = Some (18, 52, 5)
  /\ six_hex_digits (strip_optional_hash "12345") = false
  /\ six_hex_digits (strip_optional_hash "1565C0FF") = false
  /\ six_hex_digits (strip_optional_hash "###1565C0") = false.
Proof.
  split; [exact hex_to_rgb_first_six|].
  split; [reflexivity|].
  repeat split; vm_compute; reflexivity.
Qed.

(** * The claims about fixed colours *)

(** C6.  White has luminance [1.0] and black [0.0], exactly, and the
    ratio of black and white is [21.0], the largest ratio, hence within
    [1e-6] of it: [(1.0 + 0.05) / (0.0 + 0.05)] is [21.0] in binary64.
    This holds whatever the C library's [pow] returns, which is not
    called on a base of [1.0]. *)
Theorem black_and_white (libm_pow : float -> float -> float) :
  luminance libm_pow (255, 255, 255) = 1%float
  /\ luminance libm_pow (0, 0, 0) = 0%float
  /\ (luminance libm_pow (255, 255, 255)%Z =? 1.0)%float = true
  /\ (luminance libm_pow (0, 0, 0)%Z =? 0.0)%float = true
  /\ contrast_ratio libm_pow "#000000" "#FFFFFF" = Some 21%float
  /\ match contrast_ratio libm_pow "#000000" "#FFFFFF" with
     | Some ratio => (abs (ratio - 21.0) <=? 1e-6)%float
     | None => false
     end = true
  /\ ((1.0 + 0.05) / (0.0 + 0.05))%float = 21%float.
Proof. repeat split; vm_compute; reflexivity. Qed.

(** * Binary64 arithmetic on non-negative numbers *)

(** ** The rounding of the kernel's specification, on integers *)

(** The number of binary digits of a mantissa. *)
Lemma digits2_pos_size (m : positive) : digits2_pos m = Pos.size m.
Proof. induction m; cbn; congruence. Qed.

Lemma digits2_bounds (m : positive) :
  2 ^ (Zpos (digits2_pos m) - 1) <= Zpos m < 2 ^ Zpos (digits2_pos m).
Proof.
  induction m as [m IH|m IH|].
  - cbn [digits2_pos]. rewrite Pos2Z.inj_succ.
    replace (Z.succ (Zpos (digits2_pos m)) - 1) with (Z.succ (Zpos (digits2_pos m) - 1)) by lia.
    rewrite !Z.pow_succ_r by lia. lia.
  - cbn [digits2_pos]. rewrite Pos2Z.inj_succ.
    replace (Z.succ (Zpos (digits2_pos m)) - 1) with (Z.succ (Zpos (digits2_pos m) - 1)) by lia.
    rewrite !Z.pow_succ_r by lia. lia.
  - cbn. lia.
Qed.

Lemma shr_1_inv mrs N D : rec_inv mrs N D -> rec_inv (shr_1 mrs) N (2 * D).
Proof.
  destruct mrs as [m r s]. unfold rec_inv, loc_inv. cbn [shr_m].
  intros (HD & Hm & H).
  destruct m as [|[p|p|]|p]; try lia;
    destruct r, s; cbn [shr_1 shr_m loc_of_shr_record orb] in *;
    cmp_hyps; repeat split; try lia; cmp_goal; lia.
Qed.

Lemma shr_1_m mrs : 0 <= shr_m mrs -> shr_m (shr_1 mrs) = shr_m mrs / 2.
Proof.
  destruct mrs as [m r s]. cbn [shr_m]. intros Hm.
  destruct m as [|[p|p|]|p]; try lia; cbn [shr_1 shr_m].
  - reflexivity.
  - apply Z.div_unique with (r := 1); lia.
  - apply Z.div_unique with (r := 0); lia.
  - reflexivity.
Qed.

Lemma pow2_xI (p : positive) : 2 ^ Zpos p~1 = 2 ^ Zpos p * (2 ^ Zpos p * 2).
Proof.
  replace (Z.pos p~1) with (Z.pos p + Z.pos p + 1) by lia.
  rewrite !Z.pow_add_r by lia. rewrite Z.pow_1_r. ring.
Qed.

Lemma pow2_xO (p : positive) : 2 ^ Zpos p~0 = 2 ^ Zpos p * 2 ^ Zpos p.
Proof.
  replace (Z.pos p~0) with (Z.pos p + Z.pos p) by lia.
  now rewrite !Z.pow_add_r by lia.
Qed.

Lemma iter_pos_shr_1_inv (p : positive) mrs N D :
  rec_inv mrs N D -> rec_inv (iter_pos shr_1 p mrs) N (2 ^ Zpos p * D).
Proof.
  revert mrs D. induction p as [p IH|p IH|]; intros mrs D H; cbn [iter_pos].
  - apply shr_1_inv in H. apply IH in H. apply IH in H.
    rewrite pow2_xI.
    replace (2 ^ Z.pos p * (2 ^ Z.pos p * 2) * D)
      with (2 ^ Z.pos p * (2 ^ Z.pos p * (2 * D))) by ring.
    exact H.
  - apply IH in H. apply IH in H. rewrite pow2_xO.
    replace (2 ^ Z.pos p * 2 ^ Z.pos p * D)
      with (2 ^ Z.pos p * (2 ^ Z.pos p * D)) by ring.
    exact H.
  - apply shr_1_inv in H. exact H.
Qed.

Lemma rec_inv_m_nonneg mrs N D : rec_inv mrs N D -> 0 <= shr_m mrs.
Proof. intros (_ & H & _). exact H. Qed.

Lemma iter_pos_shr_1_m (p : positive) mrs :
  0 <= shr_m mrs -> shr_m (iter_pos shr_1 p mrs) = shr_m mrs / 2 ^ Zpos p.
Proof.
  revert mrs. induction p as [p IH|p IH|]; intros mrs H; cbn [iter_pos].
  - assert (H1 : 0 <= shr_m (shr_1 mrs)).
    { rewrite shr_1_m by exact H. apply Z.div_pos; lia. }
    assert (H2 : 0 <= shr_m (iter_pos shr_1 p (shr_1 mrs))).
    { rewrite IH by exact H1. apply Z.div_pos; [exact H1|]. apply Z.pow_pos_nonneg; lia. }
    rewrite IH by exact H2. rewrite IH by exact H1. rewrite shr_1_m by exact H.
    pose proof (Z.pow_pos_nonneg 2 (Zpos p) ltac:(lia) ltac:(lia)).
    rewrite pow2_xI. rewrite !Z.div_div by lia.
    f_equal. ring.
  - assert (H2 : 0 <= shr_m (iter_pos shr_1 p mrs)).
    { rewrite IH by exact H. apply Z.div_pos; [exact H|]. apply Z.pow_pos_nonneg; lia. }
    rewrite IH by exact H2. rewrite IH by exact H. rewrite pow2_xO.
    pose proof (Z.pow_pos_nonneg 2 (Zpos p) ltac:(lia) ltac:(lia)).
    rewrite Z.div_div by lia. reflexivity.
  - rewrite shr_1_m by exact H. reflexivity.
Qed.

Lemma shr_record_of_loc_m m l : shr_m (shr_record_of_loc m l) = m.
Proof. destruct l as [|[]]; reflexivity. Qed.

Lemma loc_of_shr_record_of_loc m l :
  loc_of_shr_record (shr_record_of_loc m l) = l.
Proof. destruct l as [|[]]; reflexivity. Qed.

Lemma shr_record_of_loc_inv m l N D :
  loc_inv m l N D -> rec_inv (shr_record_of_loc m l) N D.
Proof.
  unfold rec_inv. now rewrite shr_record_of_loc_m, loc_of_shr_record_of_loc.
Qed.

Lemma round_nearest_even_spec m l N D :
  loc_inv m l N D ->
  let m' := round_nearest_even m l in
  m <= m' <= m + 1 /\ m * D <= N < (m + 1) * D /\ nearest_even m' N D.
Proof.
  intros (HD & Hm & H). cbn zeta. unfold nearest_even.
  destruct l as [|[]]; cbn [round_nearest_even]; cbv beta iota in H; cmp_hyps;
    try destruct (Z.even m) eqn:Ev;
    (split; [lia|]); (split; [lia|]); (split; [lia|]); intros [E|E];
    try reflexivity; try lia.
  - exact Ev.
  - rewrite Z.even_add, Ev. reflexivity.
Qed.

Lemma fexp64 (x : Z) : fexp prec emax x = Z.max (x - 53) (-1074).
Proof. reflexivity. Qed.

Lemma Zdigits2_nonneg (m : Z) : 0 <= Zdigits2 m.
Proof. destruct m; cbn; lia. Qed.

Lemma Zdigits2_upper (m : Z) : 0 <= m -> m < 2 ^ Zdigits2 m.
Proof.
  destruct m as [|p|p]; intros H; try lia.
  - cbn. lia.
  - cbn [Zdigits2]. apply digits2_bounds.
Qed.

Lemma Zdigits2_lower (m : Z) : 0 < m -> 2 ^ (Zdigits2 m - 1) <= m.
Proof.
  destruct m as [|p|p]; intros H; try lia.
  cbn [Zdigits2]. apply digits2_bounds.
Qed.

Lemma Zdigits2_le (m : Z) (d : Z) : 0 <= d -> 0 <= m < 2 ^ d -> Zdigits2 m <= d.
Proof.
  intros Hd [H0 H1].
  destruct (Z.eq_dec m 0) as [->|Hm]; [cbn; lia|].
  pose proof (Zdigits2_lower m ltac:(lia)) as Hl.
  pose proof (Zdigits2_nonneg m) as Hn.
  destruct (Z.le_gt_cases (Zdigits2 m) d) as [|Hgt]; [assumption|exfalso].
  assert (2 ^ d <= 2 ^ (Zdigits2 m - 1)) by (apply Z.pow_le_mono_r; lia).
  lia.
Qed.

Lemma shr_fexp_spec (m e : Z) (l : location) (N D : Z) :
  loc_inv m l N D ->
  e <= fexp prec emax (Zdigits2 m + e) ->
  let e1 := fexp prec emax (Zdigits2 m + e) in
  exists mrs,
    shr_fexp prec emax m e l = (mrs, e1)
    /\ rec_inv mrs N (2 ^ (e1 - e) * D)
    /\ shr_m mrs = m / 2 ^ (e1 - e).
Proof.
  intros Hinv He e1. unfold shr_fexp, shr. fold e1.
  pose proof (shr_record_of_loc_inv m l N D Hinv) as Hrec.
  assert (Hm : 0 <= m) by apply Hinv.
  destruct (e1 - e) as [|p|p] eqn:En; try lia.
  - exists (shr_record_of_loc m l). split; [|split].
    + f_equal. lia.
    + cbn [Z.pow]. now replace (1 * D) with D by ring.
    + rewrite shr_record_of_loc_m. cbn [Z.pow]. now rewrite Z.div_1_r.
  - exists (iter_pos shr_1 p (shr_record_of_loc m l)). split; [|split].
    + f_equal. lia.
    + apply (iter_pos_shr_1_inv p _ _ _ Hrec).
    + rewrite iter_pos_shr_1_m; rewrite shr_record_of_loc_m; [reflexivity|exact Hm].
Qed.

Lemma binary_round_aux_spec (mx ex : Z) (lx : location) (N D : Z) :
  loc_inv mx lx N D ->
  ex <= fexp prec emax (Zdigits2 mx + ex) ->
  let e1 := fexp prec emax (Zdigits2 mx + ex) in
  e1 <= 970 ->
  exists m,
    0 <= m <= 2 ^ 53
    /\ nearest_even m N (2 ^ (e1 - ex) * D)
    /\ (-1074 < e1 -> 2 ^ 52 * (2 ^ (e1 - ex) * D) <= N)
    /\ N < 2 ^ 53 * (2 ^ (e1 - ex) * D)
    /\ binary_round_aux prec emax false mx ex lx = round_result m e1.
Proof.
  intros Hinv He e1 Hov.
  destruct (shr_fexp_spec mx ex lx N D Hinv He) as (mrs & E1 & Hrec & Hm').
  fold e1 in E1, Hrec, Hm'.
  assert (Hmx : 0 <= mx) by apply Hinv.
  assert (He1 : -1074 <= e1) by (unfold e1; rewrite fexp64; lia).
  assert (Hn : 0 <= e1 - ex) by lia.
  pose proof (Z.pow_pos_nonneg 2 (e1 - ex) ltac:(lia) Hn) as Hpow.
  destruct (round_nearest_even_spec _ _ _ _ Hrec) as (Hr1 & Hr3 & Hr2).
  assert (HD' : 0 < 2 ^ (e1 - ex) * D) by apply Hrec.
  set (m' := shr_m mrs) in *.
  set (m := round_nearest_even m' (loc_of_shr_record mrs)) in *.
  assert (Hm'0 : 0 <= m') by (apply (rec_inv_m_nonneg _ _ _ Hrec)).
  assert (Hm'53 : m' < 2 ^ 53).
  { rewrite Hm'. apply Z.div_lt_upper_bound; [exact Hpow|].
    rewrite <- Z.pow_add_r by lia.
    pose proof (Zdigits2_upper mx Hmx) as Hu.
    pose proof (Zdigits2_nonneg mx) as Hd.
    assert (2 ^ Zdigits2 mx <= 2 ^ (e1 - ex + 53)); [|lia].
    apply Z.pow_le_mono_r; [lia|]. unfold e1 in *. rewrite fexp64 in *. lia. }
  assert (Hm'52 : -1074 < e1 -> 2 ^ 52 <= m').
  { intros Hgt. rewrite Hm'.
    assert (Hd : e1 = Zdigits2 mx + ex - 53) by (unfold e1 in *; rewrite fexp64 in *; lia).
    assert (Hpos : 0 < mx).
    { destruct (Z.eq_dec mx 0) as [->|]; [|lia]. cbn in Hd. unfold e1 in *.
      rewrite fexp64 in *. cbn in He. lia. }
    pose proof (Zdigits2_lower mx Hpos) as Hl.
    apply Z.div_le_lower_bound; [exact Hpow|].
    rewrite <- Z.pow_add_r by lia.
    replace (e1 - ex + 52) with (Zdigits2 mx - 1) by lia. exact Hl. }
  exists m. split; [lia|]. split; [exact Hr2|].
  split.
  { intros Hgt. specialize (Hm'52 Hgt).
    apply Z.le_trans with (m' * (2 ^ (e1 - ex) * D)); [|lia].
    apply Z.mul_le_mono_nonneg_r; lia. }
  split.
  { apply Z.lt_le_trans with ((m' + 1) * (2 ^ (e1 - ex) * D)); [lia|].
    apply Z.mul_le_mono_nonneg_r; lia. }
  unfold binary_round_aux. rewrite E1. fold m' m.
  unfold round_result, shr_fexp, shr.
  destruct (Z.eqb_spec m (2 ^ 53)) as [Em|Em].
  - rewrite Em. replace (2 ^ 53 =? 0) with false by reflexivity.
    replace (Zdigits2 (2 ^ 53)) with 54 by reflexivity.
    rewrite fexp64. replace (Z.max (54 + e1 - 53) (-1074) - e1) with 1 by lia.
    cbn [iter_pos shr_record_of_loc]. 
    replace (2 ^ 53) with (Zpos (xO (Z.to_pos (2 ^ 52)))) by reflexivity.
    cbn [shr_1 shr_m].
    replace (e1 + 1 <=? emax - prec) with true; [reflexivity|].
    symmetry. apply Z.leb_le. change (emax - prec) with 971. lia.
  - assert (Hlt : m < 2 ^ 53) by lia.
    pose proof (Zdigits2_le m 53 ltac:(lia) ltac:(lia)) as Hdm.
    pose proof (Zdigits2_nonneg m) as Hdm0.
    rewrite fexp64.
    destruct (Z.max (Zdigits2 m + e1 - 53) (-1074) - e1) as [|p|p] eqn:En; try lia.
    all: rewrite shr_record_of_loc_m; clearbody m; clear - Em Hr1 Hm'0 Hov He1.
    all: destruct m as [|q|q]; [reflexivity| |lia].
    all: replace (Z.pos q =? 0) with false by reflexivity; cbn [Z.to_pos].
    all: replace (e1 <=? emax - prec) with true; [reflexivity|].
    all: symmetry; apply Z.leb_le; change (emax - prec) with 971; lia.
Qed.

(** ** Rounding as a function of the exact value *)

Section RoundingValues.

#[local] Open Scope Q_scope.

Lemma pow2_pos (e : Z) : 0 < pow2 e.
Proof. apply Qpower_0_lt. reflexivity. Qed.

Lemma pow2_add (a b : Z) : pow2 (a + b) == pow2 a * pow2 b.
Proof. apply Qpower_plus. discriminate. Qed.

Lemma pow2_succ (e : Z) : pow2 (e + 1) == 2 * pow2 e.
Proof. rewrite pow2_add. change (pow2 1) with 2. ring. Qed.

Lemma pow2_le (a b : Z) : (a <= b)%Z -> pow2 a <= pow2 b.
Proof. intros H. apply Qpower_le_compat_l; [exact H|discriminate]. Qed.

Lemma pow2_lt_twice (a b : Z) : (a < b)%Z -> 2 * pow2 a <= pow2 b.
Proof. intros H. rewrite <- pow2_succ. apply pow2_le. lia. Qed.

Lemma pow2_nonneg_inject (n : Z) : (0 <= n)%Z -> pow2 n == inject_Z (2 ^ n).
Proof. intros H. unfold pow2. now rewrite Zpower_Qpower. Qed.

Lemma inject_Z_le_inv (a b : Z) : inject_Z a <= inject_Z b -> (a <= b)%Z.
Proof. now rewrite <- Zle_Qle. Qed.

Lemma inject_Z_2m1 (m : Z) : inject_Z (2 * m - 1) = 2 * inject_Z m - 1.
Proof.
  unfold Z.sub. rewrite inject_Z_plus, inject_Z_mult, inject_Z_opp. reflexivity.
Qed.

Lemma inject_Z_2p1 (m : Z) : inject_Z (2 * m + 1) = 2 * inject_Z m + 1.
Proof. rewrite inject_Z_plus, inject_Z_mult. reflexivity. Qed.

Lemma rounds_mant_upper x m e : Rounds x m e -> (m <= 2 ^ 53)%Z.
Proof.
  intros (_ & _ & H1 & H2 & _).
  pose proof (pow2_pos e) as Hu.
  assert (H : (2 * inject_Z m - 1) * pow2 e < (2 * inject_Z (2 ^ 53)) * pow2 e) by lra.
  apply Qmult_lt_r in H; [|exact Hu].
  assert (H' : inject_Z (2 * m - 1) < inject_Z (2 * 2 ^ 53)).
  { rewrite inject_Z_2m1, inject_Z_mult. exact H. }
  rewrite <- Zlt_Qlt in H'. lia.
Qed.

Lemma rounds_mant_lower x m e :
  Rounds x m e -> (-1074 < e)%Z -> (2 ^ 52 <= m)%Z.
Proof.
  intros (_ & H0 & _ & _ & H2 & _) He. specialize (H0 He).
  pose proof (pow2_pos e) as Hu.
  assert (H : (2 * inject_Z (2 ^ 52)) * pow2 e <= (2 * inject_Z m + 1) * pow2 e) by lra.
  apply Qmult_le_r in H; [|exact Hu].
  assert (H' : inject_Z (2 * 2 ^ 52) <= inject_Z (2 * m + 1)).
  { rewrite inject_Z_2p1, inject_Z_mult. exact H. }
  rewrite <- Zle_Qle in H'. lia.
Qed.

Lemma rounds_le x y m e m' e' :
  Rounds x m e -> Rounds y m' e' -> x <= y ->
  inject_Z m * pow2 e <= inject_Z m' * pow2 e'.
Proof.
  intros Hx Hy Hxy.
  pose proof (rounds_mant_upper _ _ _ Hx) as Hmu.
  pose proof (pow2_pos e) as Hu. pose proof (pow2_pos e') as Hu'.
  destruct (Z.lt_trichotomy e e') as [Hlt|[Heq|Hgt]].
  - assert (He' : (-1074 < e')%Z) by (destruct Hx; lia).
    pose proof (rounds_mant_lower _ _ _ Hy He') as Hml.
    pose proof (pow2_lt_twice _ _ Hlt) as Hp.
    rewrite Zle_Qle in Hmu, Hml.
    apply Qle_trans with (inject_Z (2 ^ 53) * pow2 e).
    { apply Qmult_le_compat_r; [exact Hmu|lra]. }
    apply Qle_trans with (inject_Z (2 ^ 52) * pow2 e').
    { change (inject_Z (2 ^ 53)) with (2 * inject_Z (2 ^ 52)).
      change (inject_Z (2 ^ 52)) with 4503599627370496. lra. }
    apply Qmult_le_compat_r; [exact Hml|lra].
  - subst e'.
    destruct Hx as (_ & _ & _ & Hx1 & Hx2 & Hx3).
    destruct Hy as (_ & _ & _ & Hy1 & Hy2 & Hy3).
    assert (H : (2 * inject_Z m - 1) * pow2 e <= (2 * inject_Z m' + 1) * pow2 e) by lra.
    apply Qmult_le_r in H; [|exact Hu].
    assert (H' : inject_Z (2 * m - 1) <= inject_Z (2 * m' + 1)).
    { rewrite inject_Z_2p1, inject_Z_2m1. exact H. }
    rewrite <- Zle_Qle in H'.
    destruct (Z.le_gt_cases m m') as [Hle|Hgt].
    { apply Qmult_le_compat_r; [now rewrite <- Zle_Qle|lra]. }
    assert (Em : m = (m' + 1)%Z) by lia. exfalso.
    assert (Ei : inject_Z m = inject_Z m' + 1).
    { rewrite Em, inject_Z_plus. reflexivity. }
    rewrite Ei in *.
    assert (E1 : Z.even m = true).
    { apply Hx3. left. 
      assert ((2 * (inject_Z m' + 1) - 1) * pow2 e == (2 * inject_Z m' + 1) * pow2 e) by ring.
      lra. }
    assert (E2 : Z.even m' = true).
    { apply Hy3. right.
      assert ((2 * (inject_Z m' + 1) - 1) * pow2 e == (2 * inject_Z m' + 1) * pow2 e) by ring.
      lra. }
    rewrite Em, Z.even_add, E2 in E1. discriminate E1.
  - exfalso.
    assert (He : (-1074 < e)%Z) by (destruct Hy; lia).
    destruct Hx as (_ & Hx0 & _). specialize (Hx0 He).
    destruct Hy as (_ & _ & Hy1 & _).
    pose proof (pow2_lt_twice _ _ Hgt) as Hp.
    change (inject_Z (2 ^ 53)) with (2 * inject_Z (2 ^ 52)) in Hy1.
    change (inject_Z (2 ^ 52)) with 4503599627370496 in *. lra.
Qed.

Lemma round_result_value (m e : Z) :
  (0 <= m)%Z -> SF2Q (round_result m e) == inject_Z m * pow2 e.
Proof.
  intros Hm. unfold round_result.
  destruct (Z.eqb_spec m 0) as [->|H0]; [cbn; ring|].
  destruct (Z.eqb_spec m (2 ^ 53)) as [->|H1].
  - cbn [SF2Q cond_Zopp]. rewrite pow2_succ.
    change (inject_Z (Z.pos (Z.to_pos (2 ^ 52)))) with 4503599627370496.
    change (inject_Z (2 ^ 53)) with 9007199254740992. ring.
  - cbn [SF2Q cond_Zopp]. rewrite Z2Pos.id by lia. reflexivity.
Qed.

Lemma round_result_nnf (m e : Z) : SFnnf (round_result m e).
Proof.
  unfold round_result. destruct (m =? 0)%Z; [exact I|].
  destruct (m =? 2 ^ 53)%Z; reflexivity.
Qed.

Lemma rounds_of_nearest (N D m e : Z) :
  (0 < D)%Z -> (-1074 <= e)%Z ->
  nearest_even m N D ->
  ((-1074 < e)%Z -> (2 ^ 52 * D <= N)%Z) ->
  (N < 2 ^ 53 * D)%Z ->
  Rounds (inject_Z N / inject_Z D * pow2 e) m e.
Proof.
  intros HD He [[Hn1 Hn2] Hn3] Hlo Hhi.
  pose proof (pow2_pos e) as Hu.
  assert (HDq : 0 < inject_Z D) by (change 0 with (inject_Z 0); now rewrite <- Zlt_Qlt).
  set (t := inject_Z N / inject_Z D).
  assert (Et : t * inject_Z D == inject_Z N).
  { unfold t. field. lra. }
  assert (Hle : forall a : Z, (a * D <= 2 * N)%Z -> inject_Z a <= 2 * t).
  { intros a Ha. rewrite Zle_Qle, !inject_Z_mult in Ha.
    change (inject_Z 2) with 2 in Ha. rewrite <- Et in Ha.
    apply Qmult_le_r with (z := inject_Z D); [exact HDq|]. lra. }
  assert (Hge : forall a : Z, (2 * N <= a * D)%Z -> 2 * t <= inject_Z a).
  { intros a Ha. rewrite Zle_Qle, !inject_Z_mult in Ha.
    change (inject_Z 2) with 2 in Ha. rewrite <- Et in Ha.
    apply Qmult_le_r with (z := inject_Z D); [exact HDq|]. lra. }
  assert (Heq : forall a : Z, 2 * t == inject_Z a -> (2 * N = a * D)%Z).
  { intros a Ha. apply inject_Z_injective. rewrite !inject_Z_mult.
    change (inject_Z 2) with 2. rewrite <- Et, <- Ha. ring. }
  repeat split.
  - exact He.
  - intros Hgt. specialize (Hlo Hgt).
    assert (inject_Z (2 * 2 ^ 52) <= 2 * t) by (apply Hle; lia).
    rewrite inject_Z_mult in H. change (inject_Z 2) with 2 in H.
    apply Qmult_le_compat_r; lra.
  - assert (H : 2 * t < inject_Z (2 * 2 ^ 53)).
    { apply Qmult_lt_r with (z := inject_Z D); [exact HDq|].
      rewrite <- Qmult_assoc, Et, <- inject_Z_mult.
      change 2 with (inject_Z 2). rewrite <- inject_Z_mult, <- Zlt_Qlt. lia. }
    rewrite inject_Z_mult in H. change (inject_Z 2) with 2 in H.
    apply Qmult_lt_compat_r; lra.
  - specialize (Hle _ Hn1). rewrite inject_Z_2m1 in Hle.
    setoid_replace (2 * (t * pow2 e)) with ((2 * t) * pow2 e) by ring.
    apply Qmult_le_compat_r; lra.
  - specialize (Hge _ Hn2). rewrite inject_Z_2p1 in Hge.
    setoid_replace (2 * (t * pow2 e)) with ((2 * t) * pow2 e) by ring.
    apply Qmult_le_compat_r; lra.
  - intros [E|E]; apply Hn3; [left|right].
    + apply Heq. rewrite inject_Z_2m1.
      apply Qmult_inj_r with (z := pow2 e); [lra|]. rewrite <- E. ring.
    + apply Heq. rewrite inject_Z_2p1.
      apply Qmult_inj_r with (z := pow2 e); [lra|]. rewrite <- E. ring.
Qed.

Lemma valid_finite_inv (s : bool) (m : positive) (e : Z) :
  valid_binary (S754_finite s m e) = true ->
  (-1074 <= e <= 971)%Z /\ (Zpos m < 2 ^ 53)%Z
  /\ ((-1074 < e)%Z -> (2 ^ 52 <= Zpos m)%Z)
  /\ fexp prec emax (Zpos (digits2_pos m) + e) = e.
Proof.
  cbn [SpecFloat.valid_binary]. unfold bounded, canonical_mantissa.
  intros H. apply andb_true_iff in H as [H1 H2].
  apply Z.eqb_eq in H1. apply Z.leb_le in H2. change (emax - prec)%Z with 971%Z in H2.
  pose proof (digits2_bounds m) as [Hl Hu].
  pose proof H1 as H1'. rewrite fexp64 in H1'.
  assert (Hd : (Zpos (digits2_pos m) <= 53)%Z) by lia.
  split; [lia|]. split; [|split].
  - apply Z.lt_le_trans with (1 := Hu). apply Z.pow_le_mono_r; lia.
  - intros Hgt. assert (Zpos (digits2_pos m) = 53%Z) as Ed by lia.
    rewrite Ed in Hl. exact Hl.
  - exact H1.
Qed.

Lemma inject_Z_pos_lt (a b : Z) : (a < b)%Z -> forall e, inject_Z a * pow2 e < inject_Z b * pow2 e.
Proof.
  intros H e. apply Qmult_lt_compat_r; [apply pow2_pos|]. now rewrite <- Zlt_Qlt.
Qed.

Lemma inject_Z_pos_le (a b : Z) : (a <= b)%Z -> forall e, inject_Z a * pow2 e <= inject_Z b * pow2 e.
Proof.
  intros H e. apply Qmult_le_compat_r; [|apply Qlt_le_weak, pow2_pos]. now rewrite <- Zle_Qle.
Qed.

Lemma float_rounds_self (f : spec_float) :
  valid_binary f = true -> SFnnf f ->
  exists m e, Rounds (SF2Q f) m e /\ SF2Q f == inject_Z m * pow2 e.
Proof.
  intros Hv Hn. destruct f as [s| |  |s m e]; try contradiction.
  - exists 0%Z, (-1074)%Z. pose proof (pow2_pos (-1074)) as Hu.
    cbn [SF2Q]. split; [|ring].
    split_rounds; change (inject_Z 0) with 0.
    + lia.
    + intros H; lia.
    + change (inject_Z (2 ^ 53)) with 9007199254740992. lra.
    + lra.
    + lra.
    + intros [E|E]; exfalso; lra.
  - cbn in Hn. subst s.
    destruct (valid_finite_inv _ _ _ Hv) as (He & Hm & Hlo & _).
    exists (Zpos m), e. cbn [SF2Q cond_Zopp]. split; [|reflexivity].
    pose proof (pow2_pos e) as Hu.
    assert (E1 : (2 * inject_Z (Z.pos m) - 1) * pow2 e
                 == 2 * (inject_Z (Z.pos m) * pow2 e) - pow2 e) by ring.
    assert (E2 : (2 * inject_Z (Z.pos m) + 1) * pow2 e
                 == 2 * (inject_Z (Z.pos m) * pow2 e) + pow2 e) by ring.
    split_rounds.
    + lia.
    + intros Hgt. apply inject_Z_pos_le. auto.
    + apply inject_Z_pos_lt. exact Hm.
    + lra.
    + lra.
    + intros [E|E]; exfalso; lra.
Qed.

Lemma SF2Q_nonneg (f : spec_float) : SFnnf f -> 0 <= SF2Q f.
Proof.
  destruct f as [s| |  |s m e]; cbn; try contradiction; try lra.
  intros ->. cbn. pose proof (pow2_pos e).
  apply Qmult_le_0_compat; [|lra]. change 0 with (inject_Z 0). now rewrite <- Zle_Qle.
Qed.

Lemma SF2Q_finite_pos (m : positive) (e : Z) : 0 < SF2Q (S754_finite false m e).
Proof.
  cbn. apply Qmult_lt_0_compat; [|apply pow2_pos].
  change 0 with (inject_Z 0). now rewrite <- Zlt_Qlt.
Qed.

(** Comparison of valid non-negative finite numbers is comparison of
    their values. *)
Lemma SFcompare_nnf (a b : spec_float) :
  valid_binary a = true -> valid_binary b = true -> SFnnf a -> SFnnf b ->
  match SFcompare a b with
  | Some Lt => SF2Q a < SF2Q b
  | Some Eq => SF2Q a == SF2Q b
  | Some Gt => SF2Q b < SF2Q a
  | None => False
  end.
Proof.
  intros Va Vb Na Nb.
  destruct a as [sa| |  |sa ma ea]; try contradiction;
    destruct b as [sb| |  |sb mb eb]; try contradiction.
  - cbn. reflexivity.
  - cbn in Nb. subst sb. cbn [SFcompare]. apply SF2Q_finite_pos.
  - cbn in Na. subst sa. cbn [SFcompare]. apply SF2Q_finite_pos.
  - cbn in Na, Nb. subst sa sb. cbn [SFcompare SF2Q cond_Zopp].
    destruct (valid_finite_inv _ _ _ Va) as (Hea & Hma & Hla & _).
    destruct (valid_finite_inv _ _ _ Vb) as (Heb & Hmb & Hlb & _).
    pose proof (pow2_pos ea) as Hua. pose proof (pow2_pos eb) as Hub.
    destruct (Z.compare_spec ea eb) as [E|L|G].
    + subst eb. change (Pos.compare_cont Eq ma mb) with (Pos.compare ma mb).
      destruct (Pos.compare_spec ma mb) as [E|L|G].
      * subst. reflexivity.
      * apply inject_Z_pos_lt. lia.
      * apply inject_Z_pos_lt. lia.
    + pose proof (pow2_lt_twice _ _ L) as Hp.
      specialize (Hlb ltac:(lia)).
      pose proof (inject_Z_pos_lt _ _ Hma ea) as H1.
      pose proof (inject_Z_pos_le _ _ Hlb eb) as H2.
      change (inject_Z (2 ^ 53)) with (2 * 4503599627370496) in H1.
      change (inject_Z (2 ^ 52)) with 4503599627370496 in H2. lra.
    + pose proof (pow2_lt_twice _ _ G) as Hp.
      specialize (Hla ltac:(lia)).
      pose proof (inject_Z_pos_lt _ _ Hmb eb) as H1.
      pose proof (inject_Z_pos_le _ _ Hla ea) as H2.
      change (inject_Z (2 ^ 53)) with (2 * 4503599627370496) in H1.
      change (inject_Z (2 ^ 52)) with 4503599627370496 in H2. lra.
Qed.

Lemma SFleb_nnf (a b : spec_float) :
  valid_binary a = true -> valid_binary b = true -> SFnnf a -> SFnnf b ->
  SFleb a b = true <-> SF2Q a <= SF2Q b.
Proof.
  intros Va Vb Na Nb. pose proof (SFcompare_nnf a b Va Vb Na Nb) as H.
  unfold SFleb. destruct (SFcompare a b) as [[]|]; try contradiction;
    split; intros H'; try reflexivity; try discriminate; try lra.
Qed.

Lemma SFltb_nnf (a b : spec_float) :
  valid_binary a = true -> valid_binary b = true -> SFnnf a -> SFnnf b ->
  SFltb a b = true <-> SF2Q a < SF2Q b.
Proof.
  intros Va Vb Na Nb. pose proof (SFcompare_nnf a b Va Vb Na Nb) as H.
  unfold SFltb. destruct (SFcompare a b) as [[]|]; try contradiction;
    split; intros H'; try reflexivity; try discriminate; try lra.
Qed.

Lemma SFeqb_nnf (a b : spec_float) :
  valid_binary a = true -> valid_binary b = true -> SFnnf a -> SFnnf b ->
  SFeqb a b = true <-> SF2Q a == SF2Q b.
Proof.
  intros Va Vb Na Nb. pose proof (SFcompare_nnf a b Va Vb Na Nb) as H.
  unfold SFeqb. destruct (SFcompare a b) as [[]|]; try contradiction;
    split; intros H'; try reflexivity; try discriminate; try lra.
Qed.

Lemma Rounds_ext (x y : Q) (m e : Z) : x == y -> Rounds x m e -> Rounds y m e.
Proof.
  intros E (H1 & H2 & H3 & H4 & H5 & H6). split_rounds.
  - exact H1.
  - intros H. rewrite <- E. auto.
  - now rewrite <- E.
  - now rewrite <- E.
  - now rewrite <- E.
  - rewrite <- E. exact H6.
Qed.

Lemma pow2_le_inv (a b : Z) : pow2 a <= pow2 b -> (a <= b)%Z.
Proof. intros H. apply Qpower_le_compat_l_inv with (q := 2); [exact H|reflexivity]. Qed.

Lemma pow2_sub (a b : Z) : pow2 (a - b) == pow2 a / pow2 b.
Proof.
  unfold Z.sub. rewrite pow2_add. unfold pow2 at 2. rewrite Qpower_opp.
  reflexivity.
Qed.

(** No overflow when the value is at most [2^1000]. *)
Lemma fexp_no_overflow (M E : Z) :
  (0 <= M)%Z -> inject_Z M * pow2 E <= pow2 1000 ->
  (E <= fexp prec emax (Zdigits2 M + E))%Z ->
  (fexp prec emax (Zdigits2 M + E) <= 970)%Z.
Proof.
  intros HM Hle Hpre. rewrite fexp64 in *.
  destruct (Z.eq_dec M 0) as [->|Hnz].
  - cbn [Zdigits2] in *. lia.
  - pose proof (Zdigits2_lower M ltac:(lia)) as Hl.
    pose proof (Zdigits2_nonneg M) as Hd.
    assert (Hd1 : (1 <= Zdigits2 M)%Z).
    { destruct M; cbn; lia. }
    assert (H : pow2 (Zdigits2 M - 1 + E) <= pow2 1000).
    { rewrite pow2_add. apply Qle_trans with (2 := Hle).
      apply Qmult_le_compat_r; [|apply Qlt_le_weak, pow2_pos].
      rewrite pow2_nonneg_inject by lia. now rewrite <- Zle_Qle. }
    apply pow2_le_inv in H. lia.
Qed.

Lemma binary_round_aux_rounds (mx ex : Z) (lx : location) (N D : Z) :
  loc_inv mx lx N D ->
  (ex <= fexp prec emax (Zdigits2 mx + ex))%Z ->
  inject_Z mx * pow2 ex <= pow2 1000 ->
  let r := binary_round_aux prec emax false mx ex lx in
  exists m e,
    Rounds (inject_Z N / inject_Z D * pow2 ex) m e
    /\ SF2Q r == inject_Z m * pow2 e /\ SFnnf r.
Proof.
  intros Hinv Hpre Hov r.
  assert (Hmx : (0 <= mx)%Z) by apply Hinv.
  assert (HD : (0 < D)%Z) by apply Hinv.
  pose proof (fexp_no_overflow mx ex Hmx Hov Hpre) as Hov'.
  destruct (binary_round_aux_spec mx ex lx N D Hinv Hpre Hov')
    as (m & Hm & Hne & Hlo & Hhi & Er).
  set (e1 := fexp prec emax (Zdigits2 mx + ex)) in *.
  assert (He1 : (-1074 <= e1)%Z) by (unfold e1; rewrite fexp64; lia).
  assert (Hn : (0 <= e1 - ex)%Z) by lia.
  pose proof (Z.pow_pos_nonneg 2 (e1 - ex) ltac:(lia) Hn) as Hpow.
  exists m, e1. subst r. rewrite Er. split; [|split].
  - assert (HD' : (0 < 2 ^ (e1 - ex) * D)%Z) by (apply Z.mul_pos_pos; assumption).
    pose proof (rounds_of_nearest N _ m e1 HD' He1 Hne Hlo Hhi) as HR.
    apply Rounds_ext with (2 := HR).
    rewrite inject_Z_mult. rewrite <- pow2_nonneg_inject by lia.
    rewrite pow2_sub.
    assert (HDq : ~ inject_Z D == 0).
    { intros E. change 0 with (inject_Z 0) in E. rewrite inject_Z_injective in E. lia. }
    pose proof (pow2_pos e1). pose proof (pow2_pos ex).
    field. repeat split; lra.
  - apply round_result_value. lia.
  - apply round_result_nnf.
Qed.

(** ** Multiplication *)

Lemma digits2_mul (a b : positive) :
  (Zpos (digits2_pos a) + Zpos (digits2_pos b) - 1 <= Zpos (digits2_pos (a * b)))%Z.
Proof.
  pose proof (digits2_bounds a) as [La Ua].
  pose proof (digits2_bounds b) as [Lb Ub].
  pose proof (digits2_bounds (a * b)) as [Lab Uab].
  set (da := Zpos (digits2_pos a)) in *. set (db := Zpos (digits2_pos b)) in *.
  set (dab := Zpos (digits2_pos (a * b))) in *.
  assert (H : (2 ^ (da - 1 + (db - 1)) < 2 ^ dab)%Z).
  { rewrite Z.pow_add_r by (unfold da, db; lia).
    apply Z.le_lt_trans with (2 := Uab). rewrite Pos2Z.inj_mul.
    apply Z.mul_le_mono_nonneg; try assumption;
      apply Z.pow_nonneg; lia. }
  apply Z.pow_lt_mono_r_iff in H; unfold dab; lia.
Qed.

Lemma SFmul_rounds (a b : spec_float) :
  valid_binary a = true -> valid_binary b = true -> SFnnf a -> SFnnf b ->
  SF2Q a * SF2Q b <= pow2 1000 ->
  exists m e,
    Rounds (SF2Q a * SF2Q b) m e
    /\ SF2Q (SF64mul a b) == inject_Z m * pow2 e /\ SFnnf (SF64mul a b).
Proof.
  intros Va Vb Na Nb Hov.
  assert (Hzero : forall r, SF2Q a * SF2Q b == 0 -> SF2Q r == 0 -> SFnnf r ->
            exists m e, Rounds (SF2Q a * SF2Q b) m e
                        /\ SF2Q r == inject_Z m * pow2 e /\ SFnnf r).
  { intros r E Er Hr.
    destruct (float_rounds_self (S754_zero false) eq_refl I) as (m & e & HR & Ev).
    exists m, e. split; [|split].
    - apply Rounds_ext with (2 := HR). cbn [SF2Q]. now rewrite E.
    - rewrite Er. exact Ev.
    - exact Hr. }
  destruct a as [sa| |  |sa ma ea]; try contradiction;
    destruct b as [sb| |  |sb mb eb]; try contradiction.
  - apply Hzero; cbn; try ring; exact I.
  - apply Hzero; cbn; try ring; exact I.
  - apply Hzero; cbn; try ring; exact I.
  - cbn in Na, Nb. subst sa sb.
    destruct (valid_finite_inv _ _ _ Va) as (Hea & Hma & Hla & Hca).
    destruct (valid_finite_inv _ _ _ Vb) as (Heb & Hmb & Hlb & Hcb).
    change (SF64mul (S754_finite false ma ea) (S754_finite false mb eb))
      with (binary_round_aux prec emax false (Zpos (ma * mb)) (ea + eb) loc_Exact).
    assert (Ev : SF2Q (S754_finite false ma ea) * SF2Q (S754_finite false mb eb)
                 == inject_Z (Zpos (ma * mb)) * pow2 (ea + eb)).
    { cbn [SF2Q cond_Zopp]. rewrite Pos2Z.inj_mul, inject_Z_mult, pow2_add. ring. }
    assert (Hinv : loc_inv (Zpos (ma * mb)) loc_Exact (Zpos (ma * mb)) 1).
    { unfold loc_inv. repeat split; lia. }
    assert (Hpre : (ea + eb <= fexp prec emax (Zdigits2 (Zpos (ma * mb)) + (ea + eb)))%Z).
    { cbn [Zdigits2]. pose proof (digits2_mul ma mb) as Hd.
      rewrite fexp64 in *. lia. }
    destruct (binary_round_aux_rounds _ _ _ _ _ Hinv Hpre) as (m & e & HR & Hv & Hn).
    { rewrite <- Ev. exact Hov. }
    exists m, e. split; [|split]; [|exact Hv|exact Hn].
    apply Rounds_ext with (2 := HR). rewrite Ev. field.
Qed.

(** ** Addition *)

Lemma Pos_iter_xO (m d : positive) :
  Zpos (Pos.iter xO m d) = (Zpos m * 2 ^ Zpos d)%Z
  /\ Zpos (digits2_pos (Pos.iter xO m d)) = (Zpos (digits2_pos m) + Zpos d)%Z.
Proof.
  induction d as [|d IH] using Pos.peano_ind.
  - cbn [Pos.iter digits2_pos]. split; [lia|]. lia.
  - rewrite Pos.iter_succ. cbn [digits2_pos]. destruct IH as [IH1 IH2].
    rewrite Pos2Z.inj_xO, IH1, !Pos2Z.inj_succ, IH2, Z.pow_succ_r by lia.
    split; ring.
Qed.

Lemma shl_align_spec (m : positive) (e e' : Z) :
  let '(m', e'') := shl_align m e e' in
  e'' = Z.min e e'
  /\ Zpos m' = (Zpos m * 2 ^ (e - e''))%Z
  /\ Zpos (digits2_pos m') = (Zpos (digits2_pos m) + (e - e''))%Z.
Proof.
  unfold shl_align. destruct (e' - e)%Z as [|d|d] eqn:E.
  - replace (e - e)%Z with 0%Z by lia. split; [lia|]. split; [|lia].
    cbn [Z.pow]. lia.
  - replace (e - e)%Z with 0%Z by lia. split; [lia|]. split; [|lia].
    cbn [Z.pow]. lia.
  - destruct (Pos_iter_xO m d) as [H1 H2].
    replace (e - e')%Z with (Zpos d) by lia. split; [lia|]. split; assumption.
Qed.

Lemma binary_round_rounds (p : positive) (e : Z) :
  inject_Z (Zpos p) * pow2 e <= pow2 1000 ->
  let r := binary_round prec emax false p e in
  exists m e1,
    Rounds (inject_Z (Zpos p) * pow2 e) m e1
    /\ SF2Q r == inject_Z m * pow2 e1 /\ SFnnf r.
Proof.
  intros Hov r. subst r. unfold binary_round.
  pose proof (shl_align_spec p e (fexp prec emax (Zpos (digits2_pos p) + e))) as Hs.
  destruct (shl_align p e _) as [mz ez]. destruct Hs as (Hez & Hmz & Hdz).
  assert (Hk : (0 <= e - ez)%Z) by lia.
  assert (Ev : inject_Z (Zpos mz) * pow2 ez == inject_Z (Zpos p) * pow2 e).
  { rewrite Hmz, inject_Z_mult, <- pow2_nonneg_inject by lia.
    rewrite <- Qmult_assoc, <- pow2_add. now replace (e - ez + ez)%Z with e by lia. }
  assert (Hinv : loc_inv (Zpos mz) loc_Exact (Zpos mz) 1).
  { unfold loc_inv. repeat split; lia. }
  assert (Hpre : (ez <= fexp prec emax (Zdigits2 (Zpos mz) + ez))%Z).
  { cbn [Zdigits2]. rewrite Hdz.
    replace (Zpos (digits2_pos p) + (e - ez) + ez)%Z
      with (Zpos (digits2_pos p) + e)%Z by lia. lia. }
  destruct (binary_round_aux_rounds _ _ _ _ _ Hinv Hpre) as (m & e1 & HR & Hv & Hn).
  { rewrite Ev. exact Hov. }
  exists m, e1. split; [|split]; [|exact Hv|exact Hn].
  apply Rounds_ext with (2 := HR). rewrite <- Ev. field.
Qed.

Lemma SFadd_rounds (a b : spec_float) :
  valid_binary a = true -> valid_binary b = true -> SFnnf a -> SFnnf b ->
  SF2Q a + SF2Q b <= pow2 1000 ->
  exists m e,
    Rounds (SF2Q a + SF2Q b) m e
    /\ SF2Q (SF64add a b) == inject_Z m * pow2 e /\ SFnnf (SF64add a b).
Proof.
  intros Va Vb Na Nb Hov.
  assert (Hsame : forall r, valid_binary r = true -> SFnnf r ->
            SF2Q a + SF2Q b == SF2Q r ->
            exists m e, Rounds (SF2Q a + SF2Q b) m e
                        /\ SF2Q r == inject_Z m * pow2 e /\ SFnnf r).
  { intros r Vr Hr E.
    destruct (float_rounds_self r Vr Hr) as (m & e & HR & Ev).
    exists m, e. split; [|split]; [|exact Ev|exact Hr].
    apply Rounds_ext with (2 := HR). now rewrite E. }
  destruct a as [sa| |  |sa ma ea]; try contradiction;
    destruct b as [sb| |  |sb mb eb]; try contradiction.
  - destruct sa, sb; unfold SF64add, SFadd;
      (apply Hsame; [reflexivity|exact I|cbn [SF2Q]; ring]).
  - unfold SF64add, SFadd. apply Hsame; [exact Vb|exact Nb|cbn [SF2Q]; ring].
  - unfold SF64add, SFadd. apply Hsame; [exact Va|exact Na|cbn [SF2Q]; ring].
  - cbn in Na, Nb. subst sa sb.
    unfold SF64add, SFadd. cbn [cond_Zopp].
    pose proof (shl_align_spec ma ea (Z.min ea eb)) as Ha.
    pose proof (shl_align_spec mb eb (Z.min ea eb)) as Hb.
    destruct (shl_align ma ea _) as [ma' ea']. destruct (shl_align mb eb _) as [mb' eb'].
    destruct Ha as (Ea1 & Ea2 & _). destruct Hb as (Eb1 & Eb2 & _).
    cbn [fst]. change (Zpos ma' + Zpos mb')%Z with (Zpos (ma' + mb')).
    cbn [binary_normalize].
    set (ez := Z.min ea eb) in *.
    assert (Ev : inject_Z (Zpos (ma' + mb')) * pow2 ez
                 == SF2Q (S754_finite false ma ea) + SF2Q (S754_finite false mb eb)).
    { cbn [SF2Q cond_Zopp]. rewrite Pos2Z.inj_add, inject_Z_plus, Ea2, Eb2.
      rewrite !inject_Z_mult, <- !pow2_nonneg_inject by lia.
      replace ea' with ez by lia. replace eb' with ez by lia.
      rewrite Qmult_plus_distr_l, <- !Qmult_assoc, <- !pow2_add.
      replace (ea - ez + ez)%Z with ea by lia.
      replace (eb - ez + ez)%Z with eb by lia. reflexivity. }
    destruct (binary_round_rounds (ma' + mb') ez) as (m & e & HR & Hv & Hn).
    { rewrite Ev. exact Hov. }
    exists m, e. split; [|split]; [|exact Hv|exact Hn].
    apply Rounds_ext with (2 := HR). exact Ev.
Qed.

(** ** Division *)

Lemma new_location_inv (m2 q r N : Z) :
  (0 < m2)%Z -> (0 <= q)%Z -> (0 <= r < m2)%Z -> N = (m2 * q + r)%Z ->
  loc_inv q (new_location m2 r) N m2.
Proof.
  intros Hm2 Hq Hr ->. unfold loc_inv. split; [exact Hm2|]. split; [exact Hq|].
  unfold new_location, new_location_even, new_location_odd.
  destruct (Z.even m2) eqn:Ev; destruct (Z.eqb_spec r 0) as [->|Hr0];
    try lia.
  - split; [lia|].
    destruct (Z.compare_spec (2 * r) m2);
      [apply Z.compare_eq_iff|apply Z.compare_lt_iff|apply Z.compare_gt_iff]; lia.
  - split; [lia|].
    assert (Hodd : (2 * r <> m2)%Z).
    { intros E. rewrite <- E, Z.even_mul in Ev. discriminate Ev. }
    destruct (Z.compare_spec (2 * r + 1) m2);
      [apply Z.compare_lt_iff|apply Z.compare_lt_iff|apply Z.compare_gt_iff]; lia.
Qed.

Lemma SFdiv_rounds (a : spec_float) (mb : positive) (eb : Z) :
  let b := S754_finite false mb eb in
  valid_binary a = true -> valid_binary b = true -> SFnnf a ->
  SF2Q a / SF2Q b <= pow2 1000 ->
  exists m e,
    Rounds (SF2Q a / SF2Q b) m e
    /\ SF2Q (SF64div a b) == inject_Z m * pow2 e /\ SFnnf (SF64div a b).
Proof.
  intros b Va Vb Na Hov.
  pose proof (SF2Q_finite_pos mb eb) as Hbpos. fold b in Hbpos.
  destruct a as [sa| |  |sa ma ea]; try contradiction.
  - destruct (float_rounds_self (S754_zero false) eq_refl I) as (m & e & HR & Ev).
    exists m, e. split; [|split].
    + apply Rounds_ext with (2 := HR). cbn [SF2Q]. field. lra.
    + destruct sa; exact Ev.
    + destruct sa; exact I.
  - cbn in Na. subst sa.
    destruct (valid_finite_inv _ _ _ Va) as (Hea & Hma & Hla & Hca).
    destruct (valid_finite_inv _ _ _ Vb) as (Heb & Hmb & Hlb & Hcb).
    unfold b, SF64div, SFdiv, SFdiv_core_binary. cbn [xorb Zdigits2].
    set (d1 := Zpos (digits2_pos ma)) in *. set (d2 := Zpos (digits2_pos mb)) in *.
    set (e' := Z.min (fexp prec emax (d1 + ea - (d2 + eb))) (ea - eb)).
    set (s := (ea - eb - e')%Z).
    assert (Hs : (0 <= s)%Z) by (unfold s, e'; lia).
    set (m' := match s with
               | 0%Z => Zpos ma
               | Zpos _ => Z.shiftl (Zpos ma) s
               | Zneg _ => 0%Z
               end).
    assert (Em' : m' = (Zpos ma * 2 ^ s)%Z).
    { unfold m'. clearbody s. destruct s as [|p|p]; try lia.
      apply Z.shiftl_mul_pow2. lia. }
    clearbody m'.
    pose proof (Z_div_mod m' (Zpos mb) ltac:(lia)) as Hdm.
    destruct (Z.div_eucl m' (Zpos mb)) as [q r]. destruct Hdm as [Eq Hr].
    pose proof (Z.pow_pos_nonneg 2 s ltac:(lia) Hs) as Hpow.
    assert (Hm'pos : (0 < m')%Z) by (rewrite Em'; apply Z.mul_pos_pos; lia).
    assert (Hq : (0 <= q)%Z).
    { destruct (Z.le_gt_cases 0 q) as [|Hneg]; [assumption|exfalso].
      assert (Zpos mb * q <= Zpos mb * (-1))%Z by (apply Z.mul_le_mono_nonneg_l; lia).
      lia. }
    pose proof (new_location_inv (Zpos mb) q r m' ltac:(lia) Hq Hr Eq) as Hinv.
    pose proof (digits2_bounds ma) as [La Ua]. fold d1 in La, Ua.
    pose proof (digits2_bounds mb) as [Lb Ub]. fold d2 in Lb, Ub.
    assert (Hd1 : (1 <= d1 <= 53)%Z).
    { split; [unfold d1; lia|].
      destruct (Z.le_gt_cases d1 53) as [|Hgt]; [assumption|exfalso].
      assert (2 ^ 53 <= 2 ^ (d1 - 1))%Z by (apply Z.pow_le_mono_r; lia). lia. }
    assert (Hd2 : (1 <= d2)%Z) by (unfold d2; lia).
    assert (Hpre : (e' <= fexp prec emax (Zdigits2 q + e'))%Z).
    { rewrite fexp64.
      destruct (Z.le_gt_cases e' (-1074)) as [Hlow|Hhigh]; [lia|].
      assert (He' : (e' <= d1 + ea - (d2 + eb) - 53)%Z).
      { unfold e' in *. rewrite fexp64 in *. lia. }
      assert (Hs' : (53 - d1 + d2 <= s)%Z) by (unfold s; lia).
      assert (Hq52 : (2 ^ 52 <= q)%Z).
      { assert (Hbig : (2 ^ 52 * 2 ^ d2 <= m')%Z).
        { rewrite Em', <- Z.pow_add_r by lia.
          apply Z.le_trans with (2 ^ (d1 - 1) * 2 ^ s)%Z.
          - rewrite <- Z.pow_add_r by lia. apply Z.pow_le_mono_r; lia.
          - apply Z.mul_le_mono_nonneg_r; lia. }
        destruct (Z.le_gt_cases (2 ^ 52) q) as [|Hlt]; [assumption|exfalso].
        assert (Zpos mb * q <= Zpos mb * (2 ^ 52 - 1))%Z
          by (apply Z.mul_le_mono_nonneg_l; lia).
        assert (Zpos mb * 2 ^ 52 <= 2 ^ d2 * 2 ^ 52)%Z
          by (apply Z.mul_le_mono_nonneg_r; lia).
        lia. }
      pose proof (Zdigits2_upper q Hq) as Hqu.
      assert (52 < Zdigits2 q)%Z; [|lia].
      apply (Z.pow_lt_mono_r_iff 2); [lia|apply Zdigits2_nonneg|lia]. }
    assert (HmbQ : 0 < inject_Z (Zpos mb)).
    { change 0 with (inject_Z 0). now rewrite <- Zlt_Qlt. }
    pose proof (pow2_pos ea) as Hua. pose proof (pow2_pos eb) as Hub.
    pose proof (pow2_pos e') as Hue.
    assert (Ev : inject_Z m' / inject_Z (Zpos mb) * pow2 e'
                 == SF2Q (S754_finite false ma ea) / SF2Q (S754_finite false mb eb)).
    { cbn [SF2Q cond_Zopp]. rewrite Em', inject_Z_mult, <- pow2_nonneg_inject by lia.
      unfold s. rewrite !pow2_sub. field. repeat split; lra. }
    destruct (binary_round_aux_rounds _ _ _ _ _ Hinv Hpre) as (m & e & HR & Hv & Hn).
    { apply Qle_trans with (2 := Hov). fold b. unfold b. rewrite <- Ev.
      apply Qmult_le_compat_r; [|lra].
      apply Qle_shift_div_l; [exact HmbQ|].
      rewrite <- inject_Z_mult, <- Zle_Qle. lia. }
    exists m, e. split; [|split]; [|exact Hv|exact Hn].
    apply Rounds_ext with (2 := HR). exact Ev.
Qed.

Lemma leb_nnf (a b : float) :
  nnf a -> nnf b -> ((a <=? b)%float = true <-> F2Q a <= F2Q b).
Proof.
  intros Na Nb. rewrite leb_spec.
  apply SFleb_nnf; auto using Prim2SF_valid.
Qed.

Lemma ltb_nnf (a b : float) :
  nnf a -> nnf b -> ((a <? b)%float = true <-> F2Q a < F2Q b).
Proof.
  intros Na Nb. rewrite ltb_spec.
  apply SFltb_nnf; auto using Prim2SF_valid.
Qed.

Lemma eqb_nnf (a b : float) :
  nnf a -> nnf b -> ((a =? b)%float = true <-> F2Q a == F2Q b).
Proof.
  intros Na Nb. rewrite eqb_spec.
  apply SFeqb_nnf; auto using Prim2SF_valid.
Qed.

Lemma nnf_zero : nnf 0%float.
Proof. exact I. Qed.

Lemma F2Q_zero : F2Q 0%float == 0.
Proof. reflexivity. Qed.

Lemma F2Q_nonneg (x : float) : nnf x -> 0 <= F2Q x.
Proof. apply SF2Q_nonneg. Qed.

(** A number between zero and a non-negative finite number is
    non-negative and finite. *)
Lemma nnf_between (x hi : float) :
  (0 <=? x)%float = true -> (x <=? hi)%float = true -> nnf hi -> nnf x.
Proof.
  rewrite !leb_spec. unfold nnf.
  change (Prim2SF 0%float) with (S754_zero false).
  destruct (Prim2SF x) as [s|s| |s m e]; intros H0 H1 Hhi.
  - exact I.
  - destruct s; [discriminate H0|].
    destruct (Prim2SF hi) as [s'|s'| |s' m' e']; try contradiction; discriminate H1.
  - discriminate H0.
  - destruct s; [discriminate H0|reflexivity].
Qed.

Lemma nnf_big : nnf big.
Proof. reflexivity. Qed.

Lemma F2Q_big : F2Q big == pow2 100.
Proof. vm_compute. reflexivity. Qed.

Lemma moderate_nnf (x : float) : moderate x -> nnf x.
Proof. intros [H0 H1]. exact (nnf_between x big H0 H1 nnf_big). Qed.

Lemma moderate_value (x : float) : moderate x -> 0 <= F2Q x <= pow2 100.
Proof.
  intros Hb. pose proof (moderate_nnf x Hb) as Hn. destruct Hb as [H0 H1].
  split; [now apply F2Q_nonneg|].
  rewrite <- F2Q_big. now apply leb_nnf; [|apply nnf_big|].
Qed.

Lemma moderate_below (x hi : float) :
  (0 <=? x)%float = true -> (x <=? hi)%float = true -> moderate hi -> moderate x.
Proof.
  intros H0 H1 Hb. pose proof (moderate_nnf hi Hb) as Hn.
  pose proof (nnf_between x hi H0 H1 Hn) as Hx.
  split; [exact H0|].
  apply leb_nnf; [exact Hx|apply nnf_big|].
  apply Qle_trans with (F2Q hi).
  - now apply leb_nnf.
  - rewrite F2Q_big. apply moderate_value, Hb.
Qed.

Lemma pow2_200_1000 : pow2 100 * pow2 100 <= pow2 1000.
Proof. rewrite <- pow2_add. apply pow2_le. lia. Qed.

Lemma fmul_rounds (a b : float) :
  nnf a -> nnf b -> F2Q a * F2Q b <= pow2 1000 ->
  exists m e, Rounds (F2Q a * F2Q b) m e
              /\ F2Q (a * b) == inject_Z m * pow2 e /\ nnf (a * b).
Proof.
  intros Na Nb H. unfold F2Q, nnf. rewrite mul_spec.
  apply SFmul_rounds; auto using Prim2SF_valid.
Qed.

Lemma fadd_rounds (a b : float) :
  nnf a -> nnf b -> F2Q a + F2Q b <= pow2 1000 ->
  exists m e, Rounds (F2Q a + F2Q b) m e
              /\ F2Q (a + b) == inject_Z m * pow2 e /\ nnf (a + b).
Proof.
  intros Na Nb H. unfold F2Q, nnf. rewrite add_spec.
  apply SFadd_rounds; auto using Prim2SF_valid.
Qed.

Lemma fdiv_rounds (a b : float) :
  nnf a -> nnf b -> 0 < F2Q b -> F2Q a / F2Q b <= pow2 1000 ->
  exists m e, Rounds (F2Q a / F2Q b) m e
              /\ F2Q (a / b) == inject_Z m * pow2 e /\ nnf (a / b).
Proof.
  intros Na Nb Hpos H. unfold F2Q, nnf in *. rewrite div_spec.
  pose proof (Prim2SF_valid b) as Vb.
  destruct (Prim2SF b) as [s|s| |s m e]; try contradiction.
  - cbn in Hpos. lra.
  - cbn in Nb. subst s.
    apply (SFdiv_rounds (Prim2SF a) m e); auto using Prim2SF_valid.
Qed.

(** ** Monotonicity of the rounded operations *)

Lemma fmul_mono (a b c d : float) :
  (0 <=? a)%float = true -> (a <=? c)%float = true -> moderate c ->
  (0 <=? b)%float = true -> (b <=? d)%float = true -> moderate d ->
  (a * b <=? c * d)%float = true /\ (0 <=? a * b)%float = true.
Proof.
  intros Ha0 Hac Hc Hb0 Hbd Hd.
  pose proof (moderate_nnf c Hc) as Nc. pose proof (moderate_nnf d Hd) as Nd.
  pose proof (nnf_between a c Ha0 Hac Nc) as Na.
  pose proof (nnf_between b d Hb0 Hbd Nd) as Nb.
  pose proof (F2Q_nonneg a Na). pose proof (F2Q_nonneg b Nb).
  pose proof (moderate_value c Hc). pose proof (moderate_value d Hd).
  apply leb_nnf in Hac; [|assumption..]. apply leb_nnf in Hbd; [|assumption..].
  pose proof pow2_200_1000 as Hp.
  pose proof (pow2_pos 100) as Hp100.
  assert (Hcd : F2Q c * F2Q d <= pow2 1000).
  { apply Qle_trans with (2 := Hp). apply Qmult_le_compat_nonneg; lra. }
  assert (Hab : F2Q a * F2Q b <= F2Q c * F2Q d).
  { apply Qmult_le_compat_nonneg; lra. }
  destruct (fmul_rounds a b Na Nb) as (m1 & e1 & R1 & V1 & N1); [lra|].
  destruct (fmul_rounds c d Nc Nd Hcd) as (m2 & e2 & R2 & V2 & N2).
  split.
  - apply leb_nnf; [assumption..|]. rewrite V1, V2.
    exact (rounds_le _ _ _ _ _ _ R1 R2 Hab).
  - apply leb_nnf; [apply nnf_zero|assumption|]. rewrite F2Q_zero.
    now apply F2Q_nonneg.
Qed.

Lemma fadd_mono (a b c d : float) :
  (0 <=? a)%float = true -> (a <=? c)%float = true -> moderate c ->
  (0 <=? b)%float = true -> (b <=? d)%float = true -> moderate d ->
  (a + b <=? c + d)%float = true /\ (0 <=? a + b)%float = true.
Proof.
  intros Ha0 Hac Hc Hb0 Hbd Hd.
  pose proof (moderate_nnf c Hc) as Nc. pose proof (moderate_nnf d Hd) as Nd.
  pose proof (nnf_between a c Ha0 Hac Nc) as Na.
  pose proof (nnf_between b d Hb0 Hbd Nd) as Nb.
  pose proof (F2Q_nonneg a Na). pose proof (F2Q_nonneg b Nb).
  pose proof (moderate_value c Hc). pose proof (moderate_value d Hd).
  apply leb_nnf in Hac; [|assumption..]. apply leb_nnf in Hbd; [|assumption..].
  assert (Hp : 2 * pow2 100 <= pow2 1000) by (apply pow2_lt_twice; lia).
  destruct (fadd_rounds a b Na Nb) as (m1 & e1 & R1 & V1 & N1); [lra|].
  destruct (fadd_rounds c d Nc Nd) as (m2 & e2 & R2 & V2 & N2); [lra|].
  split.
  - apply leb_nnf; [assumption..|]. rewrite V1, V2.
    apply (rounds_le _ _ _ _ _ _ R1 R2). lra.
  - apply leb_nnf; [apply nnf_zero|assumption|]. rewrite F2Q_zero.
    now apply F2Q_nonneg.
Qed.

Lemma nnf_small : nnf small.
Proof. reflexivity. Qed.

Lemma F2Q_small : F2Q small == pow2 (-100).
Proof. vm_compute. reflexivity. Qed.

Lemma fdiv_mono (a b c d : float) :
  (0 <=? a)%float = true -> (a <=? c)%float = true -> moderate c ->
  (small <=? d)%float = true -> (d <=? b)%float = true -> moderate b ->
  (a / b <=? c / d)%float = true /\ (0 <=? a / b)%float = true.
Proof.
  intros Ha0 Hac Hc Hsd Hdb Hb.
  pose proof (moderate_nnf c Hc) as Nc. pose proof (moderate_nnf b Hb) as Nb.
  pose proof (nnf_between a c Ha0 Hac Nc) as Na.
  assert (Hd0 : (0 <=? d)%float = true).
  { rewrite leb_spec in *. change (Prim2SF 0%float) with (S754_zero false).
    change (Prim2SF small) with (S754_finite false 4503599627370496 (-152)) in Hsd.
    destruct (Prim2SF d) as [s|s| |s m e]; try reflexivity; try discriminate Hsd.
    - destruct s; [discriminate Hsd|reflexivity].
    - destruct s; [discriminate Hsd|reflexivity]. }
  pose proof (nnf_between d b Hd0 Hdb Nb) as Nd.
  pose proof (F2Q_nonneg a Na).
  pose proof (moderate_value c Hc). pose proof (moderate_value b Hb).
  apply leb_nnf in Hac; [|assumption..]. apply leb_nnf in Hdb; [|assumption..].
  apply leb_nnf in Hsd; [|apply nnf_small|assumption]. rewrite F2Q_small in Hsd.
  pose proof (pow2_pos (-100)) as Hps. pose proof (pow2_pos 100) as Hp100.
  assert (Hdpos : 0 < F2Q d) by lra. assert (Hbpos : 0 < F2Q b) by lra.
  assert (Hcd : F2Q c / F2Q d <= pow2 1000).
  { apply Qle_shift_div_r; [exact Hdpos|].
    apply Qle_trans with (pow2 1000 * pow2 (-100)).
    - rewrite <- pow2_add. apply Qle_trans with (pow2 100); [lra|].
      apply pow2_le. lia.
    - apply Qmult_le_l; [apply pow2_pos|exact Hsd]. }
  assert (Hab : F2Q a / F2Q b <= F2Q c / F2Q d).
  { apply Qle_shift_div_r; [exact Hbpos|].
    set (t := F2Q c / F2Q d).
    assert (Et : t * F2Q d == F2Q c) by (unfold t; field; lra).
    assert (Ht : 0 <= t).
    { unfold t. apply Qle_shift_div_l; [exact Hdpos|]. lra. }
    assert (0 <= t * (F2Q b - F2Q d)) by (apply Qmult_le_0_compat; lra).
    lra. }
  destruct (fdiv_rounds a b Na Nb Hbpos) as (m1 & e1 & R1 & V1 & N1); [lra|].
  destruct (fdiv_rounds c d Nc Nd Hdpos Hcd) as (m2 & e2 & R2 & V2 & N2).
  split.
  - apply leb_nnf; [assumption..|]. rewrite V1, V2.
    exact (rounds_le _ _ _ _ _ _ R1 R2 Hab).
  - apply leb_nnf; [apply nnf_zero|assumption|]. rewrite F2Q_zero.
    now apply F2Q_nonneg.
Qed.

(** Two valid non-negative finite numbers of the same positive value are
    the same number. *)
Lemma SFnnf_eq (a b : spec_float) :
  valid_binary a = true -> valid_binary b = true -> SFnnf a -> SFnnf b ->
  0 < SF2Q a -> SF2Q a == SF2Q b -> a = b.
Proof.
  intros Va Vb Na Nb Hpos E.
  pose proof (SFcompare_nnf a b Va Vb Na Nb) as H.
  destruct a as [sa| |  |sa ma ea]; try contradiction; [cbn in Hpos; lra|].
  destruct b as [sb| |  |sb mb eb]; try contradiction; [cbn in E, Hpos; cbn in *; lra|].
  cbn in Na, Nb. subst sa sb. cbn [SFcompare] in H.
  destruct (Z.compare_spec ea eb) as [Ee|L|G]; try lra. subst eb.
  change (Pos.compare_cont Eq ma mb) with (Pos.compare ma mb) in H.
  destruct (Pos.compare_spec ma mb) as [Em|L|G]; try lra. now subst.
Qed.

Lemma F2Q_eq (a b : float) :
  nnf a -> nnf b -> 0 < F2Q a -> F2Q a == F2Q b -> a = b.
Proof.
  intros Na Nb Hpos E. apply Prim2SF_inj.
  apply SFnnf_eq; auto using Prim2SF_valid.
Qed.

Lemma F2Q_one : F2Q 1%float == 1.
Proof. vm_compute. reflexivity. Qed.

(** A positive moderate number divided by itself is exactly one. *)
Lemma fdiv_self (x : float) :
  (small <=? x)%float = true -> (x <=? big)%float = true -> (x / x)%float = 1%float.
Proof.
  intros Hs Hb.
  assert (H0 : (0 <=? x)%float = true).
  { rewrite leb_spec in *. change (Prim2SF 0%float) with (S754_zero false).
    change (Prim2SF small) with (S754_finite false 4503599627370496 (-152)) in Hs.
    destruct (Prim2SF x) as [s|s| |s m e]; try reflexivity; try discriminate Hs.
    - destruct s; [discriminate Hs|reflexivity].
    - destruct s; [discriminate Hs|reflexivity]. }
  assert (Hbx : moderate x) by (split; assumption).
  pose proof (moderate_nnf x Hbx) as Nx.
  apply leb_nnf in Hs; [|apply nnf_small|assumption]. rewrite F2Q_small in Hs.
  pose proof (pow2_pos (-100)) as Hps.
  assert (Hpos : 0 < F2Q x) by lra.
  assert (E1 : F2Q x / F2Q x == 1) by (field; lra).
  destruct (fdiv_rounds x x Nx Nx Hpos) as (m1 & e1 & R1 & V1 & N1).
  { rewrite E1. pose proof (pow2_le 0 1000 ltac:(lia)) as Hp. exact Hp. }
  destruct (float_rounds_self (Prim2SF 1%float) (Prim2SF_valid _) eq_refl)
    as (m2 & e2 & R2 & V2).
  fold (F2Q 1%float) in R2, V2.
  assert (E2 : F2Q x / F2Q x == F2Q 1%float) by (rewrite E1, F2Q_one; reflexivity).
  assert (L1 := rounds_le _ _ _ _ _ _ R1 R2 ltac:(rewrite E2; apply Qle_refl)).
  assert (L2 := rounds_le _ _ _ _ _ _ R2 R1 ltac:(rewrite E2; apply Qle_refl)).
  symmetry. apply F2Q_eq; [reflexivity|exact N1| |].
  - rewrite F2Q_one. reflexivity.
  - rewrite V1, V2. lra.
Qed.

(** ** Order facts on non-negative finite numbers *)

Lemma fle_refl (a : float) : nnf a -> (a <=? a)%float = true.
Proof. intros Na. apply leb_nnf; [assumption..|]. apply Qle_refl. Qed.

Lemma fle_trans (a b c : float) :
  nnf a -> nnf b -> nnf c ->
  (a <=? b)%float = true -> (b <=? c)%float = true -> (a <=? c)%float = true.
Proof.
  intros Na Nb Nc H1 H2.
  apply leb_nnf in H1; [|assumption..]. apply leb_nnf in H2; [|assumption..].
  apply leb_nnf; [assumption..|]. lra.
Qed.

Lemma flt_fle (a b : float) :
  nnf a -> nnf b -> (a <? b)%float = true -> (a <=? b)%float = true.
Proof.
  intros Na Nb H. apply ltb_nnf in H; [|assumption..].
  apply leb_nnf; [assumption..|]. lra.
Qed.

Lemma fnlt_fle (a b : float) :
  nnf a -> nnf b -> (a <? b)%float = false -> (b <=? a)%float = true.
Proof.
  intros Na Nb H. apply leb_nnf; [assumption..|].
  destruct (Qlt_le_dec (F2Q a) (F2Q b)) as [Hlt|Hle]; [|exact Hle].
  apply ltb_nnf in Hlt; [|assumption..]. congruence.
Qed.

Lemma fle_antisym (a b : float) :
  nnf a -> nnf b ->
  (a <=? b)%float = true -> (b <=? a)%float = true -> (a =? b)%float = true.
Proof.
  intros Na Nb H1 H2.
  apply leb_nnf in H1; [|assumption..]. apply leb_nnf in H2; [|assumption..].
  apply eqb_nnf; [assumption..|]. lra.
Qed.

Lemma feq_fle (a b : float) :
  nnf a -> nnf b -> (a =? b)%float = true -> (a <=? b)%float = true.
Proof.
  intros Na Nb H. apply eqb_nnf in H; [|assumption..].
  apply leb_nnf; [assumption..|]. lra.
Qed.

Lemma flt_fle_trans (a b c : float) :
  nnf a -> nnf b -> nnf c ->
  (a <? b)%float = true -> (b <=? c)%float = true -> (a <? c)%float = true.
Proof.
  intros Na Nb Nc H1 H2.
  apply ltb_nnf in H1; [|assumption..]. apply leb_nnf in H2; [|assumption..].
  apply ltb_nnf; [assumption..|]. lra.
Qed.

Lemma fle_flt_trans (a b c : float) :
  nnf a -> nnf b -> nnf c ->
  (a <=? b)%float = true -> (b <? c)%float = true -> (a <? c)%float = true.
Proof.
  intros Na Nb Nc H1 H2.
  apply leb_nnf in H1; [|assumption..]. apply ltb_nnf in H2; [|assumption..].
  apply ltb_nnf; [assumption..|]. lra.
Qed.

(** ** Interval arithmetic *)

Lemma nnf_above (lo x hi : float) :
  nnf lo -> (lo <=? x)%float = true -> (x <=? hi)%float = true -> nnf hi ->
  nnf x.
Proof.
  rewrite !leb_spec. unfold nnf.
  destruct (Prim2SF x) as [s|s| |s m e]; intros Hlo H0 H1 Hhi.
  - exact I.
  - destruct s.
    + destruct (Prim2SF lo) as [s'|s'| |s' m' e']; try contradiction; discriminate H0.
    + destruct (Prim2SF hi) as [s'|s'| |s' m' e']; try contradiction; discriminate H1.
  - destruct (Prim2SF lo) as [s'|s'| |s' m' e']; try contradiction; discriminate H0.
  - destruct s; [|reflexivity].
    destruct (Prim2SF lo) as [s'|s'| |s' m' e']; try contradiction;
      try discriminate H0.
    cbn in Hlo. subst s'. discriminate H0.
Qed.

Lemma nnf_zero_le (x : float) : nnf x -> (0 <=? x)%float = true.
Proof.
  intros Nx. apply leb_nnf; [apply nnf_zero|exact Nx|].
  rewrite F2Q_zero. now apply F2Q_nonneg.
Qed.

Lemma between_nnf (lo hi x : float) :
  (0 <=? lo)%float = true -> moderate hi -> between lo hi x ->
  nnf lo /\ nnf x /\ moderate x.
Proof.
  intros Hlo Hhi [H0 H1]. pose proof (moderate_nnf hi Hhi) as Nhi.
  assert (Nlo : nnf lo).
  { rewrite leb_spec in Hlo, H0, H1. unfold nnf in *.
    change (Prim2SF 0%float) with (S754_zero false) in Hlo.
    destruct (Prim2SF lo) as [s|s| |s m e].
    - exact I.
    - destruct s; [discriminate Hlo|].
      destruct (Prim2SF x) as [s'|s'| |s' m' e']; try discriminate H0.
      destruct s'; [discriminate H0|].
      destruct (Prim2SF hi) as [s''|s''| |s'' m'' e'']; try contradiction;
        discriminate H1.
    - discriminate Hlo.
    - destruct s; [discriminate Hlo|reflexivity]. }
  pose proof (nnf_above lo x hi Nlo H0 H1 Nhi) as Nx.
  split; [exact Nlo|]. split; [exact Nx|].
  exact (moderate_below x hi (nnf_zero_le x Nx) H1 Hhi).
Qed.

Lemma fmul_between (lo1 hi1 lo2 hi2 a b : float) :
  (0 <=? lo1)%float = true -> moderate hi1 ->
  (0 <=? lo2)%float = true -> moderate hi2 ->
  between lo1 hi1 a -> between lo2 hi2 b ->
  between (lo1 * lo2) (hi1 * hi2) (a * b).
Proof.
  intros L1 M1 L2 M2 Ha Hb.
  destruct (between_nnf _ _ _ L1 M1 Ha) as (Nl1 & Na & Ma).
  destruct (between_nnf _ _ _ L2 M2 Hb) as (Nl2 & Nb & Mb).
  destruct Ha as [Ha0 Ha1], Hb as [Hb0 Hb1]. split.
  - apply (fmul_mono lo1 lo2 a b); assumption.
  - apply (fmul_mono a b hi1 hi2); auto using nnf_zero_le.
Qed.

Lemma fadd_between (lo1 hi1 lo2 hi2 a b : float) :
  (0 <=? lo1)%float = true -> moderate hi1 ->
  (0 <=? lo2)%float = true -> moderate hi2 ->
  between lo1 hi1 a -> between lo2 hi2 b ->
  between (lo1 + lo2) (hi1 + hi2) (a + b).
Proof.
  intros L1 M1 L2 M2 Ha Hb.
  destruct (between_nnf _ _ _ L1 M1 Ha) as (Nl1 & Na & Ma).
  destruct (between_nnf _ _ _ L2 M2 Hb) as (Nl2 & Nb & Mb).
  destruct Ha as [Ha0 Ha1], Hb as [Hb0 Hb1]. split.
  - apply (fadd_mono lo1 lo2 a b); assumption.
  - apply (fadd_mono a b hi1 hi2); auto using nnf_zero_le.
Qed.

Lemma small_le_nonneg (x : float) :
  (small <=? x)%float = true -> (0 <=? x)%float = true.
Proof.
  rewrite !leb_spec. change (Prim2SF 0%float) with (S754_zero false).
  change (Prim2SF small) with (S754_finite false 4503599627370496 (-152)).
  destruct (Prim2SF x) as [s|s| |s m e]; intros H; try reflexivity;
    try discriminate H; destruct s; try discriminate H; reflexivity.
Qed.

Lemma fdiv_between (lo1 hi1 lo2 hi2 a b : float) :
  (0 <=? lo1)%float = true -> moderate hi1 ->
  (small <=? lo2)%float = true -> moderate hi2 ->
  between lo1 hi1 a -> between lo2 hi2 b ->
  between (lo1 / hi2) (hi1 / lo2) (a / b).
Proof.
  intros L1 M1 L2 M2 Ha Hb.
  destruct (between_nnf _ _ _ L1 M1 Ha) as (Nl1 & Na & Ma).
  destruct (between_nnf _ _ _ (small_le_nonneg _ L2) M2 Hb) as (Nl2 & Nb & Mb).
  pose proof (moderate_nnf hi2 M2) as Nh2.
  destruct Ha as [Ha0 Ha1], Hb as [Hb0 Hb1]. split.
  - apply (fdiv_mono lo1 hi2 a b); try assumption.
    apply (fle_trans small lo2 b); auto using nnf_small.
  - apply (fdiv_mono a b hi1 lo2); auto using nnf_zero_le.
Qed.

Lemma between_refl (x : float) : nnf x -> between x x x.
Proof. intros Nx. split; now apply fle_refl. Qed.

End RoundingValues.

(** * Luminance and contrast ratio *)

(** A boolean property checked on the 256 channel values holds of each. *)
Lemma forall_channels (P : Z -> bool) :
  forallb P channels = true -> forall c, 0 <= c <= 255 -> P c = true.
Proof.
  intros H c Hc. rewrite forallb_forall in H. apply H.
  unfold channels. replace c with (Z.of_nat (Z.to_nat c)) by lia.
  apply in_map, in_seq. lia.
Qed.

(** Every channel meets [channel_ok], by evaluation. *)
Lemma channels_ok (c : Z) : 0 <= c <= 255 -> channel_ok c = true.
Proof. apply forall_channels. vm_compute. reflexivity. Qed.

(** [transform] in terms of its parts. *)
Lemma transform_unfold (libm_pow : float -> float -> float) (c : Z) :
  transform libm_pow c
  = if is_linear c then (normalized c / 12.92)%float
    else PyFloat.pow libm_pow (base c) 2.4.
Proof. reflexivity. Qed.

Section UnitInterval.

Variable libm_pow : float -> float -> float.
Hypothesis libm_pow_unit : pow_in_unit_interval libm_pow.

(** A transformed channel is in the unit interval. *)
Lemma transform_unit (c : Z) :
  0 <= c <= 255 ->
  (0 <=? transform libm_pow c)%float = true
  /\ (transform libm_pow c <=? 1)%float = true.
Proof.
  intros Hc. pose proof (channels_ok c Hc) as Hok.
  rewrite transform_unfold. unfold channel_ok in Hok.
  destruct (is_linear c).
  - apply andb_true_iff in Hok. exact Hok.
  - unfold PyFloat.pow. destruct (base c =? 1)%float eqn:E1.
    + split; reflexivity.
    + cbn [orb] in Hok. apply andb_true_iff in Hok as [H0 H1].
      exact (libm_pow_unit (base c) H0 H1).
Qed.

End UnitInterval.

(** ** Luminances and ratios of numbers of the unit interval *)

Lemma usable_spec (lo hi : float) :
  usable lo hi = true -> (0 <=? lo)%float = true /\ moderate hi.
Proof.
  unfold usable, moderate. rewrite !andb_true_iff. tauto.
Qed.

(** The weighted sum is monotone: bounds on the three channels give
    bounds on the sum. *)
Lemma weighted_sum_between (lr hr lg hg lb hb r g b : float) :
  weighted_sum_usable lr hr lg hg lb hb = true ->
  between lr hr r -> between lg hg g -> between lb hb b ->
  between (weighted_sum lr lg lb) (weighted_sum hr hg hb) (weighted_sum r g b).
Proof.
  unfold weighted_sum_usable. rewrite !andb_true_iff.
  intros [[[[[[U1 U2] U3] U4] U5] U6] U7] Hr Hg Hb.
  apply usable_spec in U1 as [L1 M1], U2 as [L2 M2], U3 as [L3 M3],
    U4 as [L4 M4], U5 as [L5 M5], U6 as [L6 M6], U7 as [L7 M7].
  assert (K : forall k x lo hi : float,
             usable k k = true -> (0 <=? lo)%float = true -> moderate hi ->
             between lo hi x -> between (k * lo) (k * hi) (k * x)).
  { intros k x lo hi Hk Hlo Mhi Hx. apply usable_spec in Hk as [Lk Mk].
    apply fmul_between; try assumption.
    apply between_refl, moderate_nnf, Mk. }
  unfold weighted_sum.
  pose proof (K 0.2126%float r lr hr eq_refl L1 M1 Hr) as B1.
  pose proof (K 0.7152%float g lg hg eq_refl L2 M2 Hg) as B2.
  pose proof (K 0.0722%float b lb hb eq_refl L3 M3 Hb) as B3.
  pose proof (fadd_between _ _ _ _ _ _ L4 M4 L5 M5 B1 B2) as B12.
  exact (fadd_between _ _ _ _ _ _ L7 M7 L6 M6 B12 B3).
Qed.

Lemma weighted_sum_unit (r g b : float) :
  unit_float r -> unit_float g -> unit_float b ->
  unit_float (weighted_sum r g b).
Proof.
  intros Hr Hg Hb.
  exact (weighted_sum_between 0 1 0 1 0 1 r g b eq_refl Hr Hg Hb).
Qed.

Lemma unit_usable : usable 0 1 = true.
Proof. reflexivity. Qed.

Lemma unit_nnf (x : float) : unit_float x -> nnf x.
Proof.
  intros H. apply (between_nnf 0 1 x eq_refl); [|exact H].
  now apply usable_spec with (lo := 0%float).
Qed.

(** The luminance plus the offset [0.05]. *)
Lemma offset_between (x : float) :
  unit_float x -> between 0.05 1.05 (x + 0.05).
Proof.
  intros H.
  exact (fadd_between 0 1 0.05 0.05 x 0.05 eq_refl
           (proj2 (usable_spec 0 1 eq_refl)) eq_refl
           (proj2 (usable_spec 0.05 0.05 eq_refl)) H
           (between_refl 0.05 eq_refl)).
Qed.

Lemma offset_mono (x y : float) :
  unit_float x -> unit_float y -> (x <=? y)%float = true ->
  (x + 0.05 <=? y + 0.05)%float = true.
Proof.
  intros [Hx0 Hx1] [Hy0 Hy1] Hxy.
  apply (fadd_mono x 0.05 y 0.05); try assumption; try reflexivity.
  - apply (moderate_below y 1 Hy0 Hy1). now apply usable_spec with (lo := 0%float).
  - now apply usable_spec with (lo := 0%float).
Qed.

Lemma offset_div_self (x : float) :
  unit_float x -> ((x + 0.05) / (x + 0.05))%float = 1%float.
Proof.
  intros H. destruct (offset_between x H) as [H0 H1].
  assert (Nx : nnf (x + 0.05)).
  { apply (between_nnf 0.05 1.05 _ eq_refl); [|split; assumption].
    now apply usable_spec with (lo := 0%float). }
  apply fdiv_self.
  - apply (fle_trans small 0.05 _ nnf_small eq_refl Nx eq_refl H0).
  - apply (fle_trans _ 1.05 big Nx eq_refl nnf_big H1 eq_refl).
Qed.

(** The quotient of two offset luminances, the larger over the smaller. *)
Lemma offset_ratio_between (lo hi : float) :
  unit_float lo -> unit_float hi -> (lo <=? hi)%float = true ->
  between 1 21 ((hi + 0.05) / (lo + 0.05)).
Proof.
  intros Hlo Hhi Hle.
  pose proof (offset_between lo Hlo) as Blo.
  pose proof (offset_between hi Hhi) as Bhi.
  assert (M : moderate 1.05) by (now apply usable_spec with (lo := 0%float)).
  destruct (between_nnf 0.05 1.05 _ eq_refl M Blo) as (_ & Nlo & Mlo).
  destruct (between_nnf 0.05 1.05 _ eq_refl M Bhi) as (_ & Nhi & Mhi).
  split.
  - rewrite <- (offset_div_self lo Hlo).
    apply (fdiv_mono (lo + 0.05) (lo + 0.05) (hi + 0.05) (lo + 0.05)).
    + now apply nnf_zero_le.
    + now apply offset_mono.
    + exact Mhi.
    + destruct Blo as [B0 _].
      apply (fle_trans small 0.05 _ nnf_small eq_refl Nlo eq_refl B0).
    + now apply fle_refl.
    + exact Mlo.
  - exact (proj2 (fdiv_between 0.05 1.05 0.05 1.05 _ _ eq_refl M eq_refl M Bhi Blo)).
Qed.

Lemma min_le_max (a b : float) :
  nnf a -> nnf b -> (PyFloat.min a b <=? PyFloat.max a b)%float = true.
Proof.
  intros Na Nb. unfold PyFloat.max, PyFloat.min.
  destruct (a <? b)%float eqn:E1, (b <? a)%float eqn:E2;
    auto using fle_refl, flt_fle.
Qed.

Lemma ratio_of_between (l1 l2 : float) :
  unit_float l1 -> unit_float l2 -> between 1 21 (ratio_of l1 l2).
Proof.
  intros H1 H2. pose proof (unit_nnf l1 H1) as N1. pose proof (unit_nnf l2 H2) as N2.
  unfold ratio_of, PyFloat.max, PyFloat.min.
  destruct (l1 <? l2)%float eqn:E12, (l2 <? l1)%float eqn:E21.
  - apply offset_ratio_between; auto using fle_refl.
  - apply offset_ratio_between; auto using flt_fle.
  - apply offset_ratio_between; auto using flt_fle.
  - apply offset_ratio_between; auto using fle_refl.
Qed.

Lemma ratio_of_sym (l1 l2 : float) :
  unit_float l1 -> unit_float l2 -> ratio_of l1 l2 = ratio_of l2 l1.
Proof.
  intros H1 H2. unfold ratio_of, PyFloat.max, PyFloat.min.
  destruct (l1 <? l2)%float eqn:E12, (l2 <? l1)%float eqn:E21;
    try reflexivity; now rewrite !offset_div_self.
Qed.

Lemma ratio_of_self (l : float) : unit_float l -> ratio_of l l = 1%float.
Proof.
  intros H. unfold ratio_of, PyFloat.max, PyFloat.min.
  destruct (l <? l)%float; now apply offset_div_self.
Qed.

(** Comparison is antisymmetric on all numbers. *)
Lemma SFcompare_antisym (a b : spec_float) :
  SFcompare b a = option_map CompOpp (SFcompare a b).
Proof.
  destruct a as [sa|sa| |sa ma ea], b as [sb|sb| |sb mb eb]; cbn [SFcompare option_map];
    try reflexivity;
    try (destruct sa; reflexivity); try (destruct sb; reflexivity);
    try (destruct sa, sb; reflexivity).
  destruct sa, sb; try reflexivity.
  - rewrite (Z.compare_antisym ea eb).
    destruct (ea ?= eb); cbn [CompOpp]; try reflexivity.
    rewrite (Pos.compare_cont_antisym mb ma Eq). cbn [CompOpp].
    now rewrite CompOpp_involutive.
  - rewrite (Z.compare_antisym ea eb).
    destruct (ea ?= eb); cbn [CompOpp]; try reflexivity.
    rewrite (Pos.compare_cont_antisym ma mb Eq). reflexivity.
Qed.

Lemma fltb_not_leb (a b : float) :
  (a <? b)%float = true -> (b <=? a)%float = false.
Proof.
  rewrite ltb_spec, leb_spec. unfold SFltb, SFleb.
  rewrite (SFcompare_antisym (Prim2SF a) (Prim2SF b)).
  destruct (SFcompare (Prim2SF a) (Prim2SF b)) as [[]|]; try discriminate; reflexivity.
Qed.

(** [pow_12_5] meets the first assumption on [pow]. *)
Lemma pow_12_5_unit : pow_in_unit_interval pow_12_5.
Proof.
  intros x _ _. unfold pow_12_5.
  destruct ((0 <=? _) && (_ <=? 1))%float eqn:E.
  - apply andb_true_iff in E. exact E.
  - split; reflexivity.
Qed.

Section UnitIntervalClaims.

Variable libm_pow : float -> float -> float.
Hypothesis libm_pow_unit : pow_in_unit_interval libm_pow.

Lemma luminance_weighted_sum (r g b : Z) :
  luminance libm_pow (r, g, b)
  = weighted_sum (transform libm_pow r) (transform libm_pow g)
      (transform libm_pow b).
Proof. reflexivity. Qed.

Lemma luminance_unit (r g b : Z) :
  0 <= r <= 255 -> 0 <= g <= 255 -> 0 <= b <= 255 ->
  unit_float (luminance libm_pow (r, g, b)).
Proof.
  intros Hr Hg Hb. rewrite luminance_weighted_sum.
  apply weighted_sum_unit; apply transform_unit; assumption.
Qed.

Lemma valid_colour_luminance (s : string) :
  valid_colour s ->
  exists rgb, hex_to_rgb s = Some rgb /\ unit_float (luminance libm_pow rgb).
Proof.
  intros Hs.
  destruct (hex_to_rgb_six_hex_digits s Hs) as (c1 & c2 & c3 & c4 & c5 & c6 & _ & E).
  destruct (hex_to_rgb_channels_in_range s _ _ _ Hs E) as (Hr & Hg & Hb).
  eexists. split; [exact E|]. now apply luminance_unit.
Qed.

(** * The claims about luminances and ratios *)

(** C2.  For channels [r], [g] and [b] between 0 and 255, [luminance]
    is the WCAG formula as the specification words it: each channel is
    divided by [255.0], the quotient [c'] becomes [c' / 12.92] when
    [c' <= 0.03928] and [((c' + 0.055) / 1.055) ** 2.4] otherwise, and
    the three results are combined with the weights [0.2126], [0.7152]
    and [0.0722].  The result is between [0.0] and [1.0], provided the C
    library's [pow] maps the open unit interval into the closed one at
    exponent [2.4]. *)
Theorem luminance_wcag_formula (r g b : Z) :
  0 <= r <= 255 -> 0 <= g <= 255 -> 0 <= b <= 255 ->
  luminance libm_pow (r, g, b) = wcag_luminance libm_pow r g b
  /\ (0.0 <=? luminance libm_pow (r, g, b))%float = true
  /\ (luminance libm_pow (r, g, b) <=? 1.0)%float = true.
Proof.
  intros Hr Hg Hb. split; [reflexivity|].
  exact (luminance_unit r g b Hr Hg Hb).
Qed.

(** C3.  For valid colours [A] and [B], [contrast_ratio A B] and
    [contrast_ratio B A] return the same number, which is equal to
    itself (it is not a NaN): in both orders it is the larger luminance
    plus [0.05] divided by the smaller luminance plus [0.05].  The C
    library's [pow] is assumed to map the open unit interval into the
    closed one at exponent [2.4]. *)
Theorem contrast_ratio_symmetric (A B : string) :
  valid_colour A -> valid_colour B ->
  exists (rgbA rgbB : Z * Z * Z) (ratio : float),
    hex_to_rgb A = Some rgbA /\ hex_to_rgb B = Some rgbB
    /\ contrast_ratio libm_pow A B = Some ratio
    /\ contrast_ratio libm_pow B A = Some ratio
    /\ (ratio =? ratio)%float = true
    /\ let lumA := luminance libm_pow rgbA in
       let lumB := luminance libm_pow rgbB in
       ratio = ((PyFloat.max lumA lumB + 0.05) / (PyFloat.min lumA lumB + 0.05))%float
       /\ (PyFloat.min lumA lumB <=? PyFloat.max lumA lumB)%float = true.
Proof.
  intros HA HB.
  destruct (valid_colour_luminance A HA) as (rgbA & EA & UA).
  destruct (valid_colour_luminance B HB) as (rgbB & EB & UB).
  exists rgbA, rgbB, (ratio_of (luminance libm_pow rgbA) (luminance libm_pow rgbB)).
  unfold contrast_ratio. rewrite EA, EB.
  do 3 (split; [reflexivity|]). split; [|split].
  - f_equal. now apply ratio_of_sym.
  - pose proof (ratio_of_between _ _ UA UB) as Hb.
    destruct (between_nnf 1 21 _ eq_refl (proj2 (usable_spec 1 21 eq_refl)) Hb)
      as (_ & N & _).
    apply eqb_nnf; [exact N|exact N|]. reflexivity.
  - cbv zeta. split; [reflexivity|].
    apply min_le_max; now apply unit_nnf.
Qed.

(** C4.  For valid colours [A] and [B], [contrast_ratio A B] returns a
    number between [1.0] and [21.0], under the same assumption on the C
    library's [pow]. *)
Theorem contrast_ratio_range (A B : string) :
  valid_colour A -> valid_colour B ->
  exists ratio,
    contrast_ratio libm_pow A B = Some ratio
    /\ (1.0 <=? ratio)%float = true /\ (ratio <=? 21.0)%float = true.
Proof.
  intros HA HB.
  destruct (valid_colour_luminance A HA) as (rgbA & EA & UA).
  destruct (valid_colour_luminance B HB) as (rgbB & EB & UB).
  unfold contrast_ratio. rewrite EA, EB.
  eexists. split; [reflexivity|]. exact (ratio_of_between _ _ UA UB).
Qed.

(** C7.  For a valid colour [A], [contrast_ratio A A] is [1.0]
    exactly; [check_compliance A A] is false for every threshold
    strictly greater than [1.0]; and [1.0] is the least ratio: no valid
    colour has a ratio with [A] below it.  The assumption on the C
    library's [pow] is that of C2. *)
Theorem contrast_ratio_self (A : string) :
  valid_colour A ->
  contrast_ratio libm_pow A A = Some 1.0%float
  /\ (forall (min_ratio : float) (description : string),
       (1.0 <? min_ratio)%float = true ->
       check_compliance libm_pow A A min_ratio description = Some false)
  /\ (forall B : string, valid_colour B ->
       exists ratio, contrast_ratio libm_pow A B = Some ratio
                     /\ (1.0 <=? ratio)%float = true).
Proof.
  intros HA.
  destruct (valid_colour_luminance A HA) as (rgbA & EA & UA).
  assert (E : contrast_ratio libm_pow A A = Some 1%float).
  { unfold contrast_ratio. rewrite EA. f_equal. now apply ratio_of_self. }
  split; [exact E|]. split.
  - intros t d Ht. unfold check_compliance. rewrite E. f_equal.
    now apply fltb_not_leb.
  - intros B HB. destruct (valid_colour_luminance B HB) as (rgbB & EB & UB).
    unfold contrast_ratio. rewrite EA, EB. eexists. split; [reflexivity|].
    exact (proj1 (ratio_of_between _ _ UA UB)).
Qed.

End UnitIntervalClaims.

(** The theorems above, at the power function [pow_12_5]. *)
Lemma luminance_wcag_formula_witness :
  (0.0 <=? luminance pow_12_5 (21, 101, 192)%Z)%float = true
  /\ (luminance pow_12_5 (21, 101, 192)%Z <=? 1.0)%float = true.
Proof.
  apply (luminance_wcag_formula pow_12_5 pow_12_5_unit 21 101 192); lia.
Defined.

Lemma contrast_ratio_range_witness :
  exists ratio,
    contrast_ratio pow_12_5 "#000000" "#1565C0" = Some ratio
    /\ (1.0 <=? ratio)%float = true /\ (ratio <=? 21.0)%float = true.
Proof.
  apply (contrast_ratio_range pow_12_5 pow_12_5_unit); reflexivity.
Defined.

Lemma contrast_ratio_self_witness :
  contrast_ratio pow_12_5 "#1565C0" "#1565C0" = Some 1.0%float.
Proof.
  apply (contrast_ratio_self pow_12_5 pow_12_5_unit "#1565C0"). reflexivity.
Defined.

Lemma contrast_ratio_symmetric_witness :
  exists ratio,
    contrast_ratio pow_12_5 "#1565C0" "#FFFFFF" = Some ratio
    /\ contrast_ratio pow_12_5 "#FFFFFF" "#1565C0" = Some ratio.
Proof.
  destruct (contrast_ratio_symmetric pow_12_5 pow_12_5_unit
              "#1565C0" "#FFFFFF" eq_refl eq_refl)
    as (rgbA & rgbB & ratio & _ & _ & H1 & H2 & _).
  exists ratio. split; assumption.
Defined.

(** ** Accuracy of the power function *)

Lemma pow5_unfold (a : Q) : (a ^ 5 == a * a * (a * a) * a)%Q.
Proof. cbn. ring. Qed.

Lemma pow5_lt (a b : Q) : (0 <= b -> b < a -> b ^ 5 < a ^ 5)%Q.
Proof.
  intros Hb Hab. rewrite !pow5_unfold.
  assert (H2 : (0 <= b * b < a * a)%Q).
  { split; [now apply Qmult_le_0_compat|]. now apply Qmult_lt_compat_nonneg. }
  assert (H4 : (0 <= b * b * (b * b) < a * a * (a * a))%Q).
  { split; [apply Qmult_le_0_compat; apply H2|]. now apply Qmult_lt_compat_nonneg. }
  now apply Qmult_lt_compat_nonneg.
Qed.

Lemma pow5_le_inv (a b : Q) : (0 <= b -> a ^ 5 <= b ^ 5 -> a <= b)%Q.
Proof.
  intros Hb H. destruct (Qlt_le_dec b a) as [Hlt|Hle]; [|exact Hle].
  pose proof (pow5_lt a b Hb Hlt). lra.
Qed.

Lemma close_to_power_between (x p lo hi : float) :
  unit_float p -> close_to_power x p -> bracket x lo hi = true ->
  between lo hi p.
Proof.
  intros Up [C1 C2] Hb. unfold bracket in Hb. rewrite !andb_true_iff in Hb.
  destruct Hb as [[[[U Hlo] B1] B2] B3].
  apply usable_spec in U as [Hlo0 Mhi].
  apply Qle_bool_iff in B1, B2, B3.
  pose proof (unit_nnf p Up) as Np. pose proof (F2Q_nonneg p Np) as Hp.
  pose proof (moderate_nnf hi Mhi) as Nhi.
  assert (Nlo : nnf lo) by (exact (moderate_nnf lo (conj Hlo0 Hlo))).
  pose proof (F2Q_nonneg lo Nlo) as Hl.
  assert (He : (0 < eps)%Q) by reflexivity.
  split.
  - apply leb_nnf; [assumption..|].
    assert ((F2Q lo + eps <= F2Q p + eps)%Q); [|lra].
    apply pow5_le_inv; [lra|]. lra.
  - apply leb_nnf; [assumption..|].
    assert ((F2Q p - eps <= F2Q hi - eps)%Q); [|lra].
    apply pow5_le_inv; [lra|]. lra.
Qed.

Lemma fltb_not_ltb (a b : float) :
  (a <? b)%float = true -> (b <? a)%float = false.
Proof.
  rewrite !ltb_spec. unfold SFltb.
  rewrite (SFcompare_antisym (Prim2SF a) (Prim2SF b)).
  destruct (SFcompare (Prim2SF a) (Prim2SF b)) as [[]|]; try discriminate; reflexivity.
Qed.

(** The ratio against white of a luminance below one. *)
Lemma ratio_white_between (lo hi l : float) :
  usable lo hi = true -> (hi <? 1)%float = true -> between lo hi l ->
  ratio_of l 1 = ((1 + 0.05) / (l + 0.05))%float
  /\ ratio_of 1 l = ((1 + 0.05) / (l + 0.05))%float
  /\ between (1.05 / (hi + 0.05)) (1.05 / (lo + 0.05)) ((1 + 0.05) / (l + 0.05)).
Proof.
  intros U Hhi B. pose proof U as U'. apply usable_spec in U' as [Hlo Mhi].
  destruct (between_nnf lo hi l Hlo Mhi B) as (Nlo & Nl & Ml).
  pose proof (moderate_nnf hi Mhi) as Nhi.
  assert (Hl1 : (l <? 1)%float = true).
  { destruct B as [_ B1]. apply (fle_flt_trans l hi 1); auto. reflexivity. }
  pose proof (fltb_not_ltb l 1 Hl1) as H1l.
  unfold ratio_of, PyFloat.max, PyFloat.min. rewrite Hl1, H1l.
  split; [reflexivity|]. split; [reflexivity|].
  assert (U1 : unit_float hi).
  { split; [now apply nnf_zero_le|]. apply flt_fle; auto. reflexivity. }
  assert (U0 : unit_float lo).
  { split; [exact Hlo|]. destruct B. destruct U1.
    apply (fle_trans lo hi 1); auto; [reflexivity|].
    apply (fle_trans lo l hi); auto. }
  pose proof (offset_between lo U0) as [O1 O2].
  pose proof (offset_between hi U1) as [O3 O4].
  assert (M105 : moderate 1.05) by (now apply usable_spec with (lo := 0%float)).
  assert (Nlo5 : nnf (lo + 0.05)).
  { apply (between_nnf 0.05 1.05 _ eq_refl M105). split; assumption. }
  assert (Nhi5 : nnf (hi + 0.05)).
  { apply (between_nnf 0.05 1.05 _ eq_refl M105). split; assumption. }
  assert (Bd : between (lo + 0.05) (hi + 0.05) (l + 0.05)).
  { exact (fadd_between lo hi 0.05 0.05 l 0.05 Hlo Mhi eq_refl
             (proj2 (usable_spec 0.05 0.05 eq_refl)) B (between_refl 0.05 eq_refl)). }
  apply (fdiv_between 1.05 1.05 (lo + 0.05) (hi + 0.05) (1 + 0.05) (l + 0.05));
    try assumption; try reflexivity.
  - apply (fle_trans small 0.05 _ nnf_small eq_refl Nlo5 eq_refl O1).
  - apply (moderate_below _ 1.05); auto using nnf_zero_le.
Qed.

(** White has luminance one whatever [pow] is. *)
Lemma luminance_white (libm_pow : float -> float -> float) :
  luminance libm_pow (255, 255, 255) = 1%float.
Proof. vm_compute. reflexivity. Qed.

(** Against a luminance of one, the ratio does not increase with the
    other luminance. *)
Lemma ratio_white_monotone (l1 l2 : float) :
  unit_float l1 -> unit_float l2 -> (l1 <=? l2)%float = true ->
  (ratio_of l2 1 <=? ratio_of l1 1)%float = true.
Proof.
  intros U1 U2 H12.
  pose proof (unit_nnf l1 U1) as N1. pose proof (unit_nnf l2 U2) as N2.
  assert (N : nnf 1) by reflexivity.
  assert (Uone : unit_float 1) by (split; reflexivity).
  destruct (l2 <? 1)%float eqn:E2.
  - assert (E1 : (l1 <? 1)%float = true) by exact (fle_flt_trans l1 l2 1 N1 N2 N H12 E2).
    unfold ratio_of, PyFloat.max, PyFloat.min.
    rewrite E1, E2, (fltb_not_ltb l1 1 E1), (fltb_not_ltb l2 1 E2).
    destruct (offset_between l1 U1) as [A1 B1].
    destruct (offset_between l2 U2) as [A2 B2].
    assert (M : moderate 1.05) by (now apply usable_spec with (lo := 0%float)).
    destruct (between_nnf 0.05 1.05 _ eq_refl M (conj A1 B1)) as (_ & Na1 & Ma1).
    destruct (between_nnf 0.05 1.05 _ eq_refl M (conj A2 B2)) as (_ & Na2 & Ma2).
    exact (proj1 (fdiv_mono (1 + 0.05) (l2 + 0.05) (1 + 0.05) (l1 + 0.05)
                    eq_refl eq_refl (proj2 (usable_spec 0 (1 + 0.05) eq_refl))
                    (fle_trans small 0.05 _ nnf_small eq_refl Na1 eq_refl A1)
                    (offset_mono l1 l2 U1 U2 H12) Ma2)).
  - assert (E : l2 = 1%float).
    { symmetry. apply F2Q_eq; [exact N|exact N2|rewrite F2Q_one; reflexivity|].
      apply eqb_nnf; [exact N|exact N2|].
      apply fle_antisym; [exact N|exact N2| |apply U2].
      now apply fnlt_fle. }
    subst l2. rewrite (ratio_of_self 1 Uone).
    exact (proj1 (ratio_of_between l1 1 U1 Uone)).
Qed.

(** ** Monotonicity against white *)

Section WhiteBackground.

Variable libm_pow : float -> float -> float.
Hypothesis libm_pow_unit : pow_in_unit_interval libm_pow.

(** X8.  With the background fixed at white, the ratio does not increase
    when the luminance of the foreground increases.  Whether it
    strictly decreases between two colours of close luminances is
    decided by the last bits of the C library's [pow] and of the two
    roundings that follow, which the assumptions made here do not fix. *)
Lemma contrast_ratio_white_monotone (F1 F2 : string) :
  valid_colour F1 -> valid_colour F2 ->
  exists (rgb1 rgb2 : Z * Z * Z) (ratio1 ratio2 : float),
    hex_to_rgb F1 = Some rgb1 /\ hex_to_rgb F2 = Some rgb2
    /\ contrast_ratio libm_pow F1 "#FFFFFF" = Some ratio1
    /\ contrast_ratio libm_pow F2 "#FFFFFF" = Some ratio2
    /\ ((luminance libm_pow rgb1 <=? luminance libm_pow rgb2)%float = true ->
        (ratio2 <=? ratio1)%float = true).
Proof.
  intros H1 H2.
  destruct (valid_colour_luminance libm_pow libm_pow_unit F1 H1) as (rgb1 & E1 & U1).
  destruct (valid_colour_luminance libm_pow libm_pow_unit F2 H2) as (rgb2 & E2 & U2).
  exists rgb1, rgb2. unfold contrast_ratio. rewrite E1, E2.
  change (hex_to_rgb "#FFFFFF") with (Some (255, 255, 255)).
  cbv iota beta zeta. rewrite luminance_white.
  do 2 eexists. do 4 (split; [reflexivity|]).
  now apply ratio_white_monotone.
Qed.

End WhiteBackground.

(** ** The two scenarios of [check_compliance] *)

Section AccurateClaims.

Variable libm_pow : float -> float -> float.
Hypothesis libm_pow_accurate : pow_accurate libm_pow.

Lemma transform_between (c : Z) (lo hi : float) :
  11 <= c <= 254 ->
  transform libm_pow c = libm_pow (base c) 2.4%float ->
  bracket (base c) lo hi = true ->
  between lo hi (transform libm_pow c).
Proof.
  intros Hc E Hb. rewrite E.
  destruct (libm_pow_accurate c Hc) as [U C].
  exact (close_to_power_between _ _ lo hi U C Hb).
Qed.

Lemma luminance_1565C0 :
  between (weighted_sum 0.0074 0.130 0.527) (weighted_sum 0.0076 0.131 0.528)
    (luminance libm_pow (21, 101, 192)).
Proof.
  change (luminance libm_pow (21, 101, 192))
    with (weighted_sum (transform libm_pow 21) (transform libm_pow 101)
            (transform libm_pow 192)).
  apply weighted_sum_between.
  - vm_compute. reflexivity.
  - apply transform_between; [lia|reflexivity|vm_compute; reflexivity].
  - apply transform_between; [lia|reflexivity|vm_compute; reflexivity].
  - apply transform_between; [lia|reflexivity|vm_compute; reflexivity].
Qed.

Lemma luminance_FAFAFA :
  between (weighted_sum 0.955 0.955 0.955) (weighted_sum 0.957 0.957 0.957)
    (luminance libm_pow (250, 250, 250)).
Proof.
  change (luminance libm_pow (250, 250, 250))
    with (weighted_sum (transform libm_pow 250) (transform libm_pow 250)
            (transform libm_pow 250)).
  apply weighted_sum_between.
  - vm_compute. reflexivity.
  - apply transform_between; [lia|reflexivity|vm_compute; reflexivity].
  - apply transform_between; [lia|reflexivity|vm_compute; reflexivity].
  - apply transform_between; [lia|reflexivity|vm_compute; reflexivity].
Qed.

(** C5.  [check_compliance] returns the result of [ratio >= min_ratio]
    for the ratio that [contrast_ratio] returns, and the default of
    [min_ratio] is [4.5].  For ["#1565C0"] on ["#FFFFFF"] the ratio is
    strictly greater than [4.5] and the answer at [4.5] is true; for
    ["#FFFFFF"] on ["#FAFAFA"] the answer at [4.5] is false.  The two
    scenarios hold for every C library whose [pow] is within [2^-20] of
    the power on the bases of the channels. *)
Theorem check_compliance_scenarios :
  (forall (fg bg : string) (min_ratio : float) (d : string),
     check_compliance libm_pow fg bg min_ratio d
     = option_map (fun ratio => (min_ratio <=? ratio)%float)
         (contrast_ratio libm_pow fg bg))
  /\ default_min_ratio = 4.5%float
  /\ (exists ratio,
        contrast_ratio libm_pow "#1565C0" "#FFFFFF" = Some ratio
        /\ (4.5 <? ratio)%float = true)
  /\ check_compliance libm_pow "#1565C0" "#FFFFFF" 4.5 "Primary on Background"
     = Some true
  /\ check_compliance libm_pow "#FFFFFF" "#FAFAFA" 4.5 "white on near-white"
     = Some false.
Proof.
  split.
  { intros fg bg t d. unfold check_compliance.
    now destruct (contrast_ratio libm_pow fg bg). }
  split; [reflexivity|].
  assert (Ua : usable (weighted_sum 0.0074 0.130 0.527)
                 (weighted_sum 0.0076 0.131 0.528) = true)
    by (vm_compute; reflexivity).
  assert (Ub : usable (weighted_sum 0.955 0.955 0.955)
                 (weighted_sum 0.957 0.957 0.957) = true)
    by (vm_compute; reflexivity).
  destruct (ratio_white_between _ _ _ Ua eq_refl luminance_1565C0)
    as (E1 & _ & B1).
  destruct (ratio_white_between _ _ _ Ub eq_refl luminance_FAFAFA)
    as (_ & E2 & B2).
  set (L1 := luminance libm_pow (21, 101, 192)) in *.
  set (L2 := luminance libm_pow (250, 250, 250)) in *.
  assert (C1 : contrast_ratio libm_pow "#1565C0" "#FFFFFF" = Some (ratio_of L1 1)).
  { reflexivity. }
  assert (C2 : contrast_ratio libm_pow "#FFFFFF" "#FAFAFA" = Some (ratio_of 1 L2)).
  { reflexivity. }
  set (lo1 := (1.05 / (weighted_sum 0.0076 0.131 0.528 + 0.05))%float) in *.
  set (hi1 := (1.05 / (weighted_sum 0.0074 0.130 0.527 + 0.05))%float) in *.
  set (lo2 := (1.05 / (weighted_sum 0.957 0.957 0.957 + 0.05))%float) in *.
  set (hi2 := (1.05 / (weighted_sum 0.955 0.955 0.955 + 0.05))%float) in *.
  assert (V1 : usable lo1 hi1 = true) by (vm_compute; reflexivity).
  assert (V2 : usable lo2 hi2 = true) by (vm_compute; reflexivity).
  apply usable_spec in V1 as [P1 M1], V2 as [P2 M2].
  destruct (between_nnf lo1 hi1 _ P1 M1 B1) as (Nlo1 & Nr1 & _).
  destruct (between_nnf lo2 hi2 _ P2 M2 B2) as (_ & Nr2 & _).
  assert (H1 : (4.5 <? ratio_of L1 1)%float = true).
  { rewrite E1. destruct B1 as [B1 _].
    apply (flt_fle_trans 4.5 lo1 _ eq_refl Nlo1 Nr1); [vm_compute; reflexivity|exact B1]. }
  assert (H2 : (ratio_of 1 L2 <? 4.5)%float = true).
  { rewrite E2. destruct B2 as [_ B2].
    apply (fle_flt_trans _ hi2 4.5 Nr2 (moderate_nnf hi2 M2) eq_refl B2).
    vm_compute. reflexivity. }
  split; [exists (ratio_of L1 1); split; [exact C1|exact H1]|].
  split.
  - unfold check_compliance. rewrite C1. f_equal.
    rewrite leb_spec. rewrite ltb_spec in H1. unfold SFleb, SFltb in *.
    destruct (SFcompare _ _) as [[]|]; try discriminate; reflexivity.
  - unfold check_compliance. rewrite C2. f_equal. now apply fltb_not_leb.
Qed.

End AccurateClaims.

(** [pow_12_5] meets the second assumption on [pow], by evaluation on
    the channels. *)
Lemma pow_12_5_accurate : pow_accurate pow_12_5.
Proof.
  intros c Hc.
  pose proof (forall_channels
    (fun c => (c <? 11) || (254 <? c)
              || (((0 <=? pow_12_5 (base c) 2.4) && (pow_12_5 (base c) 2.4 <=? 1))%float
                  && close_to_power_b (base c) (pow_12_5 (base c) 2.4%float)))
    ltac:(vm_compute; reflexivity) c ltac:(lia)) as H.
  cbv beta in H.
  replace (c <? 11) with false in H by (symmetry; apply Z.ltb_ge; lia).
  replace (254 <? c) with false in H by (symmetry; apply Z.ltb_ge; lia).
  cbn [orb] in H. rewrite !andb_true_iff in H. destruct H as [[H0 H1] H2].
  split; [split; assumption|].
  unfold close_to_power_b in H2. rewrite andb_true_iff in H2.
  destruct H2 as [H2 H3]. apply Qle_bool_iff in H2, H3. split; assumption.
Qed.

Lemma check_compliance_scenarios_witness :
  check_compliance pow_12_5 "#1565C0" "#FFFFFF" 4.5 "Primary on Background"
  = Some true.
Proof.
  apply (check_compliance_scenarios pow_12_5 pow_12_5_accurate).
Defined.

(** * Further properties of [hex_to_rgb] *)

(** ** Slices and short strings *)

(** A boolean property checked on every string of at most two characters
    holds of each. *)
Lemma short_strings (P : string -> bool) :
  P EmptyString = true ->
  forallb (fun a => P (String a EmptyString)) all_ascii = true ->
  forallb (fun a => forallb (fun b => P (String a (String b EmptyString))) all_ascii)
    all_ascii = true ->
  forall t, (String.length t <= 2)%nat -> P t = true.
Proof.
  intros H0 H1 H2 t Ht.
  destruct t as [|a [|b [|c t]]]; cbn in Ht; try lia.
  - exact H0.
  - exact (forall_ascii _ H1 a).
  - exact (forall_ascii2 (fun a b => P (String a (String b EmptyString))) H2 a b).
Qed.

Lemma length_take (n : nat) (s : string) : (String.length (Py.take n s) <= n)%nat.
Proof.
  revert s. induction n as [|n IH]; intros [|c s]; cbn; try lia.
  specialize (IH s). lia.
Qed.

(** A slice [s[i:i+2]] has at most two characters. *)
Lemma length_slice (i : nat) (s : string) :
  (String.length (Py.slice i (i + 2) s) <= 2)%nat.
Proof.
  unfold Py.slice. replace (i + 2 - i)%nat with 2%nat by lia. apply length_take.
Qed.

(** [int(_, 16)] of at most two characters: the least value is that of
    ["-f"] and the greatest that of ["ff"]. *)
Lemma int16_short_range (t : string) (v : Z) :
  (String.length t <= 2)%nat -> Py.int16 t = Some v -> -15 <= v <= 255.
Proof.
  intros Ht E.
  pose proof (short_strings int16_in_range eq_refl
                ltac:(vm_compute; reflexivity) ltac:(vm_compute; reflexivity) t Ht) as H.
  unfold int16_in_range in H. rewrite E in H.
  apply andb_true_iff in H. lia.
Qed.

(** A result of [hex_to_rgb] is made of the values of the three slices. *)
Lemma hex_to_rgb_slices (s : string) (r g b : Z) :
  hex_to_rgb s = Some (r, g, b) ->
  Py.int16 (Py.slice 0 2 (Py.lstrip "#"%char s)) = Some r
  /\ Py.int16 (Py.slice 2 4 (Py.lstrip "#"%char s)) = Some g
  /\ Py.int16 (Py.slice 4 6 (Py.lstrip "#"%char s)) = Some b.
Proof.
  unfold hex_to_rgb. intros H.
  destruct (Py.int16 (Py.slice 0 2 _)) as [r'|]; [|discriminate].
  destruct (Py.int16 (Py.slice 2 4 _)) as [g'|]; [|discriminate].
  destruct (Py.int16 (Py.slice 4 6 _)) as [b'|]; [|discriminate].
  repeat split; congruence.
Qed.

(** X1.  Whatever the input, a triple that [hex_to_rgb] returns has its
    three channels between -15 and 255.  Both bounds are reached:
    ["-f-f-f"] is accepted, each slice being a signed digit, and gives
    three negative channels. *)
Theorem hex_to_rgb_channel_bounds :
  (forall (s : string) (r g b : Z),
     hex_to_rgb s = Some (r, g, b) ->
     -15 <= r <= 255 /\ -15 <= g <= 255 /\ -15 <= b <= 255)
  /\ hex_to_rgb "-f-f-f" = Some (-15, -15, -15)
  /\ hex_to_rgb "ffffff" = Some (255, 255, 255).
Proof.
  split; [|split; vm_compute; reflexivity].
  intros s r g b H. apply hex_to_rgb_slices in H as (Hr & Hg & Hb).
  repeat split.
  all: try (apply (int16_short_range _ _ (length_slice 0 _) Hr)).
  all: try (apply (int16_short_range _ _ (length_slice 2 _) Hg)).
  all: try (apply (int16_short_range _ _ (length_slice 4 _) Hb)).
Qed.

Lemma drop_short (n : nat) (s : string) :
  (String.length s <= n)%nat -> Py.drop n s = EmptyString.
Proof.
  revert s. induction n as [|n IH]; intros [|c s] H; cbn in *; try reflexivity; try lia.
  apply IH. lia.
Qed.

(** X2.  [hex_to_rgb] raises on every input that has fewer than five
    characters after its leading [#] characters, the slice [4:6] being
    empty: the empty string, ["#"], and the three-digit shorthand such as
    ["#FFF"] are rejected. *)
Theorem hex_to_rgb_too_short (s : string) :
  (String.length (Py.lstrip "#"%char s) < 5)%nat -> hex_to_rgb s = None.
Proof.
  intros H. unfold hex_to_rgb.
  assert (E : Py.slice 4 6 (Py.lstrip "#"%char s) = EmptyString).
  { unfold Py.slice. rewrite drop_short by lia. reflexivity. }
  rewrite E.
  destruct (Py.int16 (Py.slice 0 2 _)); [|reflexivity].
  destruct (Py.int16 (Py.slice 2 4 _)); reflexivity.
Qed.

Lemma hex_to_rgb_too_short_witness : hex_to_rgb "#FFF" = None.
Proof. apply hex_to_rgb_too_short. cbn. lia. Defined.

(** ** Letter case *)

Section CharacterMap.

Variable f : ascii -> ascii.
Hypothesis f_hash : forall c, Ascii.eqb (f c) "#"%char = Ascii.eqb c "#"%char.
Hypothesis f_int16 :
  forall t, (String.length t <= 2)%nat -> Py.int16 (map_string f t) = Py.int16 t.

Lemma lstrip_map (s : string) :
  Py.lstrip "#"%char (map_string f s) = map_string f (Py.lstrip "#"%char s).
Proof.
  induction s as [|c s IH]; [reflexivity|].
  cbn. rewrite f_hash. destruct (Ascii.eqb c "#"%char); [exact IH|reflexivity].
Qed.

Lemma take_map (n : nat) (s : string) :
  Py.take n (map_string f s) = map_string f (Py.take n s).
Proof.
  revert s. induction n as [|n IH]; intros [|c s]; cbn; try reflexivity.
  now rewrite IH.
Qed.

Lemma drop_map (n : nat) (s : string) :
  Py.drop n (map_string f s) = map_string f (Py.drop n s).
Proof.
  revert s. induction n as [|n IH]; intros [|c s]; cbn; try reflexivity.
  apply IH.
Qed.

Lemma slice_map (i j : nat) (s : string) :
  Py.slice i j (map_string f s) = map_string f (Py.slice i j s).
Proof. unfold Py.slice. now rewrite drop_map, take_map. Qed.

(** A change of characters that keeps [#] and the value of every string
    of at most two characters keeps the result of [hex_to_rgb]. *)
Lemma hex_to_rgb_map (s : string) : hex_to_rgb (map_string f s) = hex_to_rgb s.
Proof.
  unfold hex_to_rgb. rewrite lstrip_map, !slice_map.
  rewrite (f_int16 _ (length_slice 0 _)).
  rewrite (f_int16 _ (length_slice 2 _)).
  rewrite (f_int16 _ (length_slice 4 _)).
  reflexivity.
Qed.

End CharacterMap.

Lemma option_Z_eqb_eq (a b : option Z) : option_Z_eqb a b = true -> a = b.
Proof.
  destruct a, b; cbn; try discriminate; try reflexivity.
  intros H. apply Z.eqb_eq in H. now subst.
Qed.

Lemma int16_case (f : ascii -> ascii) :
  (let P := fun t => option_Z_eqb (Py.int16 (map_string f t)) (Py.int16 t) in
   P EmptyString
   && forallb (fun a => P (String a EmptyString)) all_ascii
   && forallb (fun a => forallb (fun b => P (String a (String b EmptyString))) all_ascii)
        all_ascii) = true ->
  forall t, (String.length t <= 2)%nat -> Py.int16 (map_string f t) = Py.int16 t.
Proof.
  cbv zeta. rewrite !andb_true_iff. intros [[H0 H1] H2] t Ht.
  apply option_Z_eqb_eq.
  exact (short_strings
           (fun t => option_Z_eqb (Py.int16 (map_string f t)) (Py.int16 t))
           H0 H1 H2 t Ht).
Qed.

Lemma ascii_eqb_pointwise (f : ascii -> ascii) :
  forallb (fun c => Bool.eqb (Ascii.eqb (f c) "#"%char) (Ascii.eqb c "#"%char))
    all_ascii = true ->
  forall c, Ascii.eqb (f c) "#"%char = Ascii.eqb c "#"%char.
Proof.
  intros H c. apply Bool.eqb_prop.
  exact (forall_ascii
           (fun c => Bool.eqb (Ascii.eqb (f c) "#"%char) (Ascii.eqb c "#"%char)) H c).
Qed.

(** X3.  [hex_to_rgb] ignores the case of the ASCII letters of its input,
    whatever the input: lowering or raising them changes neither the
    triple returned nor whether the call raises. *)
Theorem hex_to_rgb_ignores_case (s : string) :
  hex_to_rgb (map_string ascii_lower s) = hex_to_rgb s
  /\ hex_to_rgb (map_string ascii_upper s) = hex_to_rgb s.
Proof.
  split; apply hex_to_rgb_map.
  - apply ascii_eqb_pointwise. vm_compute. reflexivity.
  - apply int16_case. vm_compute. reflexivity.
  - apply ascii_eqb_pointwise. vm_compute. reflexivity.
  - apply int16_case. vm_compute. reflexivity.
Qed.

(** ** Round trip *)

Lemma hex_char_digit (d : Z) :
  0 <= d <= 15 ->
  is_hex_digit (hex_char d) = true /\ digit_value (hex_char d) = d.
Proof.
  intros H.
  assert (E : d = 0 \/ d = 1 \/ d = 2 \/ d = 3 \/ d = 4 \/ d = 5 \/ d = 6 \/ d = 7
              \/ d = 8 \/ d = 9 \/ d = 10 \/ d = 11 \/ d = 12 \/ d = 13 \/ d = 14
              \/ d = 15) by lia.
  repeat (destruct E as [->|E]; [split; reflexivity|]). subst. split; reflexivity.
Qed.

Lemma hex_char_upper (c : ascii) :
  is_hex_digit c = true -> hex_char (digit_value c) = ascii_upper c.
Proof.
  intros H.
  pose proof (forall_ascii
    (fun c => implb (is_hex_digit c)
                (Ascii.eqb (hex_char (digit_value c)) (ascii_upper c)))
    ltac:(vm_compute; reflexivity) c) as E.
  cbv beta in E. rewrite H in E. cbn [implb] in E. now apply Ascii.eqb_eq in E.
Qed.

Lemma to_hex2_digits (a b : ascii) :
  is_hex_digit a = true -> is_hex_digit b = true ->
  to_hex2 (16 * digit_value a + digit_value b)
  = String (ascii_upper a) (String (ascii_upper b) EmptyString).
Proof.
  intros Ha Hb. pose proof (digit_value_range a). pose proof (digit_value_range b).
  unfold to_hex2.
  replace ((16 * digit_value a + digit_value b) / 16) with (digit_value a)
    by (apply Z.div_unique with (r := digit_value b); lia).
  replace ((16 * digit_value a + digit_value b) mod 16) with (digit_value b)
    by (apply Z.mod_unique with (q := digit_value a); lia).
  now rewrite !hex_char_upper.
Qed.

Lemma to_hex2_value (v : Z) :
  0 <= v <= 255 ->
  exists a b, to_hex2 v = String a (String b EmptyString)
              /\ is_hex_digit a = true /\ is_hex_digit b = true
              /\ 16 * digit_value a + digit_value b = v.
Proof.
  intros Hv. exists (hex_char (v / 16)), (hex_char (v mod 16)).
  assert (H1 : 0 <= v / 16 <= 15).
  { split; [apply Z.div_pos; lia|].
    assert (v / 16 < 16) by (apply Z.div_lt_upper_bound; lia). lia. }
  assert (H2 : 0 <= v mod 16 <= 15) by (pose proof (Z.mod_pos_bound v 16); lia).
  destruct (hex_char_digit _ H1) as [Ha Ea]. destruct (hex_char_digit _ H2) as [Hb Eb].
  split; [reflexivity|]. split; [exact Ha|]. split; [exact Hb|].
  rewrite Ea, Eb. pose proof (Z.div_mod v 16). lia.
Qed.

(** X4.  [hex_to_rgb] and the formatting ['#%02X%02X%02X'] are inverse of
    each other.  Every triple of channels between 0 and 255 is the result
    of [hex_to_rgb] on its formatting, which is a valid colour; and
    formatting the result of [hex_to_rgb] on a valid colour gives the
    colour back, in upper case and with its [#].  So two valid colours
    have the same channels exactly when they are the same up to case and
    to the [#]. *)
Theorem hex_to_rgb_round_trip :
  (forall r g b : Z,
     0 <= r <= 255 -> 0 <= g <= 255 -> 0 <= b <= 255 ->
     valid_colour (to_hex (r, g, b))
     /\ hex_to_rgb (to_hex (r, g, b)) = Some (r, g, b))
  /\ (forall (s : string) (rgb : Z * Z * Z),
        valid_colour s -> hex_to_rgb s = Some rgb ->
        to_hex rgb = String "#"%char (map_string ascii_upper (strip_optional_hash s))).
Proof.
  split.
  - intros r g b Hr Hg Hb.
    destruct (to_hex2_value r Hr) as (a1 & a2 & E1 & Ha1 & Ha2 & V1).
    destruct (to_hex2_value g Hg) as (b1 & b2 & E2 & Hb1 & Hb2 & V2).
    destruct (to_hex2_value b Hb) as (c1 & c2 & E3 & Hc1 & Hc2 & V3).
    assert (Hv : valid_colour (to_hex (r, g, b))).
    { unfold valid_colour, to_hex. rewrite E1, E2, E3.
      cbn [append strip_optional_hash]. rewrite Ascii.eqb_refl.
      unfold six_hex_digits. cbn [String.length Nat.eqb all_hex andb].
      now rewrite Ha1, Ha2, Hb1, Hb2, Hc1, Hc2. }
    split; [exact Hv|].
    destruct (hex_to_rgb_six_hex_digits _ Hv) as (d1 & d2 & d3 & d4 & d5 & d6 & Es & E).
    rewrite E. unfold to_hex in Es. rewrite E1, E2, E3 in Es.
    cbn [append strip_optional_hash] in Es. rewrite Ascii.eqb_refl in Es.
    injection Es as <- <- <- <- <- <-. now rewrite V1, V2, V3.
  - intros s rgb Hs E.
    destruct (hex_to_rgb_six_hex_digits s Hs) as (a & b & c & d & e & f & Es & E').
    pose proof Hs as Hd. unfold valid_colour in Hd. rewrite Es in Hd.
    apply six_hex_digits_inv in Hd
      as (a' & b' & c' & d' & e' & f' & Ed & Ha & Hb & Hc & Hd & He & Hf).
    injection Ed as <- <- <- <- <- <-.
    assert (Er : rgb = (16 * digit_value a + digit_value b,
                        16 * digit_value c + digit_value d,
                        16 * digit_value e + digit_value f)) by congruence.
    rewrite Er, Es.
    unfold to_hex. rewrite !to_hex2_digits by assumption. reflexivity.
Qed.

Lemma hex_to_rgb_round_trip_witness :
  hex_to_rgb (to_hex (21, 101, 192)) = Some (21, 101, 192)
  /\ to_hex (21, 101, 192) = "#1565C0"%string.
Proof.
  split.
  - apply (proj1 hex_to_rgb_round_trip); lia.
  - apply (proj2 hex_to_rgb_round_trip "#1565c0"%string); reflexivity.
Defined.

(** * Further properties of [contrast_ratio] and [check_compliance] *)

(** ** Order facts with a non-negative upper bound *)

(** [<=] is transitive when the last number is non-negative and finite,
    whatever the first two are. *)
Lemma SFleb_trans_top (a b c : spec_float) :
  valid_binary a = true -> valid_binary b = true -> valid_binary c = true ->
  SFnnf c -> SFleb a b = true -> SFleb b c = true -> SFleb a c = true.
Proof.
  intros Va Vb Vc Nc Hab Hbc.
  assert (K : SFnnf a -> SFnnf b -> SFleb a c = true).
  { intros Na Nb.
    apply SFleb_nnf in Hab; [|assumption..]. apply SFleb_nnf in Hbc; [|assumption..].
    apply SFleb_nnf; [assumption..|]. eapply Qle_trans; eassumption. }
  destruct c as [sc| | |sc mc ec]; try contradiction.
  - destruct a as [sa|sa| |sa ma ea], b as [sb|sb| |sb mb eb];
      try destruct sa; try destruct sb;
      try (cbn in Hab; discriminate Hab); try (cbn in Hbc; discriminate Hbc);
      try reflexivity; apply K; cbn; auto.
  - cbn in Nc. subst sc.
    destruct a as [sa|sa| |sa ma ea], b as [sb|sb| |sb mb eb];
      try destruct sa; try destruct sb;
      try (cbn in Hab; discriminate Hab); try (cbn in Hbc; discriminate Hbc);
      try reflexivity; apply K; cbn; auto.
Qed.

Lemma fle_trans_top (a b c : float) :
  nnf c -> (a <=? b)%float = true -> (b <=? c)%float = true ->
  (a <=? c)%float = true.
Proof.
  rewrite !leb_spec. unfold nnf.
  apply SFleb_trans_top; apply Prim2SF_valid.
Qed.

(** ** The ratio of two ordered luminances *)

(** Two luminances of the same value have the same offset luminance,
    also when they are the two zeros. *)
Lemma offset_eq (x y : float) :
  unit_float x -> unit_float y ->
  (x <=? y)%float = true -> (y <=? x)%float = true ->
  (x + 0.05)%float = (y + 0.05)%float.
Proof.
  intros Ux Uy H1 H2.
  pose proof (offset_mono x y Ux Uy H1) as L1.
  pose proof (offset_mono y x Uy Ux H2) as L2.
  destruct (offset_between x Ux) as [A1 B1].
  destruct (offset_between y Uy) as [A2 B2].
  assert (M : moderate 1.05) by (now apply usable_spec with (lo := 0%float)).
  destruct (between_nnf 0.05 1.05 _ eq_refl M (conj A1 B1)) as (N5 & Nx & _).
  destruct (between_nnf 0.05 1.05 _ eq_refl M (conj A2 B2)) as (_ & Ny & _).
  apply F2Q_eq; [exact Nx|exact Ny| |].
  - apply (leb_nnf _ _ N5 Nx) in A1.
    assert (0 < F2Q 0.05)%Q by (vm_compute; reflexivity).
    eapply Qlt_le_trans; eassumption.
  - apply eqb_nnf; [exact Nx|exact Ny|]. now apply fle_antisym.
Qed.

(** In either order of its arguments, [ratio_of] divides the offset of
    the larger luminance by that of the smaller. *)
Lemma ratio_of_ordered (lo hi : float) :
  unit_float lo -> unit_float hi -> (lo <=? hi)%float = true ->
  ratio_of lo hi = ((hi + 0.05) / (lo + 0.05))%float
  /\ ratio_of hi lo = ((hi + 0.05) / (lo + 0.05))%float.
Proof.
  intros Ulo Uhi H.
  assert (E : ratio_of lo hi = ((hi + 0.05) / (lo + 0.05))%float).
  { pose proof (unit_nnf lo Ulo) as Nlo. pose proof (unit_nnf hi Uhi) as Nhi.
    unfold ratio_of, PyFloat.max, PyFloat.min.
    destruct (lo <? hi)%float eqn:E1.
    - now rewrite (fltb_not_ltb lo hi E1).
    - pose proof (fnlt_fle lo hi Nlo Nhi E1) as H'.
      destruct (hi <? lo)%float; now rewrite !(offset_eq hi lo Uhi Ulo H' H). }
  split; [exact E|]. rewrite <- E. now apply ratio_of_sym.
Qed.

(** Of three ordered luminances, the outer two have the largest ratio. *)
Lemma ratio_of_nested (l1 l2 l3 : float) :
  unit_float l1 -> unit_float l2 -> unit_float l3 ->
  (l1 <=? l2)%float = true -> (l2 <=? l3)%float = true ->
  (ratio_of l1 l2 <=? ratio_of l1 l3)%float = true
  /\ (ratio_of l2 l3 <=? ratio_of l1 l3)%float = true.
Proof.
  intros U1 U2 U3 H12 H23.
  pose proof (unit_nnf l1 U1) as N1. pose proof (unit_nnf l2 U2) as N2.
  pose proof (unit_nnf l3 U3) as N3.
  pose proof (fle_trans l1 l2 l3 N1 N2 N3 H12 H23) as H13.
  rewrite (proj1 (ratio_of_ordered l1 l2 U1 U2 H12)).
  rewrite (proj1 (ratio_of_ordered l1 l3 U1 U3 H13)).
  rewrite (proj1 (ratio_of_ordered l2 l3 U2 U3 H23)).
  assert (M : moderate 1.05) by (now apply usable_spec with (lo := 0%float)).
  pose proof (offset_between l1 U1) as O1. pose proof (offset_between l2 U2) as O2.
  pose proof (offset_between l3 U3) as O3.
  destruct (between_nnf 0.05 1.05 _ eq_refl M O1) as (N5 & Nx1 & M1).
  destruct (between_nnf 0.05 1.05 _ eq_refl M O2) as (_ & Nx2 & M2).
  destruct (between_nnf 0.05 1.05 _ eq_refl M O3) as (_ & Nx3 & M3).
  assert (S1 : (small <=? l1 + 0.05)%float = true).
  { exact (fle_trans small 0.05 _ nnf_small eq_refl Nx1 eq_refl (proj1 O1)). }
  split.
  - exact (proj1 (fdiv_mono _ _ _ _ (nnf_zero_le _ Nx2) (offset_mono l2 l3 U2 U3 H23) M3
                    S1 (fle_refl _ Nx1) M1)).
  - exact (proj1 (fdiv_mono _ _ _ _ (nnf_zero_le _ Nx3) (fle_refl _ Nx3) M3
                    S1 (offset_mono l1 l2 U1 U2 H12) M2)).
Qed.

Lemma min_unit (a b : float) :
  unit_float a -> unit_float b -> unit_float (PyFloat.min a b).
Proof. intros Ha Hb. unfold PyFloat.min. now destruct (b <? a)%float. Qed.

(** Black has luminance zero whatever [pow] is. *)
Lemma luminance_black (libm_pow : float -> float -> float) :
  luminance libm_pow (0, 0, 0) = 0%float.
Proof. vm_compute. reflexivity. Qed.

Section RatioProperties.

Variable libm_pow : float -> float -> float.
Hypothesis libm_pow_unit : pow_in_unit_interval libm_pow.

Lemma contrast_ratio_luminances (A B : string) :
  valid_colour A -> valid_colour B ->
  exists rgbA rgbB,
    hex_to_rgb A = Some rgbA /\ hex_to_rgb B = Some rgbB
    /\ unit_float (luminance libm_pow rgbA) /\ unit_float (luminance libm_pow rgbB)
    /\ contrast_ratio libm_pow A B
       = Some (ratio_of (luminance libm_pow rgbA) (luminance libm_pow rgbB)).
Proof.
  intros HA HB.
  destruct (valid_colour_luminance libm_pow libm_pow_unit A HA) as (rgbA & EA & UA).
  destruct (valid_colour_luminance libm_pow libm_pow_unit B HB) as (rgbB & EB & UB).
  exists rgbA, rgbB. unfold contrast_ratio. rewrite EA, EB. auto.
Qed.

(** X6.  For valid colours, the divisor of [contrast_ratio], the smaller
    luminance plus [0.05], is at least [0.05] and is not zero: the
    division never raises [ZeroDivisionError].  The C library's [pow] is
    assumed to map the open unit interval into the closed one at
    exponent [2.4]. *)
Theorem contrast_ratio_divisor (A B : string) :
  valid_colour A -> valid_colour B ->
  exists rgbA rgbB : Z * Z * Z,
    hex_to_rgb A = Some rgbA /\ hex_to_rgb B = Some rgbB
    /\ let darker :=
         PyFloat.min (luminance libm_pow rgbA) (luminance libm_pow rgbB) in
       (0.05 <=? darker + 0.05)%float = true
       /\ (darker + 0.05 =? 0)%float = false.
Proof.
  intros HA HB.
  destruct (valid_colour_luminance libm_pow libm_pow_unit A HA) as (rgbA & EA & UA).
  destruct (valid_colour_luminance libm_pow libm_pow_unit B HB) as (rgbB & EB & UB).
  exists rgbA, rgbB. split; [exact EA|]. split; [exact EB|]. cbv zeta.
  pose proof (min_unit _ _ UA UB) as U.
  destruct (offset_between _ U) as [H1 H2]. split; [exact H1|].
  assert (M : moderate 1.05) by (now apply usable_spec with (lo := 0%float)).
  destruct (between_nnf 0.05 1.05 _ eq_refl M (conj H1 H2)) as (N5 & Nx & _).
  destruct (_ =? 0)%float eqn:E; [|reflexivity]. exfalso.
  apply (eqb_nnf _ _ Nx nnf_zero) in E. apply (leb_nnf _ _ N5 Nx) in H1.
  rewrite E, F2Q_zero in H1.
  assert (0 < F2Q 0.05)%Q by (vm_compute; reflexivity).
  apply (Qlt_irrefl 0). eapply Qlt_le_trans; eassumption.
Qed.

(** X7.  For valid colours [A], [B] and [C] whose luminances are in this
    order, the ratio of the outer two is the largest: neither the ratio
    of [A] and [B] nor that of [B] and [C] exceeds that of [A] and [C].
    Moving a colour away from another in luminance never lowers their
    contrast.  The assumption on [pow] is that of X6. *)
Theorem contrast_ratio_nested (A B C : string) :
  valid_colour A -> valid_colour B -> valid_colour C ->
  exists (rgbA rgbB rgbC : Z * Z * Z) (rAB rBC rAC : float),
    hex_to_rgb A = Some rgbA /\ hex_to_rgb B = Some rgbB /\ hex_to_rgb C = Some rgbC
    /\ contrast_ratio libm_pow A B = Some rAB
    /\ contrast_ratio libm_pow B C = Some rBC
    /\ contrast_ratio libm_pow A C = Some rAC
    /\ ((luminance libm_pow rgbA <=? luminance libm_pow rgbB)%float = true ->
        (luminance libm_pow rgbB <=? luminance libm_pow rgbC)%float = true ->
        (rAB <=? rAC)%float = true /\ (rBC <=? rAC)%float = true).
Proof.
  intros HA HB HC.
  destruct (valid_colour_luminance libm_pow libm_pow_unit A HA) as (rgbA & EA & UA).
  destruct (valid_colour_luminance libm_pow libm_pow_unit B HB) as (rgbB & EB & UB).
  destruct (valid_colour_luminance libm_pow libm_pow_unit C HC) as (rgbC & EC & UC).
  exists rgbA, rgbB, rgbC. unfold contrast_ratio. rewrite EA, EB, EC.
  do 3 eexists. do 6 (split; [reflexivity|]).
  now apply ratio_of_nested.
Qed.


(** X10.  For valid colours, a pair that complies at a threshold complies
    at every threshold below it, whatever number the lower threshold is.
    The assumption on [pow] is that of X6. *)
Theorem check_compliance_threshold (A B : string) (t t' : float) (d d' : string) :
  valid_colour A -> valid_colour B ->
  (t' <=? t)%float = true ->
  check_compliance libm_pow A B t d = Some true ->
  check_compliance libm_pow A B t' d' = Some true.
Proof.
  intros HA HB Ht.
  destruct (contrast_ratio_luminances A B HA HB) as (rgbA & rgbB & _ & _ & UA & UB & E).
  unfold check_compliance. rewrite E. intros H. f_equal.
  assert (H' : (t <=? ratio_of (luminance libm_pow rgbA) (luminance libm_pow rgbB))%float
               = true) by congruence.
  pose proof (ratio_of_between _ _ UA UB) as Hb.
  destruct (between_nnf 1 21 _ eq_refl (proj2 (usable_spec 1 21 eq_refl)) Hb)
    as (_ & N & _).
  exact (fle_trans_top t' t _ N Ht H').
Qed.

(** X11.  For valid colours, [check_compliance] answers true at every
    threshold that is at most [1.0] and false at every threshold above
    [21.0].  The assumption on [pow] is that of X6. *)
Theorem check_compliance_extremes (A B : string) (t : float) (d : string) :
  valid_colour A -> valid_colour B ->
  ((t <=? 1.0)%float = true -> check_compliance libm_pow A B t d = Some true)
  /\ ((21.0 <? t)%float = true -> check_compliance libm_pow A B t d = Some false).
Proof.
  intros HA HB.
  destruct (contrast_ratio_luminances A B HA HB) as (rgbA & rgbB & _ & _ & UA & UB & E).
  unfold check_compliance. rewrite E.
  pose proof (ratio_of_between _ _ UA UB) as [H1 H21].
  destruct (between_nnf 1 21 _ eq_refl (proj2 (usable_spec 1 21 eq_refl)) (conj H1 H21))
    as (_ & N & _).
  split; intros Ht; f_equal.
  - exact (fle_trans_top t 1 _ N Ht H1).
  - destruct (t <=? ratio_of _ _)%float eqn:El; [|reflexivity].
    pose proof (fle_trans_top t _ 21 eq_refl El H21) as H.
    rewrite (fltb_not_leb 21 t Ht) in H. discriminate H.
Qed.

(** X12.  Every valid colour complies at [4.5] with black or with white:
    a luminance below [0.18] gives at least [1.05 / 0.23] against white
    and any other at least [0.23 / 0.05] against black.  The assumption
    on [pow] is that of X6. *)
Theorem black_or_white_complies (A : string) (d1 d2 : string) :
  valid_colour A ->
  check_compliance libm_pow A "#000000" 4.5 d1 = Some true
  \/ check_compliance libm_pow A "#FFFFFF" 4.5 d2 = Some true.
Proof.
  intros HA.
  destruct (valid_colour_luminance libm_pow libm_pow_unit A HA) as (rgbA & EA & UA).
  set (l := luminance libm_pow rgbA) in *.
  pose proof (unit_nnf l UA) as Nl.
  assert (U0 : unit_float 0) by (split; reflexivity).
  assert (U1 : unit_float 1) by (split; reflexivity).
  assert (Uk : unit_float 0.18) by (split; reflexivity).
  assert (Nk : nnf 0.18) by reflexivity.
  assert (M : moderate 1.05) by (now apply usable_spec with (lo := 0%float)).
  unfold check_compliance, contrast_ratio. rewrite EA.
  change (hex_to_rgb "#000000") with (Some (0, 0, 0)).
  change (hex_to_rgb "#FFFFFF") with (Some (255, 255, 255)).
  cbv iota beta zeta. rewrite luminance_black, luminance_white. fold l.
  destruct (offset_between l UA) as [A1 B1].
  destruct (between_nnf 0.05 1.05 _ eq_refl M (conj A1 B1)) as (N5 & Nx & Mx).
  destruct (l <? 0.18)%float eqn:E.
  - right. f_equal.
    pose proof (flt_fle l 0.18 Nl Nk E) as Hle.
    assert (H1 : (l <=? 1)%float = true) by apply UA.
    rewrite (proj1 (ratio_of_ordered l 1 UA U1 H1)).
    pose proof (proj1 (fdiv_mono (1 + 0.05) (0.18 + 0.05) (1 + 0.05) (l + 0.05)
                         eq_refl eq_refl (proj2 (usable_spec 0 (1 + 0.05) eq_refl))
                         (fle_trans small 0.05 _ nnf_small eq_refl Nx eq_refl A1)
                         (offset_mono l 0.18 UA Uk Hle)
                         (proj2 (usable_spec 0 (0.18 + 0.05) eq_refl)))) as H.
    refine (fle_trans_top 4.5 ((1 + 0.05) / (0.18 + 0.05)) _ _ eq_refl H).
    apply (between_nnf 1 21 _ eq_refl (proj2 (usable_spec 1 21 eq_refl))).
    rewrite <- (proj1 (ratio_of_ordered l 1 UA U1 H1)).
    now apply ratio_of_between.
  - left. f_equal.
    pose proof (fnlt_fle l 0.18 Nl Nk E) as Hle.
    assert (H0 : (0 <=? l)%float = true) by apply UA.
    rewrite (proj2 (ratio_of_ordered 0 l U0 UA H0)).
    pose proof (proj1 (fdiv_mono (0.18 + 0.05) (0 + 0.05) (l + 0.05) (0 + 0.05)
                         eq_refl (offset_mono 0.18 l Uk UA Hle) Mx
                         eq_refl eq_refl
                         (proj2 (usable_spec 0 (0 + 0.05) eq_refl)))) as H.
    refine (fle_trans_top 4.5 ((0.18 + 0.05) / (0 + 0.05)) _ _ eq_refl H).
    apply (between_nnf 1 21 _ eq_refl (proj2 (usable_spec 1 21 eq_refl))).
    rewrite <- (proj2 (ratio_of_ordered 0 l U0 UA H0)).
    now apply ratio_of_between.
Qed.

End RatioProperties.

(** The theorems above, at the power function [pow_12_5]. *)
Lemma contrast_ratio_divisor_witness :
  exists rgbA rgbB : Z * Z * Z,
    hex_to_rgb "#000000" = Some rgbA /\ hex_to_rgb "#1565C0" = Some rgbB.
Proof.
  destruct (contrast_ratio_divisor pow_12_5 pow_12_5_unit
              "#000000" "#1565C0" eq_refl eq_refl) as (a & b & Ea & Eb & _).
  exists a, b. split; assumption.
Defined.

Lemma contrast_ratio_nested_witness :
  exists rAB rAC : float,
    contrast_ratio pow_12_5 "#000000" "#1565C0" = Some rAB
    /\ contrast_ratio pow_12_5 "#000000" "#FFFFFF" = Some rAC
    /\ (rAB <=? rAC)%float = true.
Proof.
  destruct (contrast_ratio_nested pow_12_5 pow_12_5_unit
              "#000000" "#1565C0" "#FFFFFF" eq_refl eq_refl eq_refl)
    as (a & b & c & rAB & rBC & rAC & Ea & Eb & Ec & H1 & H2 & H3 & H).
  exists rAB, rAC. split; [exact H1|]. split; [exact H3|].
  assert (a = (0, 0, 0)) by (vm_compute in Ea; congruence).
  assert (b = (21, 101, 192)) by (vm_compute in Eb; congruence).
  assert (c = (255, 255, 255)) by (vm_compute in Ec; congruence).
  subst. apply H; vm_compute; reflexivity.
Defined.

Lemma contrast_ratio_white_monotone_witness :
  exists ratio1 ratio2 : float,
    contrast_ratio pow_12_5 "#000000" "#FFFFFF" = Some ratio1
    /\ contrast_ratio pow_12_5 "#1565C0" "#FFFFFF" = Some ratio2.
Proof.
  destruct (contrast_ratio_white_monotone pow_12_5 pow_12_5_unit
              "#000000" "#1565C0" eq_refl eq_refl)
    as (a & b & r1 & r2 & _ & _ & H1 & H2 & _).
  exists r1, r2. split; assumption.
Defined.


Lemma check_compliance_threshold_witness :
  check_compliance pow_12_5 "#1565C0" "#FFFFFF" 3.0 "large text" = Some true.
Proof.
  apply (check_compliance_threshold pow_12_5 pow_12_5_unit
           "#1565C0" "#FFFFFF" 4.5 3.0 "normal text" "large text");
    vm_compute; reflexivity.
Defined.

Lemma check_compliance_extremes_witness :
  check_compliance pow_12_5 "#FFFFFF" "#FAFAFA" 1.0 "any" = Some true.
Proof.
  apply (check_compliance_extremes pow_12_5 pow_12_5_unit
           "#FFFFFF" "#FAFAFA" 1.0 "any"); reflexivity.
Defined.

Lemma black_or_white_complies_witness :
  check_compliance pow_12_5 "#9E9E9E" "#000000" 4.5 "on black" = Some true
  \/ check_compliance pow_12_5 "#9E9E9E" "#FFFFFF" 4.5 "on white" = Some true.
Proof.
  apply (black_or_white_complies pow_12_5 pow_12_5_unit). reflexivity.
Defined.

(** * Enclosures of luminances and ratios *)

(** Every channel meets [enclosure_ok], by evaluation. *)
Lemma enclosure_ok_all (c : Z) : 0 <= c <= 255 -> enclosure_ok c = true.
Proof. apply forall_channels. vm_compute. reflexivity. Qed.

(** Two numbers within [eps] of the same power are within [2 * eps] of
    each other. *)
Lemma close_to_power_near (x p q : float) :
  unit_float p -> unit_float q ->
  close_to_power x p -> close_to_power x q ->
  (F2Q q - 2 * eps <= F2Q p /\ F2Q p <= F2Q q + 2 * eps)%Q.
Proof.
  intros Up Uq [P1 P2] [Q1 Q2].
  pose proof (F2Q_nonneg p (unit_nnf p Up)) as Hp.
  pose proof (F2Q_nonneg q (unit_nnf q Uq)) as Hq.
  assert (He : (0 < eps)%Q) by reflexivity.
  assert (H1 : (F2Q p - eps <= F2Q q + eps)%Q).
  { apply pow5_le_inv; [lra|]. eapply Qle_trans; eassumption. }
  assert (H2 : (F2Q q - eps <= F2Q p + eps)%Q).
  { apply pow5_le_inv; [lra|]. eapply Qle_trans; eassumption. }
  split; lra.
Qed.

(** Every channel meets [step_ok], by evaluation. *)
Lemma step_ok_all (c : Z) : 0 <= c <= 255 -> step_ok c = true.
Proof. apply forall_channels. vm_compute. reflexivity. Qed.

(** A weight times a number of the unit interval. *)
Lemma scale_mono (k x y : float) :
  usable k (k * 1) = true -> (0 <=? k)%float = true -> (k <=? big)%float = true ->
  unit_float x -> unit_float y -> (x <=? y)%float = true ->
  (k * x <=? k * y)%float = true /\ (0 <=? k * x)%float = true
  /\ moderate (k * y).
Proof.
  intros U K0 Kb Ux Uy Hxy.
  assert (Mk : moderate k) by (split; assumption).
  assert (M1 : moderate 1) by (now apply usable_spec with (lo := 0%float)).
  pose proof (moderate_nnf k Mk) as Nk.
  destruct Ux as [X0 X1]. destruct Uy as [Y0 Y1].
  assert (My : moderate y) by exact (moderate_below y 1 Y0 Y1 M1).
  destruct (fmul_mono k x k y K0 (fle_refl k Nk) Mk X0 Hxy My) as [H1 H2].
  destruct (fmul_mono k y k 1 K0 (fle_refl k Nk) Mk Y0 Y1 M1) as [H3 H4].
  split; [exact H1|]. split; [exact H2|].
  apply (moderate_below _ (k * 1) H4 H3). now apply usable_spec in U.
Qed.

(** The weighted sum is monotone in its three arguments. *)
Lemma weighted_sum_mono (r g b r' g' b' : float) :
  unit_float r -> unit_float g -> unit_float b ->
  unit_float r' -> unit_float g' -> unit_float b' ->
  (r <=? r')%float = true -> (g <=? g')%float = true -> (b <=? b')%float = true ->
  (weighted_sum r g b <=? weighted_sum r' g' b')%float = true.
Proof.
  intros Ur Ug Ub Ur' Ug' Ub' Hr Hg Hb. unfold weighted_sum.
  destruct (scale_mono 0.2126 r r' eq_refl eq_refl eq_refl Ur Ur' Hr) as (A1 & A2 & A3).
  destruct (scale_mono 0.7152 g g' eq_refl eq_refl eq_refl Ug Ug' Hg) as (B1 & B2 & B3).
  destruct (scale_mono 0.0722 b b' eq_refl eq_refl eq_refl Ub Ub' Hb) as (C1 & C2 & C3).
  destruct (fadd_mono _ _ _ _ A2 A1 A3 B2 B1 B3) as [S1 S2].
  assert (S3 : moderate (0.2126 * r' + 0.7152 * g')).
  { destruct (scale_mono 0.2126 r' 1 eq_refl eq_refl eq_refl Ur'
                (conj eq_refl eq_refl) (proj2 Ur')) as (A4 & A5 & A6).
    destruct (scale_mono 0.7152 g' 1 eq_refl eq_refl eq_refl Ug'
                (conj eq_refl eq_refl) (proj2 Ug')) as (B4 & B5 & B6).
    destruct (fadd_mono _ _ _ _ A5 A4 A6 B5 B4 B6) as [T1 T2].
    apply (moderate_below _ (0.2126 * 1 + 0.7152 * 1) T2 T1).
    now apply usable_spec with (lo := 0%float). }
  exact (proj1 (fadd_mono _ _ _ _ S2 S1 S3 C2 C1 C3)).
Qed.

Section Accurate.

Variable libm_pow : float -> float -> float.
Hypothesis libm_pow_accurate : pow_accurate libm_pow.

(** The two bounds enclose [transform c]. *)
Lemma transform_enclosure (c : Z) :
  0 <= c <= 255 ->
  between (transform_lo c) (transform_hi c) (transform libm_pow c)
  /\ (0 <=? transform_lo c)%float = true /\ moderate (transform_hi c)
  /\ nnf (transform_lo c)
  /\ (transform_hi c <=? 2)%float = true.
Proof.
  intros Hc. pose proof (enclosure_ok_all c Hc) as H.
  unfold enclosure_ok in H. rewrite !andb_true_iff in H.
  destruct H as [[[U Hlo] H2] H].
  apply usable_spec in U as [L0 Mhi].
  assert (Nlo : nnf (transform_lo c)) by exact (moderate_nnf _ (conj L0 Hlo)).
  split; [|auto].
  rewrite transform_unfold. unfold transform_lo, transform_hi in *.
  destruct (is_linear c).
  { now apply between_refl. }
  unfold PyFloat.pow. destruct (base c =? 1)%float.
  { now apply between_refl. }
  cbn [orb] in H. rewrite !andb_true_iff in H.
  destruct H as [[[H11 H254] Q1] Q2].
  apply Z.leb_le in H11, H254. apply Qle_bool_iff in Q1, Q2.
  destruct (libm_pow_accurate c (conj H11 H254)) as [UP CP].
  destruct (pow_12_5_accurate c (conj H11 H254)) as [Up Cp].
  destruct (close_to_power_near _ _ _ UP Up CP Cp) as [N1 N2].
  pose proof (unit_nnf _ UP) as NP.
  split; apply leb_nnf; try assumption.
  - eapply Qle_trans; eassumption.
  - now apply moderate_nnf.
  - eapply Qle_trans; eassumption.
Qed.

Lemma transform_unit_accurate (c : Z) :
  0 <= c <= 255 -> unit_float (transform libm_pow c).
Proof.
  intros Hc. pose proof (channels_ok c Hc) as Hok.
  pose proof (enclosure_ok_all c Hc) as H.
  unfold enclosure_ok in H. rewrite !andb_true_iff in H. destruct H as [_ H].
  rewrite transform_unfold. unfold channel_ok in Hok.
  destruct (is_linear c).
  { apply andb_true_iff in Hok. exact Hok. }
  unfold PyFloat.pow. destruct (base c =? 1)%float.
  { split; reflexivity. }
  cbn [orb] in H. rewrite !andb_true_iff in H.
  destruct H as [[[H11 H254] _] _]. apply Z.leb_le in H11, H254.
  apply (libm_pow_accurate c (conj H11 H254)).
Qed.

Lemma luminance_unit_accurate (r g b : Z) :
  0 <= r <= 255 -> 0 <= g <= 255 -> 0 <= b <= 255 ->
  unit_float (luminance libm_pow (r, g, b)).
Proof.
  intros Hr Hg Hb. rewrite luminance_weighted_sum.
  apply weighted_sum_unit; now apply transform_unit_accurate.
Qed.

Lemma is_channel_spec (c : Z) : is_channel c = true -> 0 <= c <= 255.
Proof. unfold is_channel. rewrite andb_true_iff, !Z.leb_le. tauto. Qed.

Lemma luminance_enclosure (rgb : Z * Z * Z) :
  lum_usable rgb = true ->
  between (lum_lo rgb) (lum_hi rgb) (luminance libm_pow rgb)
  /\ unit_float (luminance libm_pow rgb).
Proof.
  destruct rgb as [[r g] b]. unfold lum_usable. rewrite !andb_true_iff.
  intros [[[[Hr Hg] Hb] U] _].
  apply is_channel_spec in Hr, Hg, Hb.
  split; [|now apply luminance_unit_accurate].
  rewrite luminance_weighted_sum. unfold lum_lo, lum_hi.
  apply weighted_sum_between; [exact U|..]; now apply transform_enclosure.
Qed.

Lemma ratio_enclosure (rgb1 rgb2 : Z * Z * Z) :
  ratio_usable rgb1 rgb2 = true ->
  let l1 := luminance libm_pow rgb1 in
  let l2 := luminance libm_pow rgb2 in
  ratio_of l2 l1 = ratio_of l1 l2
  /\ between (ratio_lo rgb1 rgb2) (ratio_hi rgb1 rgb2) (ratio_of l1 l2)
  /\ nnf (ratio_of l1 l2) /\ nnf (ratio_lo rgb1 rgb2) /\ nnf (ratio_hi rgb1 rgb2).
Proof.
  unfold ratio_usable. rewrite !andb_true_iff.
  intros [[[[[[[[[U1 U2] Hord] V1] V2] W1] W2] S] R] Rlo]. cbv zeta.
  destruct (luminance_enclosure rgb1 U1) as [B1 Un1].
  destruct (luminance_enclosure rgb2 U2) as [B2 Un2].
  set (l1 := luminance libm_pow rgb1) in *.
  set (l2 := luminance libm_pow rgb2) in *.
  apply usable_spec in V1 as [L1 M1], V2 as [L2 M2], W1 as [K1 P1], W2 as [K2 P2].
  apply usable_spec in R as [R0 RM].
  destruct (between_nnf _ _ _ L1 M1 B1) as (Nlo1 & N1 & _).
  destruct (between_nnf _ _ _ L2 M2 B2) as (Nlo2 & N2 & _).
  pose proof (moderate_nnf _ M1) as Nhi1.
  assert (H12 : (l1 <=? l2)%float = true).
  { apply (fle_trans l1 (lum_hi rgb1) l2 N1 Nhi1 N2); [apply B1|].
    apply (fle_trans _ (lum_lo rgb2) l2 Nhi1 Nlo2 N2 Hord). apply B2. }
  destruct (ratio_of_ordered l1 l2 Un1 Un2 H12) as [E1 E2].
  split; [congruence|].
  assert (M5 : moderate 0.05) by (now apply usable_spec with (lo := 0%float)).
  pose proof (fadd_between _ _ 0.05 0.05 l1 0.05 L1 M1 eq_refl M5 B1
                (between_refl 0.05 eq_refl)) as D1.
  pose proof (fadd_between _ _ 0.05 0.05 l2 0.05 L2 M2 eq_refl M5 B2
                (between_refl 0.05 eq_refl)) as D2.
  pose proof (fdiv_between _ _ _ _ _ _ K2 P2 S P1 D2 D1) as B.
  rewrite E1. fold (ratio_lo rgb1 rgb2) in B. fold (ratio_hi rgb1 rgb2) in B.
  split; [exact B|].
  destruct (between_nnf _ _ _ R0 RM B) as (Nrlo & Nr & _).
  split; [exact Nr|]. split; [exact Nrlo|]. now apply moderate_nnf.
Qed.

(** A verdict is the answer of the comparison, in both orders of the
    luminances. *)
Lemma verdict_sound (rgb1 rgb2 : Z * Z * Z) (t : float) (v : bool) :
  verdict rgb1 rgb2 t = Some v ->
  (t <=? ratio_of (luminance libm_pow rgb1) (luminance libm_pow rgb2))%float = v
  /\ (t <=? ratio_of (luminance libm_pow rgb2) (luminance libm_pow rgb1))%float = v.
Proof.
  unfold verdict. destruct (ratio_usable rgb1 rgb2) eqn:U; [|discriminate].
  destruct (ratio_enclosure rgb1 rgb2 U) as (E & [B1 B2] & Nr & Nlo & Nhi).
  rewrite E.
  destruct (t <=? ratio_lo rgb1 rgb2)%float eqn:T1.
  - intros [= <-].
    rewrite (fle_trans_top t _ _ Nr T1 B1). split; reflexivity.
  - destruct (ratio_hi rgb1 rgb2 <? t)%float eqn:T2; [|discriminate].
    intros [= <-].
    destruct (t <=? ratio_of _ _)%float eqn:T3; [|split; reflexivity].
    pose proof (fle_trans_top t _ _ Nhi T3 B2) as H.
    rewrite (fltb_not_leb _ _ T2) in H. discriminate H.
Qed.

Lemma check_compliance_decided (fg bg : string) (t : float) (d : string) (v : bool) :
  verdict_of fg bg t = Some v ->
  check_compliance libm_pow fg bg t d = Some v.
Proof.
  unfold verdict_of, check_compliance, contrast_ratio.
  destruct (hex_to_rgb fg) as [a|]; [|discriminate].
  destruct (hex_to_rgb bg) as [b|]; [|discriminate].
  destruct (verdict a b t) as [w|] eqn:V.
  - intros [= <-]. f_equal. apply (verdict_sound a b t w V).
  - intros V'. f_equal. apply (verdict_sound b a t v V').
Qed.

End Accurate.

(** * Monotonicity of [luminance] *)

Section Monotone.

Variable libm_pow : float -> float -> float.
Hypothesis libm_pow_accurate : pow_accurate libm_pow.

(** From a channel to the next, [transform] strictly increases. *)
Lemma transform_step (c : Z) :
  0 <= c < 255 ->
  (transform libm_pow c <? transform libm_pow (c + 1))%float = true.
Proof.
  intros Hc.
  pose proof (step_ok_all c ltac:(lia)) as H. unfold step_ok in H.
  replace (c =? 255) with false in H by (symmetry; apply Z.eqb_neq; lia).
  cbn [orb] in H.
  destruct (transform_enclosure libm_pow libm_pow_accurate c ltac:(lia))
    as ([_ B1] & _ & M1 & _ & _).
  destruct (transform_enclosure libm_pow libm_pow_accurate (c + 1) ltac:(lia))
    as ([B2 _] & _ & _ & N2 & _).
  pose proof (unit_nnf _ (transform_unit_accurate libm_pow libm_pow_accurate c
                            ltac:(lia))) as Nc.
  pose proof (unit_nnf _ (transform_unit_accurate libm_pow libm_pow_accurate (c + 1)
                            ltac:(lia))) as Nc'.
  pose proof (moderate_nnf _ M1) as Nhi.
  apply (flt_fle_trans _ (transform_lo (c + 1)) _ Nc N2 Nc'); [|exact B2].
  exact (fle_flt_trans _ (transform_hi c) _ Nc Nhi N2 B1 H).
Qed.

Lemma transform_monotone_nat (n : nat) (c : Z) :
  0 <= c -> c + Z.of_nat n <= 255 ->
  (transform libm_pow c <=? transform libm_pow (c + Z.of_nat n))%float = true.
Proof.
  intros H0. induction n as [|n IH]; intros Hn.
  - replace (c + Z.of_nat 0) with c by lia.
    apply fle_refl, unit_nnf, (transform_unit_accurate libm_pow libm_pow_accurate). lia.
  - replace (c + Z.of_nat (S n)) with (c + Z.of_nat n + 1) by lia.
    pose proof (unit_nnf _ (transform_unit_accurate libm_pow libm_pow_accurate c
                              ltac:(lia))) as N1.
    pose proof (unit_nnf _ (transform_unit_accurate libm_pow libm_pow_accurate
                              (c + Z.of_nat n) ltac:(lia))) as N2.
    pose proof (unit_nnf _ (transform_unit_accurate libm_pow libm_pow_accurate
                              (c + Z.of_nat n + 1) ltac:(lia))) as N3.
    apply (fle_trans _ _ _ N1 N2 N3 (IH ltac:(lia))).
    apply (flt_fle _ _ N2 N3). apply transform_step. lia.
Qed.

Lemma transform_monotone (c c' : Z) :
  0 <= c -> c <= c' -> c' <= 255 ->
  (transform libm_pow c <=? transform libm_pow c')%float = true.
Proof.
  intros H0 H1 H2.
  replace c' with (c + Z.of_nat (Z.to_nat (c' - c))) by lia.
  apply transform_monotone_nat; lia.
Qed.

(** X5.  The nested function [transform] of [luminance] is strictly
    increasing on the channels 0 to 255, across its two branches, and
    [luminance] is monotone: raising channels of a colour never lowers
    its luminance.  This holds for every C library whose [pow] is within
    [2^-20] of the power on the bases of the channels. *)
Theorem luminance_monotone :
  (forall c c' : Z,
     0 <= c -> c < c' -> c' <= 255 ->
     (transform libm_pow c <? transform libm_pow c')%float = true)
  /\ (forall r g b r' g' b' : Z,
        0 <= r -> r <= r' -> r' <= 255 ->
        0 <= g -> g <= g' -> g' <= 255 ->
        0 <= b -> b <= b' -> b' <= 255 ->
        (luminance libm_pow (r, g, b) <=? luminance libm_pow (r', g', b'))%float
        = true).
Proof.
  split.
  - intros c c' H0 H1 H2.
    pose proof (unit_nnf _ (transform_unit_accurate libm_pow libm_pow_accurate c
                              ltac:(lia))) as N1.
    pose proof (unit_nnf _ (transform_unit_accurate libm_pow libm_pow_accurate
                              (c' - 1) ltac:(lia))) as N2.
    pose proof (unit_nnf _ (transform_unit_accurate libm_pow libm_pow_accurate c'
                              ltac:(lia))) as N3.
    apply (fle_flt_trans _ (transform libm_pow (c' - 1)) _ N1 N2 N3).
    + apply transform_monotone; lia.
    + replace c' with (c' - 1 + 1) at 2 by lia. apply transform_step. lia.
  - intros r g b r' g' b' Hr0 Hr Hr1 Hg0 Hg Hg1 Hb0 Hb Hb1.
    rewrite !luminance_weighted_sum.
    apply weighted_sum_mono;
      try (apply (transform_unit_accurate libm_pow libm_pow_accurate); lia);
      apply transform_monotone; lia.
Qed.

End Monotone.

Lemma luminance_monotone_witness :
  (luminance pow_12_5 (21, 101, 192)%Z <=? luminance pow_12_5 (33, 101, 250)%Z)%float
  = true.
Proof.
  apply (proj2 (luminance_monotone pow_12_5 pow_12_5_accurate)); lia.
Defined.

(** * The result of [main] *)

(** A statement of [main] whose colours are in the dictionary and whose
    check returns. *)
Lemma check_step_value (libm_pow : float -> float -> float)
    (all_compliant : bool) (fg bg foreground background : string)
    (min_ratio : float) (description : string) (compliant : bool) :
  PyDict.getitem colors fg = Some foreground ->
  PyDict.getitem colors bg = Some background ->
  check_compliance libm_pow foreground background min_ratio description
  = Some compliant ->
  check_step libm_pow all_compliant fg bg min_ratio description
  = Some (all_compliant && compliant).
Proof.
  intros Hfg Hbg Hc. unfold check_step.
  rewrite Hfg. cbn [bind]. rewrite Hbg. cbn [bind]. rewrite Hc. reflexivity.
Qed.

Lemma bind_Some {A B : Type} (a : A) (f : A -> option B) : bind (Some a) f = f a.
Proof. reflexivity. Qed.

Section MainResult.

Variable libm_pow : float -> float -> float.
Hypothesis libm_pow_accurate : pow_accurate libm_pow.

(** A step of [main], rewritten with the answer of its check. *)
Ltac step H :=
  match goal with
  | |- context [check_step _ ?a ?fg ?bg ?t ?d] =>
      match type of H with
      | check_compliance _ ?f ?b _ _ = Some ?v =>
          rewrite (check_step_value libm_pow a fg bg f b t d v eq_refl eq_refl H);
          rewrite bind_Some; cbv beta; cbn [andb]
      end
  end.

(** A check whose answer the enclosure of the ratio decides. *)
Ltac decide_check :=
  apply (check_compliance_decided libm_pow libm_pow_accurate);
  vm_compute; reflexivity.

(** X13.  [main] returns [False]: no key is missing from [colors], no
    colour fails to parse, nine of the twelve checks pass and three fail,
    the focus indicator and the divider against the background at [3.0]
    and the disabled text against the background at [4.5].  This holds
    for every C library whose [pow] is within [2^-20] of the power on the
    bases of the channels. *)
Theorem main_returns_false :
  main libm_pow = Some false
  /\ check_compliance libm_pow "#1565C0" "#FFFFFF" 4.5 "Primary on Background"
     = Some true
  /\ check_compliance libm_pow "#FFFFFF" "#1565C0" 4.5 "OnPrimary on Primary"
     = Some true
  /\ check_compliance libm_pow "#2E7D32" "#FFFFFF" 4.5 "Secondary on Background"
     = Some true
  /\ check_compliance libm_pow "#FFFFFF" "#2E7D32" 4.5 "OnSecondary on Secondary"
     = Some true
  /\ check_compliance libm_pow "#212121" "#FFFFFF" 4.5 "OnBackground on Background"
     = Some true
  /\ check_compliance libm_pow "#212121" "#FAFAFA" 4.5 "OnSurface on Surface"
     = Some true
  /\ check_compliance libm_pow "#D32F2F" "#FFFFFF" 4.5 "Error on Background"
     = Some true
  /\ check_compliance libm_pow "#FFFFFF" "#D32F2F" 4.5 "OnError on Error"
     = Some true
  /\ check_compliance libm_pow "#FF6F00" "#FFFFFF" 3.0 "Focus Indicator vs Background"
     = Some false
  /\ check_compliance libm_pow "#FFFFFF" "#0277BD" 4.5 "Text vs Pressed Button"
     = Some true
  /\ check_compliance libm_pow "#BDBDBD" "#FFFFFF" 3.0 "Divider vs Background"
     = Some false
  /\ check_compliance libm_pow "#9E9E9E" "#FFFFFF" 4.5 "Disabled Text vs Background"
     = Some false.
Proof.
  assert (H1 : check_compliance libm_pow "#1565C0" "#FFFFFF" 4.5
                 "Primary on Background" = Some true) by decide_check.
  assert (H2 : check_compliance libm_pow "#FFFFFF" "#1565C0" 4.5
                 "OnPrimary on Primary" = Some true) by decide_check.
  assert (H3 : check_compliance libm_pow "#2E7D32" "#FFFFFF" 4.5
                 "Secondary on Background" = Some true) by decide_check.
  assert (H4 : check_compliance libm_pow "#FFFFFF" "#2E7D32" 4.5
                 "OnSecondary on Secondary" = Some true) by decide_check.
  assert (H5 : check_compliance libm_pow "#212121" "#FFFFFF" 4.5
                 "OnBackground on Background" = Some true) by decide_check.
  assert (H6 : check_compliance libm_pow "#212121" "#FAFAFA" 4.5
                 "OnSurface on Surface" = Some true) by decide_check.
  assert (H7 : check_compliance libm_pow "#D32F2F" "#FFFFFF" 4.5
                 "Error on Background" = Some true) by decide_check.
  assert (H8 : check_compliance libm_pow "#FFFFFF" "#D32F2F" 4.5
                 "OnError on Error" = Some true) by decide_check.
  assert (H9 : check_compliance libm_pow "#FF6F00" "#FFFFFF" 3.0
                 "Focus Indicator vs Background" = Some false) by decide_check.
  assert (H10 : check_compliance libm_pow "#FFFFFF" "#0277BD" 4.5
                  "Text vs Pressed Button" = Some true) by decide_check.
  assert (H11 : check_compliance libm_pow "#BDBDBD" "#FFFFFF" 3.0
                  "Divider vs Background" = Some false) by decide_check.
  assert (H12 : check_compliance libm_pow "#9E9E9E" "#FFFFFF" 4.5
                  "Disabled Text vs Background" = Some false) by decide_check.
  split; [|repeat split; assumption].
  unfold main. cbv zeta.
  step H1.
  step H2.
  step H3.
  step H4.
  step H5.
  step H6.
  step H7.
  step H8.
  step H9.
  step H10.
  step H11.
  step H12.
  reflexivity.
Qed.

End MainResult.

Lemma main_returns_false_witness : main pow_12_5 = Some false.
Proof. apply (main_returns_false pow_12_5 pow_12_5_accurate). Defined.
